(** * Media Studio: video processor, gallery storage and recorder helpers

    A shallow embedding of the JavaScript sources of the media-studio
    project: [video-processor.js] (class [VideoProcessor]), [storage.js]
    (IndexedDB persistence of gallery items) and [pickMimeType] of the
    recorder module.

    - JavaScript numbers are IEEE-754 binary64 values.  The arithmetic of
      [calculateCropResize] is written once, over an interface [JsArith],
      and instantiated twice: at Rocq's primitive binary64 floats (the
      arithmetic the program runs) and at the rationals [Q] (the same
      formulas without rounding).  What is stated of the binary64
      instance up to a tolerance rests on a bound of the rounding error
      of each operation, proved from the definitions of the format.
    - Tracks and streams are objects of the platform, kept in a heap;
      the processor and the streams refer to them by identity.
    - What the platform decides (whether metadata loads, whether
      [play()] resolves, rejects or stays pending, when the first frame
      arrives, which calls throw, which IndexedDB requests fail) is a
      parameter of each function, so that a statement about a function
      covers every behaviour of the platform.
    - An [async] function is run from its call to the point where its
      promise settles; other code running between its [await]s is not
      modelled. *)

From Stdlib Require Import ZArith QArith Qfield Lqa Floats Lia List.
From Stdlib Require Import Sorting.Sorted Sorting.Permutation Qpower.
From stdpp Require Import gmap strings pretty.

Local Open Scope Z_scope.

(** ** JavaScript numbers *)

Module JsNumber.

(** The operations on numbers used by the geometry code. *)
Class JsArith (N : Type) := {
  of_int : Z -> N;
  sub : N -> N -> N;
  mul : N -> N -> N;
  div : N -> N -> N;
  gt : N -> N -> bool
}.

(** binary64, the arithmetic of the running program. *)
Definition float_of_Z (z : Z) : float :=
  SF2Prim (binary_normalize prec emax z 0 false).

#[export] Instance binary64 : JsArith float := {|
  of_int := float_of_Z;
  sub := PrimFloat.sub;
  mul := PrimFloat.mul;
  div := PrimFloat.div;
  gt := fun a b => PrimFloat.ltb b a
|}.

(** Exact rational arithmetic. *)
#[export] Instance exact : JsArith Q := {|
  of_int := inject_Z;
  sub := Qminus;
  mul := Qmult;
  div := Qdiv;
  gt := fun a b => negb (Qle_bool a b)
|}.

(** The rational number a finite binary64 value denotes, in lowest terms. *)
Definition float_to_Q (x : float) : option Q :=
  match Prim2SF x with
  | S754_zero _ => Some 0%Q
  | S754_finite s m e =>
      Some (Qred ((if s then -1 else 1) * inject_Z (Z.pos m) * Qpower 2 e))%Q
  | S754_infinity _ | S754_nan => None
  end.

(** The quotient of two binary64 values as an exact rational. *)
Definition exact_ratio (a b : float) : option Q :=
  match float_to_Q a, float_to_Q b with
  | Some x, Some y => Some (x / y)%Q
  | _, _ => None
  end.

(** ToBoolean on a number: [NaN], [+0] and [-0] are falsy. *)
Definition truthy (x : float) : bool :=
  negb (PrimFloat.is_nan x || PrimFloat.is_zero x).

(** [Math.max] and [Math.min] on two arguments: [NaN] if either is
    [NaN]; [+0] counts as larger than [-0]. *)
Definition Math_max (a b : float) : float :=
  if PrimFloat.is_nan a || PrimFloat.is_nan b then PrimFloat.nan
  else if PrimFloat.ltb a b then b
  else if PrimFloat.ltb b a then a
  else if PrimFloat.get_sign a then b else a.

Definition Math_min (a b : float) : float :=
  if PrimFloat.is_nan a || PrimFloat.is_nan b then PrimFloat.nan
  else if PrimFloat.ltb a b then a
  else if PrimFloat.ltb b a then b
  else if PrimFloat.get_sign a then a else b.

(** The comparison of two binary64 values in the specification of the
    format: [None] when one of them is [NaN]. *)
Definition fcompare (x y : float) : option comparison :=
  SFcompare (Prim2SF x) (Prim2SF y).

(** ToBoolean on an integer-valued property such as [videoWidth]. *)
Definition nonzero (z : Z) : bool := negb (z =? 0).

(** The value of a finite binary64 number; 0 for the others. *)
Definition sign_of (s : bool) : Q := if s then -1 else 1.

Definition SFvalue (x : spec_float) : Q :=
  match x with
  | S754_finite s m e =>
      ((if s then -1 else 1) * inject_Z (Z.pos m) * 2 ^ e)%Q
  | _ => 0%Q
  end.

Definition float_value (x : float) : Q := SFvalue (Prim2SF x).

(** Zero, or a finite number with a full mantissa of 53 bits and an
    exponent between [-L] and [L]. *)
Definition SFregular (L : Z) (x : spec_float) : Prop :=
  match x with
  | S754_zero _ => True
  | S754_finite _ m e => Z.pos (digits2_pos m) = 53 /\ - L <= e <= L
  | _ => False
  end.

Definition regular (L : Z) (x : float) : Prop := SFregular L (Prim2SF x).

(** The bound on the relative error of one operation on such numbers,
    [2^-52]. *)
Definition ulp_bound : Q := 1 # 4503599627370496.

(** [v] is [x] up to one relative rounding error. *)
Definition rounds_to (x v : Q) : Prop :=
  exists delta : Q,
    (- ulp_bound <= delta /\ delta <= ulp_bound /\ v == x * (1 + delta))%Q.

End JsNumber.

Import JsNumber.

(** ** Promises

    The settled state of the promise an [async] function returns. *)

Inductive Promise (A : Type) :=
  | Resolved (value : A)
  | Rejected (reason : string).
Arguments Resolved {A} value.
Arguments Rejected {A} reason.

(** ** The media objects of the platform

    Tracks and streams are JavaScript objects with identity: they live in
    a heap and are referred to by their index, so that a stream and the
    processor can share a track. *)

Module Browser.

Inductive TrackKind := VideoKind | AudioKind.

#[export] Instance TrackKind_eq_dec : EqDecision TrackKind.
Proof. solve_decision. Defined.

Inductive TrackOrigin :=
  | FromDevice
  | FromCanvas (frameRate : float)   (* canvas.captureStream(frameRate) *)
  | ClonedFrom (original : nat).     (* track.clone() *)

(** What [track.clone] is on a given track object. *)
Inductive CloneMethod := NoCloneMethod | CloneSucceeds | CloneThrows.

Record Track := {
  kind : TrackKind;
  origin : TrackOrigin;
  live : bool;                      (* readyState is 'live' *)
  clone_method : CloneMethod;
  accepted_by_addTrack : bool       (* addTrack does not throw on it *)
}.

Inductive CanvasOp :=
  | ClearRect (x y w h : Z)
  | FillRect (fillStyle : string) (x y w h : Z)
  | DrawImage (srcX srcY srcW srcH destX destY destW destH : float).

Record World := {
  tracks : list Track;                    (* heap of MediaStreamTrack objects *)
  streams : list (list nat);              (* heap of MediaStream objects *)
  canvas_ops : list CanvasOp;             (* what was drawn on the canvas *)
  frame_requests : list (nat * string);   (* pending animation frames *)
  frames_requested : nat;                 (* how many were ever requested *)
  console : list string
}.

Definition with_tracks (ts : list Track) (w : World) : World :=
  {| tracks := ts; streams := streams w; canvas_ops := canvas_ops w;
     frame_requests := frame_requests w;
     frames_requested := frames_requested w; console := console w |}.

Definition with_streams (ss : list (list nat)) (w : World) : World :=
  {| tracks := tracks w; streams := ss; canvas_ops := canvas_ops w;
     frame_requests := frame_requests w;
     frames_requested := frames_requested w; console := console w |}.

Definition with_canvas_ops (ops : list CanvasOp) (w : World) : World :=
  {| tracks := tracks w; streams := streams w; canvas_ops := ops;
     frame_requests := frame_requests w;
     frames_requested := frames_requested w; console := console w |}.

Definition console_warn (msg : string) (w : World) : World :=
  {| tracks := tracks w; streams := streams w; canvas_ops := canvas_ops w;
     frame_requests := frame_requests w;
     frames_requested := frames_requested w;
     console := console w ++ [msg] |}.

(** [stream.getTracks()], [getVideoTracks()], [getAudioTracks()]. *)
Definition getTracks (w : World) (stream : nat) : list nat :=
  default [] (streams w !! stream).

Definition has_kind (w : World) (k : TrackKind) (t : nat) : bool :=
  bool_decide (kind <$> tracks w !! t = Some k).

Definition getVideoTracks (w : World) (stream : nat) : list nat :=
  List.filter (has_kind w VideoKind) (getTracks w stream).

Definition getAudioTracks (w : World) (stream : nat) : list nat :=
  List.filter (has_kind w AudioKind) (getTracks w stream).

(** [track.stop()]: the track ends. *)
Definition ended (tr : Track) : Track :=
  {| kind := kind tr; origin := origin tr; live := false;
     clone_method := clone_method tr;
     accepted_by_addTrack := accepted_by_addTrack tr |}.

Definition track_stop (w : World) (t : nat) : World :=
  with_tracks (alter ended t (tracks w)) w.

(** [track.clone()]: a new track object, a duplicate of the original. *)
Definition cloned (t : nat) (tr : Track) : Track :=
  {| kind := kind tr; origin := ClonedFrom t; live := live tr;
     clone_method := clone_method tr;
     accepted_by_addTrack := accepted_by_addTrack tr |}.

Definition track_clone (t : nat) (tr : Track) (w : World) : nat * World :=
  (length (tracks w), with_tracks (tracks w ++ [cloned t tr]) w).

(** [stream.addTrack(track)]: a stream holds a set of tracks; adding a
    member again does nothing. *)
Definition addTrack (stream t : nat) (w : World) : World :=
  if bool_decide (t ∈ getTracks w stream) then w
  else with_streams (alter (fun ts => ts ++ [t]) stream (streams w)) w.

(** [canvas.captureStream(frameRate)]: a new stream with one new video
    track fed by the canvas. *)
Definition canvas_track (frameRate : float) : Track :=
  {| kind := VideoKind; origin := FromCanvas frameRate; live := true;
     clone_method := CloneSucceeds; accepted_by_addTrack := true |}.

Definition captureStream (frameRate : float) (w : World) : nat * World :=
  let t := length (tracks w) in
  (length (streams w),
   with_streams (streams w ++ [[t]])
     (with_tracks (tracks w ++ [canvas_track frameRate]) w)).

(** [requestAnimationFrame(callback)]: handles are positive. *)
Definition requestAnimationFrame (fitMode : string) (w : World) : nat * World :=
  let id := S (frames_requested w) in
  (id,
   {| tracks := tracks w; streams := streams w; canvas_ops := canvas_ops w;
      frame_requests := frame_requests w ++ [(id, fitMode)];
      frames_requested := id; console := console w |}).

Definition cancelAnimationFrame (id : nat) (w : World) : World :=
  {| tracks := tracks w; streams := streams w; canvas_ops := canvas_ops w;
     frame_requests :=
       List.filter (fun r => negb (Nat.eqb (fst r) id)) (frame_requests w);
     frames_requested := frames_requested w; console := console w |}.

(** Assigning an integer to [canvas.width] or [canvas.height], IDL
    attributes of type [unsigned long] that reflect a content attribute:
    the number is converted modulo [2^32], and a result above
    [2^31 - 1] is replaced by the default of the attribute (300 for the
    width, 150 for the height).  The attribute then reads as the result. *)
Definition reflect_unsigned_long (default_value value : Z) : Z :=
  let converted := value mod 2 ^ 32 in
  if converted <=? 2147483647 then converted else default_value.

(** How the platform behaves while one call of [startProcessing] waits
    on it. *)
Inductive Metadata := AlreadyLoaded | LoadsInTime | TimesOut.

(** The promise of one call of [video.play()]: it resolves, rejects, or
    stays pending for ever (nothing bounds the wait for it). *)
Inductive PlayOutcome :=
  | PlayResolves
  | PlayRejects (err : string)
  | PlayPending.

Record Platform := {
  (* readyState >= 1 already, 'loadedmetadata' within 5 s, or neither *)
  metadata : Metadata;
  (* the first play(), and the one retried 10 ms after a rejection *)
  first_play : PlayOutcome;
  second_play : PlayOutcome;
  (* videoWidth and videoHeight at the n-th poll *)
  frame_size : nat -> Z * Z;
  (* the message of the error captureStream throws, if it throws *)
  capture_error : option string
}.

End Browser.

Import Browser.

(** ** video-processor.js *)

Module VideoProcessor.

(** The object returned by [calculateCropResize]. *)
Record CropResize (N : Type) := {
  srcX : N; srcY : N; srcW : N; srcH : N;
  destX : N; destY : N; destW : N; destH : N
}.
Arguments srcX {N}. Arguments srcY {N}. Arguments srcW {N}.
Arguments srcH {N}. Arguments destX {N}. Arguments destY {N}.
Arguments destW {N}. Arguments destH {N}.

Section Geometry.
Context {N : Type} `{JsArith N}.

(** [calculateCropResize(inputW, inputH, outputW, outputH, fitMode)].
    The eight results start at their defaults (the full source drawn
    onto the full destination) and each branch overwrites two of
    them.  The [switch] has no default case: any other [fitMode]
    behaves as ['fill']. *)
Definition calculateCropResize
    (inputW inputH outputW outputH : N) (fitMode : string) : CropResize N :=
  let inputAspect := div inputW inputH in
  let outputAspect := div outputW outputH in
  let zero := of_int 0 in
  if decide (fitMode = "contain") then
    if gt inputAspect outputAspect then
      (* input is wider: fit to width *)
      let destH := div outputW inputAspect in
      let destY := div (sub outputH destH) (of_int 2) in
      {| srcX := zero; srcY := zero; srcW := inputW; srcH := inputH;
         destX := zero; destY := destY; destW := outputW; destH := destH |}
    else
      (* input is taller: fit to height *)
      let destW := mul outputH inputAspect in
      let destX := div (sub outputW destW) (of_int 2) in
      {| srcX := zero; srcY := zero; srcW := inputW; srcH := inputH;
         destX := destX; destY := zero; destW := destW; destH := outputH |}
  else if decide (fitMode = "cover") then
    if gt inputAspect outputAspect then
      (* input is wider: crop the sides *)
      let srcW := mul inputH outputAspect in
      let srcX := div (sub inputW srcW) (of_int 2) in
      {| srcX := srcX; srcY := zero; srcW := srcW; srcH := inputH;
         destX := zero; destY := zero; destW := outputW; destH := outputH |}
    else
      (* input is taller: crop top and bottom *)
      let srcH := div inputW outputAspect in
      let srcY := div (sub inputH srcH) (of_int 2) in
      {| srcX := zero; srcY := srcY; srcW := inputW; srcH := srcH;
         destX := zero; destY := zero; destW := outputW; destH := outputH |}
  else
    {| srcX := zero; srcY := zero; srcW := inputW; srcH := inputH;
       destX := zero; destY := zero; destW := outputW; destH := outputH |}.

End Geometry.

(** The [<video>] element the processor plays the input in. *)
Record VideoElement := {
  srcObject : option nat;
  muted : bool;
  playsInline : bool;
  videoWidth : Z;
  videoHeight : Z
}.

(** The fields of a [VideoProcessor]; the canvas is an integer-sized
    bitmap, its 2D context draws into [canvas_ops] of the world. *)
Record Processor := {
  canvas_width : Z;
  canvas_height : Z;
  outputStream : option nat;
  inputVideo : option VideoElement;
  animationId : option nat;
  isProcessing : bool
}.

(** [constructor()]: a fresh canvas is 300 by 150. *)
Definition new_processor : Processor :=
  {| canvas_width := 300; canvas_height := 150; outputStream := None;
     inputVideo := None; animationId := None; isProcessing := false |}.

(** [this.canvas.width = width; this.canvas.height = height]. *)
Definition set_canvas (width height : Z) (this : Processor) : Processor :=
  {| canvas_width := reflect_unsigned_long 300 width;
     canvas_height := reflect_unsigned_long 150 height;
     outputStream := outputStream this; inputVideo := inputVideo this;
     animationId := animationId this; isProcessing := isProcessing this |}.

Definition set_outputStream (s : option nat) (this : Processor) : Processor :=
  {| canvas_width := canvas_width this; canvas_height := canvas_height this;
     outputStream := s; inputVideo := inputVideo this;
     animationId := animationId this; isProcessing := isProcessing this |}.

Definition set_inputVideo (v : option VideoElement) (this : Processor) : Processor :=
  {| canvas_width := canvas_width this; canvas_height := canvas_height this;
     outputStream := outputStream this; inputVideo := v;
     animationId := animationId this; isProcessing := isProcessing this |}.

Definition set_animationId (a : option nat) (this : Processor) : Processor :=
  {| canvas_width := canvas_width this; canvas_height := canvas_height this;
     outputStream := outputStream this; inputVideo := inputVideo this;
     animationId := a; isProcessing := isProcessing this |}.

Definition set_isProcessing (b : bool) (this : Processor) : Processor :=
  {| canvas_width := canvas_width this; canvas_height := canvas_height this;
     outputStream := outputStream this; inputVideo := inputVideo this;
     animationId := animationId this; isProcessing := b |}.

(** The options object of [startProcessing]; [None] is [undefined]. *)
Record Options := {
  width : option Z;
  height : option Z;
  fitMode : option string;
  fps : option float
}.

(** [Math.min(Math.max(1, fps || 30), 60)]. *)
Definition safeFps (fps : float) : float :=
  Math_min (Math_max 1 (if truthy fps then fps else 30)) 60.

(** [processFrame(fitMode)]: draw one frame and ask for the next. *)
Definition processFrame (fitMode : string) (this : Processor) (w : World)
    : Processor * World :=
  if negb (isProcessing this) then (this, w)
  else
    match inputVideo this with
    | None => (this, w)
    | Some video =>
        let cw := canvas_width this in
        let ch := canvas_height this in
        let w1 :=
          if nonzero (videoWidth video) && nonzero (videoHeight video) then
            let g := calculateCropResize (N:=float)
                       (of_int (videoWidth video)) (of_int (videoHeight video))
                       (of_int cw) (of_int ch) fitMode in
            with_canvas_ops
              (canvas_ops w ++
               [ClearRect 0 0 cw ch;
                FillRect "#000000" 0 0 cw ch;
                DrawImage (srcX g) (srcY g) (srcW g) (srcH g)
                          (destX g) (destY g) (destW g) (destH g)]) w
          else w in
        let '(id, w2) := requestAnimationFrame fitMode w1 in
        (set_animationId (Some id) this, w2)
    end.

(** The polling loop that waits for the first frame: [checkFrame] runs
    every 50 ms until both dimensions of the video are non-zero.  It
    has no timeout, so the model takes the number of polls it may
    spend. *)
Fixpoint checkFrame (polls : nat) (env : Platform) (n : nat) : option (Z * Z) :=
  match polls with
  | O => None
  | S polls' =>
      let '(vw, vh) := frame_size env n in
      if nonzero vw && nonzero vh then Some (vw, vh)
      else checkFrame polls' env (S n)
  end.

(** The body of [audioTracks.forEach]: clone the track if it can be
    cloned, add it to the output stream, and on any exception warn and
    go on. *)
Definition forward_audio (out : nat) (w : World) (t : nat) : World :=
  let failed := console_warn "Failed to add audio track to processed stream:" in
  match tracks w !! t with
  | None => w
  | Some tr =>
      match clone_method tr with
      | CloneThrows => failed w
      | CloneSucceeds =>
          let '(c, w1) := track_clone t tr w in
          if accepted_by_addTrack tr then addTrack out c w1 else failed w1
      | NoCloneMethod =>
          if accepted_by_addTrack tr then addTrack out t w else failed w
      end
  end.

(** The [try] around [await this.inputVideo.play()]: a rejection is
    caught and [play()] called once more; the second rejection is
    rethrown. *)
Inductive Played := Playing | PlayFailed (err : string) | PlayStuck.

Definition play_with_retry (env : Platform) : Played :=
  match first_play env with
  | PlayResolves => Playing
  | PlayPending => PlayStuck
  | PlayRejects _ =>
      match second_play env with
      | PlayResolves => Playing
      | PlayRejects err => PlayFailed err
      | PlayPending => PlayStuck
      end
  end.

(** [startProcessing(inputStream, options)], run to the point where
    its promise settles.  [None] when it does not settle: a [play()]
    stays pending, or the first frame has not arrived within [polls]
    polls. *)
Definition startProcessing (polls : nat) (env : Platform)
    (inputStream : nat) (options : Options) (this : Processor) (w : World)
    : option (Promise nat * Processor * World) :=
  let width := default 1920 (width options) in
  let height := default 1080 (height options) in
  let fitMode := default "cover" (fitMode options) in
  let fps := default 30%float (fps options) in
  let videoTracks := getVideoTracks w inputStream in
  if bool_decide (length videoTracks = 0%nat) then
    Some (Rejected "No video tracks in input stream", this, w)
  else
    let this := set_canvas width height this in
    let video := {| srcObject := Some inputStream; muted := true;
                    playsInline := true; videoWidth := 0; videoHeight := 0 |} in
    let this := set_inputVideo (Some video) this in
    match metadata env with
    | TimesOut => Some (Rejected "Video metadata timeout", this, w)
    | AlreadyLoaded | LoadsInTime =>
        match play_with_retry env with
        | PlayStuck => None
        | PlayFailed err =>
            Some (Rejected err, this,
                  console_warn "VideoProcessor: play() failed" w)
        | Playing =>
            match checkFrame polls env 0 with
            | None => None
            | Some (vw, vh) =>
                let video := {| srcObject := Some inputStream; muted := true;
                                playsInline := true;
                                videoWidth := vw; videoHeight := vh |} in
                let this := set_inputVideo (Some video) this in
                match capture_error env with
                | Some msg =>
                    Some (Rejected ("Failed to capture canvas stream: " +:+ msg),
                          this, w)
                | None =>
                    let '(out, w) := captureStream (safeFps fps) w in
                    let this := set_outputStream (Some out) this in
                    let audioTracks := getAudioTracks w inputStream in
                    let w := foldl (forward_audio out) w audioTracks in
                    let this := set_isProcessing true this in
                    let '(this, w) := processFrame fitMode this w in
                    Some (Resolved out, this, w)
                end
            end
        end
    end.

(** [stop()]. *)
Definition stop (this : Processor) (w : World) : Processor * World :=
  let this := set_isProcessing false this in
  let '(this, w) :=
    match animationId this with
    | Some id =>
        if Nat.eqb id 0 then (this, w)
        else (set_animationId None this, cancelAnimationFrame id w)
    | None => (this, w)
    end in
  let this :=
    match inputVideo this with
    | Some _ => set_inputVideo None this
    | None => this
    end in
  match outputStream this with
  | Some out =>
      (set_outputStream None this, foldl track_stop w (getTracks w out))
  | None => (this, w)
  end.

(** The browser runs the next pending animation frame: the callback
    [() => this.processFrame(fitMode)]. *)
Definition run_frame (this : Processor) (w : World) : Processor * World :=
  match frame_requests w with
  | [] => (this, w)
  | (id, fitMode) :: rest =>
      processFrame fitMode this (cancelAnimationFrame id w)
  end.

End VideoProcessor.

Import VideoProcessor.

(** ** storage.js *)

Module Storage.

Record Blob := {
  blob_bytes : list Byte.byte;
  blob_type : string
}.

Definition blob_size (b : Blob) : Z := Z.of_nat (length (blob_bytes b)).

(** The values the callers put in [metadata] ([source], [aspect],
    [duration]). *)
Inductive MetaValue :=
  | MetaString (s : string)
  | MetaNumber (n : Z).

(** The [metadata] argument of [saveGalleryItem].  Its properties are
    spread into the record last, so that one named as a field of the
    record replaces that field.  Such a property is taken to hold a
    value of the kind the field holds otherwise: a string for [id] and
    [type], an integer for [size] and [timestamp], a Blob for [blob].
    [properties] are the ones under other names. *)
Record Metadata := {
  meta_id : option string;
  meta_blob : option Blob;
  meta_type : option string;
  meta_size : option Z;
  meta_timestamp : option Z;
  properties : list (string * MetaValue)
}.

(** A [metadata] that names none of the fields of the record, as at
    every call site. *)
Definition plain (properties : list (string * MetaValue)) : Metadata :=
  {| meta_id := None; meta_blob := None; meta_type := None;
     meta_size := None; meta_timestamp := None; properties := properties |}.

(** A stored record.  [timestamp] is the integer [Date.now()] returned;
    [extra] holds the properties of [metadata] under other names than
    those of the five fields. *)
Record GalleryItem := {
  id : string;
  blob : Blob;
  type : string;
  size : Z;
  timestamp : Z;
  extra : list (string * MetaValue)
}.

(** The object store 'gallery', keyed by the key path 'id'. *)
Definition Store := gmap string GalleryItem.

(** How IndexedDB behaves during one call. *)
Record Idb := {
  open_error : option string;          (* indexedDB.open fires onerror *)
  transaction_error : option string;   (* db.transaction, objectStore or index throws *)
  request_error : option string        (* the request fires onerror *)
}.

Definition healthy : Idb :=
  {| open_error := None; transaction_error := None; request_error := None |}.

(** *** [try] blocks of [async] functions

    A [try] block either throws, and its [catch] clause runs, or
    executes a [return]; what is returned may be a promise that is
    still pending, and when that promise rejects later the [catch]
    clause is no longer in play.  An [await]ed promise that rejects
    throws inside the block. *)
Inductive Completion (A : Type) :=
  | Throws (err : string)
  | Returns (p : Promise A).
Arguments Throws {A} err.
Arguments Returns {A} p.

Definition Block (A : Type) := Store -> Completion A * Store.

Definition await {A B} (op : Store -> Promise A * Store)
    (k : A -> Block B) : Block B :=
  fun db =>
    match op db with
    | (Resolved a, db') => k a db'
    | (Rejected err, db') => (Throws err, db')
    end.

Definition throwing {A} (err : option string) (k : Block A) : Block A :=
  fun db =>
    match err with
    | Some e => (Throws e, db)
    | None => k db
    end.

Definition return_promise {A} (op : Store -> Promise A * Store) : Block A :=
  fun db => let '(p, db') := op db in (Returns p, db').

Definition return_value {A} (a : A) : Block A :=
  fun db => (Returns (Resolved a), db).

Definition try_catch {A} (body : Block A) (handler : string -> Promise A)
    (db : Store) : Promise A * Store :=
  match body db with
  | (Throws err, db') => (handler err, db')
  | (Returns p, db') => (p, db')
  end.

(** *** IndexedDB requests *)

Definition initDB (env : Idb) (db : Store) : Promise unit * Store :=
  match open_error env with
  | Some err => (Rejected err, db)
  | None => (Resolved tt, db)
  end.

(** [store.add(item)]: fails when the key is taken. *)
Definition store_add (env : Idb) (item : GalleryItem) (db : Store)
    : Promise string * Store :=
  match request_error env with
  | Some err => (Rejected err, db)
  | None =>
      match db !! id item with
      | Some _ => (Rejected "ConstraintError", db)
      | None => (Resolved (id item), <[id item := item]> db)
      end
  end.

Definition store_delete (env : Idb) (key : string) (db : Store)
    : Promise unit * Store :=
  match request_error env with
  | Some err => (Rejected err, db)
  | None => (Resolved tt, delete key db)
  end.

Definition store_clear (env : Idb) (db : Store) : Promise unit * Store :=
  match request_error env with
  | Some err => (Rejected err, db)
  | None => (Resolved tt, ∅)
  end.

(** [Array.prototype.sort(compare)]: a stable sort; [x] goes after [y]
    exactly when [compare(x, y) > 0]. *)
Fixpoint sort_insert {A} (compare : A -> A -> Z) (x : A) (l : list A) : list A :=
  match l with
  | [] => [x]
  | y :: l' =>
      if 0 <? compare x y then y :: sort_insert compare x l'
      else x :: l
  end.

Definition Array_sort {A} (compare : A -> A -> Z) (l : list A) : list A :=
  foldr (sort_insert compare) [] l.

(** [x] may stand before [y] in an array sorted with [compare]. *)
Definition in_order {A} (compare : A -> A -> Z) (x y : A) : Prop :=
  compare x y <= 0.

(** The order of the index 'timestamp': by timestamp, then by primary
    key. *)
Definition index_compare (a b : GalleryItem) : Z :=
  if timestamp a =? timestamp b then
    match String.compare (id a) (id b) with
    | Lt => -1
    | Eq => 0
    | Gt => 1
    end
  else timestamp a - timestamp b.

(** [index.getAll()]. *)
Definition index_getAll (env : Idb) (db : Store)
    : Promise (list GalleryItem) * Store :=
  match request_error env with
  | Some err => (Rejected err, db)
  | None => (Resolved (Array_sort index_compare (map_to_list db).*2), db)
  end.

(** *** The exported functions *)

(** The comparator of [loadGalleryItems],
    [(a, b) => b.timestamp - a.timestamp]. *)
Definition newest_first (a b : GalleryItem) : Z := timestamp b - timestamp a.

(** The object literal
    [{ id: ..., blob, type, size: blob.size, timestamp: Date.now(),
       ...metadata }]
    of [saveGalleryItem].  [now_id] and [now] are the two readings of
    [Date.now()], [random] the digits of
    [Math.random().toString(36).substring(2)]. *)
Definition new_item (now_id now : Z) (random : string)
    (blob : Blob) (type : string) (metadata : Metadata) : GalleryItem :=
  {| id := default (pretty now_id +:+ "-" +:+ random) (meta_id metadata);
     blob := default blob (meta_blob metadata);
     type := default type (meta_type metadata);
     size := default (blob_size blob) (meta_size metadata);
     timestamp := default now (meta_timestamp metadata);
     extra := properties metadata |}.

(** [saveGalleryItem(blob, type, metadata)]. *)
Definition saveGalleryItem (env : Idb) (now_id now : Z) (random : string)
    (blob : Blob) (type : string) (metadata : Metadata)
    : Store -> Promise string * Store :=
  try_catch
    (await (initDB env) (fun _ =>
     throwing (transaction_error env) (
     let item := new_item now_id now random blob type metadata in
     await (store_add env item) (fun _ =>
     return_value (id item)))))
    (fun err => Rejected err).

(** [loadGalleryItems()]. *)
Definition loadGalleryItems (env : Idb) : Store -> Promise (list GalleryItem) * Store :=
  try_catch
    (await (initDB env) (fun _ =>
     throwing (transaction_error env) (
     return_promise (fun db =>
       match index_getAll env db with
       | (Resolved result, db') =>
           (Resolved (Array_sort newest_first result), db')
       | (Rejected err, db') => (Rejected err, db')
       end))))
    (fun err => Resolved []).

(** [deleteGalleryItem(id)]. *)
Definition deleteGalleryItem (env : Idb) (key : string)
    : Store -> Promise unit * Store :=
  try_catch
    (await (initDB env) (fun _ =>
     throwing (transaction_error env) (
     return_promise (store_delete env key))))
    (fun err => Rejected err).

(** [clearGallery()]. *)
Definition clearGallery (env : Idb) : Store -> Promise unit * Store :=
  try_catch
    (await (initDB env) (fun _ =>
     throwing (transaction_error env) (
     return_promise (store_clear env))))
    (fun err => Rejected err).

End Storage.

(** ** recorder: [pickMimeType] *)

Module Recorder.

(** What [pickMimeType] asks of its argument: the results of
    [stream.getVideoTracks?.()] and [stream.getAudioTracks?.()], [None]
    when the object has no such method. *)
Record StreamView := {
  video_tracks : option (list nat);
  audio_tracks : option (list nat)
}.

Definition view (w : World) (stream : nat) : StreamView :=
  {| video_tracks := Some (getVideoTracks w stream);
     audio_tracks := Some (getAudioTracks w stream) |}.

(** [!!tracks?.length] *)
Definition has_tracks (ts : option (list nat)) : bool :=
  match ts with
  | Some (_ :: _) => true
  | _ => false
  end.

Definition videoCandidates (hasAudio : bool) : list string :=
  if hasAudio then
    ["video/webm;codecs=vp8,opus";
     "video/webm;codecs=vp9,opus";
     "video/webm;codecs=vp8";
     "video/webm;codecs=vp9";
     "video/webm";
     "video/mp4;codecs=avc1.42E01E,mp4a.40.2";
     "video/mp4"]
  else
    ["video/webm;codecs=vp8";
     "video/webm;codecs=vp9";
     "video/webm";
     "video/mp4;codecs=avc1.42E01E";
     "video/mp4"].

Definition audioCandidates : list string :=
  ["audio/webm;codecs=opus";
   "audio/webm";
   "audio/ogg;codecs=opus"].

(** [pickMimeType(stream)], given [MediaRecorder.isTypeSupported]. *)
Definition pickMimeType (isTypeSupported : string -> bool) (stream : StreamView)
    : string :=
  let hasVideo := has_tracks (video_tracks stream) in
  let hasAudio := has_tracks (audio_tracks stream) in
  let candidates :=
    if hasVideo then videoCandidates hasAudio else audioCandidates in
  match List.find isTypeSupported candidates with
  | Some type => type
  | None => ""
  end.

End Recorder.

(** ** Vocabulary of the statements

    Which audio tracks [startProcessing] forwards, and what stands for
    them in the output stream. *)

(** A track that [forward_audio] manages to add: neither [clone()] nor
    [addTrack] throws on it. *)
Definition forwards (tr : Track) : bool :=
  accepted_by_addTrack tr &&
  match clone_method tr with
  | CloneThrows => false
  | CloneSucceeds | NoCloneMethod => true
  end.

Definition forwardable (w : World) (a : nat) : bool :=
  match tracks w !! a with
  | Some tr => forwards tr
  | None => false
  end.

(** Track [c] of the world [w'] stands for the audio track [a] of [w]:
    it is a new object cloned from [a], or [a] itself when [a] has no
    [clone] method. *)
Definition forwarded_as (w w' : World) (a c : nat) : Prop :=
  exists tr, tracks w !! a = Some tr /\ kind tr = AudioKind /\
    match clone_method tr with
    | CloneSucceeds =>
        tracks w' !! c = Some (cloned a tr) /\ (length (tracks w) <= c)%nat
    | NoCloneMethod => c = a /\ tracks w' !! a = Some tr
    | CloneThrows => False
    end.

(** What the console shows for the audio tracks of the list [l] that
    could not be forwarded: one warning each. *)
Definition audio_warnings (w : World) (l : list nat) : list string :=
  (fun _ => "Failed to add audio track to processed stream:")
    <$> List.filter (fun a => negb (forwardable w a)) l.

(** The video shows a frame at the [n]-th poll. *)
Definition frame_ready (env : Platform) (n : nat) : bool :=
  nonzero (frame_size env n).1 && nonzero (frame_size env n).2.

(** The tolerance of the geometry in binary64: [2^-50], four rounding
    errors. *)
Definition tolerance : Q := 1 # 1125899906842624.

(** [a] is [b] up to the tolerance, relative to [scale]. *)
Definition within (scale a b : Q) : Prop :=
  (b - tolerance * scale <= a /\ a <= b + tolerance * scale)%Q.

(** ** Sample data

    Small worlds on which the functions are run. *)

(** A camera stream with one video and one audio track, an audio-only
    stream of the same microphone, and a platform on which the video
    delivers its first 1280x800 frame at the third poll. *)
Definition device_track (k : TrackKind) (c : CloneMethod) : Track :=
  {| kind := k; origin := FromDevice; live := true;
     clone_method := c; accepted_by_addTrack := true |}.

Definition sample_world : World :=
  {| tracks := [device_track VideoKind CloneSucceeds;
                device_track AudioKind CloneSucceeds];
     streams := [[0%nat; 1%nat]; [1%nat]];
     canvas_ops := []; frame_requests := []; frames_requested := 0;
     console := [] |}.

Definition sample_platform : Platform :=
  {| metadata := LoadsInTime; first_play := PlayResolves;
     second_play := PlayResolves;
     frame_size := fun n => if (n <? 2)%nat then (0, 0) else (1280, 800);
     capture_error := None |}.

Definition sample_options (rate : float) : Options :=
  {| width := Some 1440; height := Some 1080; fitMode := Some "cover";
     fps := Some rate |}.

(** An input whose microphone track cannot be cloned. *)
Definition fragile_world : World :=
  {| tracks := [device_track VideoKind CloneSucceeds;
                device_track AudioKind CloneThrows];
     streams := [[0%nat; 1%nat]];
     canvas_ops := []; frame_requests := []; frames_requested := 0;
     console := [] |}.

(** A gallery of two photos and a clip, used to run the storage functions. *)
Definition sample_item (key mime : string) (stamp : Z) : Storage.GalleryItem :=
  {| Storage.id := key;
     Storage.blob := {| Storage.blob_bytes := []; Storage.blob_type := mime |};
     Storage.type := mime; Storage.size := 0; Storage.timestamp := stamp;
     Storage.extra := [("source", Storage.MetaString "camera")] |}.

Definition sample_gallery : gmap string Storage.GalleryItem :=
  list_to_map
    [("1700000000000-a", sample_item "1700000000000-a" "image/jpeg" 1700000000000);
     ("1700000005000-b", sample_item "1700000005000-b" "video/webm" 1700000005000);
     ("1700000002000-c", sample_item "1700000002000-c" "image/jpeg" 1700000002000)].

(** * Further functions of the sources *)

(** The browser runs [n] pending animation frames one after another. *)
Definition run_frames (n : nat) (this : Processor) (w : World) : Processor * World :=
  Nat.iter n (fun st => run_frame st.1 st.2) (this, w).

(** ** video-processor.js: [processPhoto] *)

Module Photo.

(** The options object of [processPhoto]; [None] is [undefined]. *)
Record PhotoOptions := {
  width : option Z;
  height : option Z;
  fitMode : option string;
  quality : option float
}.

(** The canvas [processPhoto] creates: the size of its bitmap as
    [canvas.width] and [canvas.height] read, and what was drawn on it. *)
Record Canvas := {
  bitmap_width : Z;
  bitmap_height : Z;
  drawn : list CanvasOp
}.

(** [processPhoto(video, options)].  [toBlob] is
    [canvas.toBlob(callback, type, quality)] of the platform: it hands a
    blob or [null] to the callback, or throws, which rejects the promise
    it is called in. *)
Definition processPhoto
    (toBlob : Canvas -> string -> float -> Promise (option Storage.Blob))
    (video : VideoElement) (options : PhotoOptions)
    : Promise (option Storage.Blob) * Canvas :=
  let width := default 1920 (width options) in
  let height := default 1080 (height options) in
  let fitMode := default "cover" (fitMode options) in
  let quality := default 0x1.e666666666666p-1%float (quality options) in (* 0.95 *)
  let ops :=
    if nonzero (videoWidth video) && nonzero (videoHeight video) then
      let g := calculateCropResize (N:=float)
                 (of_int (videoWidth video)) (of_int (videoHeight video))
                 (of_int width) (of_int height) fitMode in
      [FillRect "#000000" 0 0 width height;
       DrawImage (srcX g) (srcY g) (srcW g) (srcH g)
                 (destX g) (destY g) (destW g) (destH g)]
    else [] in
  let canvas := {| bitmap_width := reflect_unsigned_long 300 width;
                   bitmap_height := reflect_unsigned_long 150 height;
                   drawn := ops |} in
  (toBlob canvas "image/jpeg" quality, canvas).

End Photo.

(** ** camera.js: [stopStream] and [buildConstraints] *)

Module Camera.

(** [stopStream(stream)]; [None] is a missing stream. *)
Definition stopStream (stream : option nat) (w : World) : World :=
  match stream with
  | None => w
  | Some s => foldl track_stop w (getTracks w s)
  end.

(** [s.split(c)] for a separator of one character. *)
Fixpoint split_at (c : Ascii.ascii) (s : string) : list string :=
  match s with
  | EmptyString => [EmptyString]
  | String a rest =>
      if Ascii.eqb a c then EmptyString :: split_at c rest
      else
        match split_at c rest with
        | piece :: pieces => String a piece :: pieces
        | [] => [String a EmptyString]
        end
  end.

(** The character ':'. *)
Definition colon : Ascii.ascii :=
  Eval cbv in match ":"%string with String c _ => c | EmptyString => Ascii.zero end.

(** The truth value of a string that may be [undefined]. *)
Definition nonempty (s : option string) : bool :=
  match s with
  | Some (String _ _) => true
  | _ => false
  end.

(** [x || fallback] on a number that may be [undefined]. *)
Definition number_or (x : option float) (fallback : float) : float :=
  match x with
  | Some v => if truthy v then v else fallback
  | None => fallback
  end.

(** The argument of [buildConstraints]; [None] is [undefined]. *)
Record CameraOptions := {
  withAudio : bool;
  width : option float;
  height : option float;
  fps : option float;
  aspect : option string;
  videoDeviceId : option string;
  audioDeviceId : option string
}.

(** The [video] member of the constraints; [None] is an absent
    property. *)
Record VideoConstraints := {
  facingMode : option string;
  width_ideal : float;
  height_ideal : float;
  frameRate_ideal : float;
  video_deviceId_exact : option string;
  aspectRatio_ideal : option float
}.

Record AudioConstraints := {
  echoCancellation : bool;
  noiseSuppression : bool;
  autoGainControl : bool;
  channelCount_ideal : Z;
  sampleRate_ideal : Z;
  audio_deviceId_exact : option string
}.

(** The constraints object; an [audio] of [None] is [false]. *)
Record Constraints := {
  video : VideoConstraints;
  audio : option AudioConstraints
}.

(** [buildConstraints(options)], given the conversion [Number] of
    strings to numbers. *)
Definition buildConstraints (Number : string -> float) (o : CameraOptions)
    : Constraints :=
  let aspect := default "native" (aspect o) in
  let idealW := number_or (width o) 1920 in
  let idealH := number_or (height o) 1080 in
  let idealFps := number_or (fps o) 30 in
  let by_device := nonempty (videoDeviceId o) in
  let ratio :=
    if nonempty (Some aspect) && negb (String.eqb aspect "native") then
      match List.map Number (split_at colon aspect) with
      | w :: h :: _ =>
          if truthy w && truthy h then Some (PrimFloat.div w h) else None
      | _ => None
      end
    else None in
  let audio :=
    if withAudio o then
      Some {| echoCancellation := true; noiseSuppression := true;
              autoGainControl := true; channelCount_ideal := 2;
              sampleRate_ideal := 48000;
              audio_deviceId_exact :=
                if nonempty (audioDeviceId o) then audioDeviceId o else None |}
    else None in
  {| video :=
       {| facingMode := if by_device then None else Some "user";
          width_ideal := idealW; height_ideal := idealH;
          frameRate_ideal := idealFps;
          video_deviceId_exact := if by_device then videoDeviceId o else None;
          aspectRatio_ideal := ratio |};
     audio := audio |}.

End Camera.

(** ** storage.js: [getStorageStats] *)

Module StorageStats.
Import Storage.

(** The object [getStorageStats] resolves with.  [totalSize] is a sum
    of numbers, computed in binary64. *)
Record Stats := {
  totalItems : Z;
  totalSize : float;
  totalSizeMB : string;
  counts : gmap string Z
}.

(** [x || 0] on an integer that may be [undefined]. *)
Definition or_zero (x : option Z) : Z :=
  match x with
  | Some v => if v =? 0 then 0 else v
  | None => 0
  end.

(** The category the second [reduce] files an item under. *)
Definition category (type : string) : string :=
  if String.prefix "video/" type then "video"
  else if String.prefix "audio/" type then "audio"
  else "image".

Definition count_item (acc : gmap string Z) (item : GalleryItem) : gmap string Z :=
  <[category (type item) := or_zero (acc !! category (type item)) + 1]> acc.

(** Two decimal digits, padded with a zero. *)
Definition two_digits (n : Z) : string :=
  if n <? 10 then "0" +:+ pretty n else pretty n.

(** The quotient [num / den] of two non-negative integers with two
    decimals: the nearest multiple of 0.01, the larger one on a tie. *)
Definition fixed2 (num den : Z) : string :=
  let hundredths := (200 * num + den) / (2 * den) in
  pretty (hundredths / 100) +:+ "." +:+ two_digits (hundredths mod 100).

(** [ToString] of a number [x] of integer value [X >= 10^21], which
    has [d] decimal digits: the shortest digits [s] that denote [x],
    and among those of one length the nearest to [X]. *)
Definition shortest_with (x : float) (X : Z) (d k : nat) : option Z :=
  let p := 10 ^ Z.of_nat (d - k) in
  let lo := X / p in
  let hi := lo + 1 in
  let ok s := PrimFloat.eqb (float_of_Z (s * p)) x && (s <? 10 ^ Z.of_nat k) in
  match ok lo, ok hi with
  | true, true =>
      let dlo := X - lo * p in
      let dhi := hi * p - X in
      Some (if dlo <? dhi then lo
            else if dhi <? dlo then hi
            else if Z.even lo then lo else hi)
  | true, false => Some lo
  | false, true => Some hi
  | false, false => None
  end.

Fixpoint shortest_from (x : float) (X : Z) (d k fuel : nat) : Z :=
  match fuel with
  | O => X / 10 ^ Z.of_nat (d - k)
  | S fuel' =>
      match shortest_with x X d k with
      | Some s => s
      | None => shortest_from x X d (S k) fuel'
      end
  end.

(** The digits [s] written as [d.ddd] followed by the exponent. *)
Definition scientific (s : Z) (exponent : nat) : string :=
  match pretty s with
  | String c "" => String c "" +:+ "e+" +:+ pretty exponent
  | String c rest => String c "." +:+ rest +:+ "e+" +:+ pretty exponent
  | "" => ""
  end.

Definition toString_large (x : float) (X : Z) : string :=
  let d := String.length (pretty X) in
  if PrimFloat.eqb (float_of_Z (10 ^ Z.of_nat d)) x then "1e+" +:+ pretty d
  else scientific (shortest_from x X d 1 17) (d - 1).

(** [x.toFixed(2)]: two decimals for a number below [10^21] in
    magnitude, with the sign of a negative number in front; [ToString]
    of the others. *)
Definition toFixed2 (x : float) : string :=
  match Prim2SF x with
  | S754_nan => "NaN"
  | S754_infinity s => if s then "-Infinity" else "Infinity"
  | S754_zero _ => "0.00"
  | S754_finite s m e =>
      (if s then "-" else "") +:+
      (if 0 <=? e then
         let X := Z.pos m * 2 ^ e in
         if X <? 10 ^ 21 then fixed2 X 1
         else toString_large (PrimFloat.abs x) X
       else fixed2 (Z.pos m) (2 ^ (- e)))
  end.

(** What the [catch] clause returns. *)
Definition no_stats : Stats :=
  {| totalItems := 0; totalSize := 0; totalSizeMB := "0.00"; counts := ∅ |}.

(** The first [reduce]: [sum + (item.size || 0)], from 0. *)
Definition add_size (sum : float) (item : GalleryItem) : float :=
  (sum + float_of_Z (or_zero (Some (size item))))%float.

(** [getStorageStats()]. *)
Definition getStorageStats (env : Idb) : Store -> Promise Stats * Store :=
  try_catch
    (await (loadGalleryItems env) (fun items =>
     let totalSize := foldl add_size 0%float items in
     let counts := foldl count_item ∅ items in
     return_value
       {| totalItems := Z.of_nat (length items);
          totalSize := totalSize;
          totalSizeMB := toFixed2 (totalSize / (1024 * 1024))%float;
          counts := counts |}))
    (fun err => Resolved no_stats).

End StorageStats.

(** ** metering.js: [RecordingTimer] *)

Module Metering.

(** The fields of a [RecordingTimer]; [None] is [null].  Times are the
    integers [Date.now()] returns, [onUpdate] names the callback. *)
Record RecordingTimer := {
  startTime : option Z;
  intervalId : option nat;
  onUpdate : option nat
}.

(** [constructor()]. *)
Definition new_timer : RecordingTimer :=
  {| startTime := None; intervalId := None; onUpdate := None |}.

(** [start(callback)] at the time [now]; [handle] is what [setInterval]
    returns, and [running] the handles of the intervals that are set. *)
Definition start (callback : nat) (now : Z) (handle : nat)
    (this : RecordingTimer) (running : list nat) : RecordingTimer * list nat :=
  ({| startTime := Some now; intervalId := Some handle;
      onUpdate := Some callback |},
   running ++ [handle]).

(** [stop()]. *)
Definition stop (this : RecordingTimer) (running : list nat)
    : RecordingTimer * list nat :=
  match intervalId this with
  | Some (S _ as handle) =>
      ({| startTime := None; intervalId := None; onUpdate := None |},
       List.filter (fun h => negb (Nat.eqb h handle)) running)
  | _ =>
      ({| startTime := None; intervalId := intervalId this; onUpdate := None |},
       running)
  end.

(** [getElapsed()] at the time [now]. *)
Definition getElapsed (now : Z) (this : RecordingTimer) : Z :=
  match startTime this with
  | Some t => if t =? 0 then 0 else now - t
  | None => 0
  end.

(** [n.toString().padStart(2, '0')] for an integer [n]. *)
Definition padStart2 (n : Z) : string :=
  if (String.length (pretty n) <? 2)%nat then "0" +:+ pretty n else pretty n.

(** The text the callback of the interval makes of [elapsed]
    milliseconds. *)
Definition timeStr (elapsed : Z) : string :=
  let seconds := elapsed / 1000 in
  let minutes := seconds / 60 in
  let displaySeconds := Z.rem seconds 60 in
  padStart2 minutes +:+ ":" +:+ padStart2 displaySeconds.

(** The callback of the interval fires at the time [now]: the call of
    [onUpdate] it makes, if any.  [null] counts as 0 in the
    subtraction. *)
Definition tick (now : Z) (this : RecordingTimer) : option (nat * string * Z) :=
  let elapsed := now - default 0 (startTime this) in
  match onUpdate this with
  | Some callback => Some (callback, timeStr elapsed, elapsed)
  | None => None
  end.

End Metering.

(** ** ui.js: [getFileExtension] *)

Module Ui.

(** [s.includes(needle)]. *)
Fixpoint includes (needle s : string) : bool :=
  String.prefix needle s ||
  match s with
  | EmptyString => false
  | String _ rest => includes needle rest
  end.

(** [getFileExtension(mimeType)]. *)
Definition getFileExtension (mimeType : string) : string :=
  if includes "webm" mimeType then "webm"
  else if includes "mp4" mimeType then "mp4"
  else if includes "ogg" mimeType then "ogg"
  else if includes "wav" mimeType then "wav"
  else if includes "jpeg" mimeType then "jpg"
  else if includes "png" mimeType then "png"
  else if includes "webp" mimeType then "webp"
  else "file".

End Ui.

(** ** Vocabulary of the further statements *)

(** The frame loop of a processor is running: it is processing a video
    and the one animation frame that is pending is the one it asked for,
    to be drawn with [fitMode]. *)
Definition loop_running (fitMode : string) (this : Processor) (w : World) : Prop :=
  isProcessing this = true /\
  exists (video : VideoElement) (id : nat),
    inputVideo this = Some video /\
    nonzero (videoWidth video) && nonzero (videoHeight video) = true /\
    animationId this = Some (S id) /\
    frame_requests w = [(S id, fitMode)].

(** An audio track of the input that the output stream shares with it:
    it was added as it is, for want of a [clone] method. *)
Definition shared_with_output (w : World) (inputStream t : nat) : bool :=
  bool_decide (t ∈ getAudioTracks w inputStream) &&
  match tracks w !! t with
  | Some tr =>
      accepted_by_addTrack tr &&
      match clone_method tr with
      | NoCloneMethod => true
      | _ => false
      end
  | None => false
  end.

(** Every record is stored under its own [id], as records written
    through the key path are. *)
Definition well_keyed (db : gmap string Storage.GalleryItem) : Prop :=
  forall (key : string) (item : Storage.GalleryItem),
    db !! key = Some item -> Storage.id item = key.

(** How many of the items fall in a category of the statistics. *)
Definition in_category (c : string) (items : list Storage.GalleryItem) : Z :=
  Z.of_nat (length (List.filter
    (fun item => String.eqb (StorageStats.category (Storage.type item)) c) items)).

(** ** Further sample data *)

(** A microphone track of a platform without [clone]. *)
Definition legacy_world : World :=
  {| tracks := [device_track VideoKind CloneSucceeds;
                device_track AudioKind NoCloneMethod];
     streams := [[0%nat; 1%nat]];
     canvas_ops := []; frame_requests := []; frames_requested := 0;
     console := [] |}.

(** A platform whose video never shows a frame. *)
Definition frameless_platform : Platform :=
  {| metadata := LoadsInTime; first_play := PlayResolves;
     second_play := PlayResolves;
     frame_size := fun _ => (0, 0); capture_error := None |}.

(** A gallery whose records have sizes: 1.5 MiB, 3 MiB and 512 KiB. *)
Definition sized_item (key mime : string) (stamp bytes : Z) : Storage.GalleryItem :=
  {| Storage.id := key;
     Storage.blob := {| Storage.blob_bytes := []; Storage.blob_type := mime |};
     Storage.type := mime; Storage.size := bytes; Storage.timestamp := stamp;
     Storage.extra := [] |}.

Definition sized_gallery : gmap string Storage.GalleryItem :=
  list_to_map
    [("1700000000000-a", sized_item "1700000000000-a" "image/jpeg" 1700000000000 1572864);
     ("1700000005000-b", sized_item "1700000005000-b" "video/webm" 1700000005000 3145728);
     ("1700000002000-c", sized_item "1700000002000-c" "audio/webm" 1700000002000 524288)].

Definition sample_blob : Storage.Blob :=
  {| Storage.blob_bytes := [Byte.x78; Byte.x79; Byte.x7a];
     Storage.blob_type := "image/jpeg" |}.

(** The record a save of [sample_blob] at 1700000009000 makes. *)
Definition saved_item : Storage.GalleryItem :=
  {| Storage.id := "1700000009000-k3x"; Storage.blob := sample_blob;
     Storage.type := "image/jpeg"; Storage.size := 3;
     Storage.timestamp := 1700000009001; Storage.extra := [] |}.

(** * Properties *)

(** ** Comparisons of binary64 values *)

Section FloatOrder.

Lemma SFcompare_antisym (x y : spec_float) :
  SFcompare y x = option_map CompOpp (SFcompare x y).
Proof.
  destruct x as [sx | sx | | sx mx ex], y as [sy | sy | | sy my ey];
    try destruct sx; try destruct sy; cbn; try reflexivity.
  all: rewrite (Z.compare_antisym ex ey).
  all: pose proof (Pos.compare_cont_antisym mx my Eq) as Hm; cbn in Hm.
  all: rewrite <- Hm.
  all: destruct (ex ?= ey); cbn; try reflexivity.
  all: destruct (Pos.compare_cont Eq mx my); reflexivity.
Qed.

Lemma SFcompare_refl (x : spec_float) :
  x <> S754_nan -> SFcompare x x = Some Eq.
Proof.
  destruct x as [s | s | | s m e]; try destruct s; cbn; try congruence.
  all: rewrite Z.compare_refl.
  all: change (Pos.compare_cont Eq m m) with (m ?= m)%positive.
  all: rewrite Pos.compare_refl; reflexivity.
Qed.

Lemma SFcompare_None (x y : spec_float) :
  SFcompare x y = None -> x = S754_nan \/ y = S754_nan.
Proof.
  destruct x as [sx | sx | | sx mx ex], y as [sy | sy | | sy my ey];
    cbn; auto; discriminate.
Qed.

(** Equal values are the same value, zeros of either sign apart. *)
Lemma SFcompare_Eq (x y : spec_float) :
  SFcompare x y = Some Eq ->
  x = y \/ (exists sx sy, x = S754_zero sx /\ y = S754_zero sy).
Proof.
  destruct x as [sx | sx | | sx mx ex], y as [sy | sy | | sy my ey];
    try destruct sx; try destruct sy; cbn; try discriminate; eauto.
  all: destruct (Z.compare_spec ex ey) as [-> | |]; try discriminate.
  all: change (Pos.compare_cont Eq mx my) with (mx ?= my)%positive.
  all: destruct (Pos.compare_spec mx my) as [-> | |]; try discriminate; auto.
Qed.

Lemma SFcompare_Lt_trans (x y z : spec_float) :
  SFcompare x y = Some Lt -> SFcompare y z = Some Lt -> SFcompare x z = Some Lt.
Proof.
  destruct x as [sx | sx | | sx mx ex], y as [sy | sy | | sy my ey],
    z as [sz | sz | | sz mz ez];
    try destruct sx; try destruct sy; try destruct sz;
    cbn; try discriminate; try reflexivity.
  all: change (Pos.compare_cont Eq mx my) with (mx ?= my)%positive.
  all: change (Pos.compare_cont Eq my mz) with (my ?= mz)%positive.
  all: change (Pos.compare_cont Eq mx mz) with (mx ?= mz)%positive.
  all: destruct (Z.compare_spec ex ey); try discriminate;
       destruct (Z.compare_spec ey ez); try discriminate;
       destruct (Z.compare_spec ex ez); try reflexivity; try lia.
  all: destruct (Pos.compare_spec mx my); try discriminate;
       destruct (Pos.compare_spec my mz); try discriminate;
       destruct (Pos.compare_spec mx mz); try reflexivity; try lia.
Qed.

Lemma ltb_fcompare (x y : float) :
  PrimFloat.ltb x y = true <-> fcompare x y = Some Lt.
Proof.
  rewrite FloatAxioms.ltb_spec. unfold SFltb, fcompare.
  destruct (SFcompare _ _) as [[| |] |]; split; congruence.
Qed.

Lemma leb_fcompare (x y : float) :
  PrimFloat.leb x y = true <-> fcompare x y = Some Lt \/ fcompare x y = Some Eq.
Proof.
  rewrite FloatAxioms.leb_spec. unfold SFleb, fcompare.
  destruct (SFcompare _ _) as [[| |] |]; split; intros; auto; try discriminate.
  all: destruct H; discriminate.
Qed.

Lemma fcompare_swap (x y : float) :
  fcompare y x = option_map CompOpp (fcompare x y).
Proof. apply SFcompare_antisym. Qed.

Lemma is_nan_fcompare (x : float) :
  PrimFloat.is_nan x = false <-> Prim2SF x <> S754_nan.
Proof.
  unfold PrimFloat.is_nan. rewrite FloatAxioms.eqb_spec. unfold SFeqb. split.
  - intros Heq Hnan. rewrite Hnan in Heq. discriminate.
  - intros Hnan. rewrite (SFcompare_refl _ Hnan). reflexivity.
Qed.

(** A value that compares with another is not [NaN]. *)
Lemma fcompare_Some_not_nan (x y : float) (c : comparison) :
  fcompare x y = Some c ->
  PrimFloat.is_nan x = false /\ PrimFloat.is_nan y = false.
Proof.
  unfold fcompare. intros Hc.
  split; apply is_nan_fcompare; intros Hnan; rewrite Hnan in Hc.
  - discriminate.
  - destruct (Prim2SF x); discriminate.
Qed.

Lemma fcompare_total (x y : float) :
  PrimFloat.is_nan x = false -> PrimFloat.is_nan y = false ->
  exists c, fcompare x y = Some c.
Proof.
  intros Hx%is_nan_fcompare Hy%is_nan_fcompare. unfold fcompare.
  destruct (SFcompare _ _) as [c |] eqn:Hc; [eauto |].
  apply SFcompare_None in Hc. tauto.
Qed.

(** Equal to a non-zero value means being that value. *)
Lemma fcompare_Eq_nonzero (x y : float) :
  fcompare x y = Some Eq -> PrimFloat.is_zero y = false -> x = y.
Proof.
  unfold fcompare. intros Heq Hnz.
  destruct (SFcompare_Eq _ _ Heq) as [Hsame | (sx & sy & Hx & Hy)].
  - apply Prim2SF_inj, Hsame.
  - exfalso. unfold PrimFloat.is_zero in Hnz. rewrite FloatAxioms.eqb_spec, Hy in Hnz.
    discriminate.
Qed.

End FloatOrder.

(** ** The frame rate handed to [captureStream] *)

Section SafeFps.
Local Open Scope float_scope.

Lemma ltb_leb (x y : float) : (x <? y) = true -> (x <=? y) = true.
Proof. rewrite ltb_fcompare, leb_fcompare. auto. Qed.

Lemma ltb_asym (x y : float) : (x <? y) = true -> (y <? x) = false.
Proof.
  rewrite ltb_fcompare. intros Hlt.
  destruct (y <? x) eqn:Hyx; [| reflexivity].
  apply ltb_fcompare in Hyx. rewrite fcompare_swap, Hlt in Hyx. discriminate.
Qed.

Lemma leb_not_gt (x y : float) : (x <=? y) = true -> (y <? x) = false.
Proof.
  rewrite leb_fcompare. intros Hle.
  destruct (y <? x) eqn:Hyx; [| reflexivity].
  apply ltb_fcompare in Hyx. rewrite fcompare_swap in Hyx.
  destruct Hle as [Hc | Hc]; rewrite Hc in Hyx; discriminate.
Qed.

Lemma leb_not_nan (x y : float) :
  (x <=? y) = true -> PrimFloat.is_nan x = false /\ PrimFloat.is_nan y = false.
Proof.
  rewrite leb_fcompare. intros [Hc | Hc]; eapply fcompare_Some_not_nan, Hc.
Qed.

(** Neither below nor above, and comparable: equal. *)
Lemma neither_lt_Eq (x y : float) :
  PrimFloat.is_nan x = false -> PrimFloat.is_nan y = false ->
  (x <? y) = false -> (y <? x) = false -> fcompare x y = Some Eq.
Proof.
  intros Hx Hy Hxy Hyx.
  destruct (fcompare_total x y Hx Hy) as [[| |] Hc]; [exact Hc | |].
  - apply ltb_fcompare in Hc. congruence.
  - assert (Hs : fcompare y x = Some Lt) by (rewrite fcompare_swap, Hc; reflexivity).
    apply ltb_fcompare in Hs. congruence.
Qed.

(** A number that is at least 1 is truthy. *)
Lemma leb_one_truthy (x : float) : (1 <=? x) = true -> truthy x = true.
Proof.
  intros Hle. destruct (leb_not_nan _ _ Hle) as [_ Hnan].
  unfold truthy. rewrite Hnan. cbn [orb].
  destruct (PrimFloat.is_zero x) eqn:Hz; [exfalso | reflexivity].
  unfold PrimFloat.is_zero in Hz. rewrite FloatAxioms.eqb_spec in Hz.
  unfold SFeqb in Hz.
  destruct (SFcompare (Prim2SF x) (Prim2SF zero)) as [[| |] |] eqn:Hc;
    try discriminate.
  assert (Hzero : exists s, Prim2SF x = S754_zero s).
  { destruct (SFcompare_Eq _ _ Hc) as [Hsame | (sx & _ & Hx & _)].
    - exists false. rewrite Hsame. reflexivity.
    - exists sx. exact Hx. }
  destruct Hzero as [s Hs].
  apply leb_fcompare in Hle. unfold fcompare in Hle. rewrite Hs in Hle.
  vm_compute in Hle. destruct Hle; discriminate.
Qed.

Lemma truthy_not_nan (x : float) : truthy x = true -> PrimFloat.is_nan x = false.
Proof.
  unfold truthy. destruct (PrimFloat.is_nan x); [discriminate | reflexivity].
Qed.

Lemma truthy_not_zero (x : float) : truthy x = true -> PrimFloat.is_zero x = false.
Proof.
  unfold truthy. destruct (PrimFloat.is_nan x), (PrimFloat.is_zero x);
    (discriminate || reflexivity).
Qed.

Lemma Math_max_one (x : float) :
  PrimFloat.is_nan x = false ->
  ((1 <? x) = true /\ Math_max 1 x = x) \/
  ((1 <? x) = false /\ Math_max 1 x = 1).
Proof.
  intros Hnan. unfold Math_max.
  change (PrimFloat.is_nan 1) with false. rewrite Hnan. cbn [orb].
  destruct (1 <? x); [left; auto | right].
  split; [reflexivity |].
  destruct (x <? 1); [reflexivity |].
  change (get_sign 1) with false. reflexivity.
Qed.

Lemma Math_min_sixty (m : float) :
  PrimFloat.is_nan m = false ->
  ((m <? 60) = true /\ Math_min m 60 = m) \/
  ((60 <? m) = true /\ Math_min m 60 = 60) \/
  (fcompare m 60 = Some Eq /\ (Math_min m 60 = m \/ Math_min m 60 = 60)).
Proof.
  intros Hnan. unfold Math_min.
  change (PrimFloat.is_nan 60) with false. rewrite Hnan. cbn [orb].
  destruct (m <? 60) eqn:Hlo; [left; auto | right].
  destruct (60 <? m) eqn:Hhi; [left; auto | right].
  split; [apply neither_lt_Eq; auto |].
  destruct (get_sign m); auto.
Qed.

(** A frame rate between 1 and 60 is passed on as it is. *)
Lemma safeFps_in_range (rate : float) :
  (1 <=? rate) = true -> (rate <=? 60) = true -> safeFps rate = rate.
Proof.
  intros Hlo Hhi. unfold safeFps.
  pose proof (leb_one_truthy rate Hlo) as Htruthy. rewrite Htruthy.
  pose proof (truthy_not_nan rate Htruthy) as Hnan.
  assert (Hmax : Math_max 1 rate = rate).
  { destruct (Math_max_one rate Hnan) as [[_ ->] | [Hnlt ->]]; [reflexivity |].
    apply fcompare_Eq_nonzero; [| apply truthy_not_zero, Htruthy].
    apply neither_lt_Eq; auto. apply leb_not_gt, Hlo. }
  rewrite Hmax.
  destruct (Math_min_sixty rate Hnan) as [[_ ->] | [[Hgt _] | [Heq Hmin]]].
  - reflexivity.
  - rewrite (leb_not_gt _ _ Hhi) in Hgt. discriminate.
  - apply fcompare_Eq_nonzero in Heq; [| reflexivity].
    destruct Hmin as [-> | ->]; [reflexivity | symmetry; exact Heq].
Qed.

(** Whatever is asked for, the rate passed on is between 1 and 60. *)
Lemma safeFps_bounds (rate : float) :
  (1 <=? safeFps rate) = true /\ (safeFps rate <=? 60) = true.
Proof.
  unfold safeFps.
  set (x := if truthy rate then rate else 30).
  assert (Hnan : PrimFloat.is_nan x = false).
  { subst x. destruct (truthy rate) eqn:Ht; [apply truthy_not_nan, Ht | reflexivity]. }
  destruct (Math_max_one x Hnan) as [[Hlt ->] | [_ ->]].
  - destruct (Math_min_sixty x Hnan) as [[Hlo ->] | [[_ ->] | [Heq [-> | ->]]]].
    + split; apply ltb_leb; assumption.
    + split; reflexivity.
    + split; [apply ltb_leb, Hlt | apply leb_fcompare; auto].
    + split; reflexivity.
  - split; reflexivity.
Qed.

(** A rate above 60 becomes 60. *)
Lemma safeFps_above (rate : float) : (60 <? rate) = true -> safeFps rate = 60.
Proof.
  intros Hgt. unfold safeFps.
  assert (Hone : (1 <? rate) = true).
  { apply ltb_fcompare. apply ltb_fcompare in Hgt.
    apply (SFcompare_Lt_trans _ (Prim2SF 60)); [reflexivity | exact Hgt]. }
  rewrite (leb_one_truthy rate (ltb_leb _ _ Hone)).
  destruct (fcompare_Some_not_nan 60 rate Lt) as [_ Hnan];
    [apply ltb_fcompare, Hgt |].
  destruct (Math_max_one rate Hnan) as [[_ ->] | [Hn _]]; [| congruence].
  destruct (Math_min_sixty rate Hnan) as [[Hlo _] | [[_ ->] | [Heq _]]].
  - rewrite (ltb_asym _ _ Hgt) in Hlo. discriminate.
  - reflexivity.
  - apply ltb_fcompare in Hgt. rewrite fcompare_swap, Heq in Hgt. discriminate.
Qed.

(** A non-zero rate below 1 becomes 1. *)
Lemma safeFps_below (rate : float) :
  truthy rate = true -> (rate <? 1) = true -> safeFps rate = 1.
Proof.
  intros Htruthy Hlt. unfold safeFps. rewrite Htruthy.
  destruct (Math_max_one rate (truthy_not_nan rate Htruthy)) as [[Hgt _] | [_ ->]].
  - rewrite (ltb_asym _ _ Hlt) in Hgt. discriminate.
  - reflexivity.
Qed.

(** A rate that is missing, zero or [NaN] becomes 30. *)
Lemma safeFps_falsy (rate : float) : truthy rate = false -> safeFps rate = 30.
Proof. intros Hf. unfold safeFps. rewrite Hf. reflexivity. Qed.

End SafeFps.

(** ** Geometry of [calculateCropResize] *)

Section GeometryFacts.
Context {N : Type} `{JsArith N}.

(** In every arithmetic, 'cover' leaves the destination rectangle at
    its default: the whole output. *)
Lemma cover_dest_default (inW inH outW outH : N) :
  let r := calculateCropResize inW inH outW outH "cover" in
  destX r = of_int 0 /\ destY r = of_int 0 /\
  destW r = outW /\ destH r = outH.
Proof.
  cbv zeta. unfold calculateCropResize.
  repeat case_decide; try done.
  destruct (gt _ _); cbn; auto.
Qed.

(** In every arithmetic, 'contain' leaves the source rectangle at its
    default: the whole input frame. *)
Lemma contain_src_default (inW inH outW outH : N) :
  let r := calculateCropResize inW inH outW outH "contain" in
  srcX r = of_int 0 /\ srcY r = of_int 0 /\
  srcW r = inW /\ srcH r = inH.
Proof.
  cbv zeta. unfold calculateCropResize.
  repeat case_decide; try done.
  destruct (gt _ _); cbn; auto.
Qed.

End GeometryFacts.

Section ExactGeometry.
Local Open Scope Q_scope.

Lemma gt_exact_true (a b : Q) : gt a b = true -> b < a.
Proof.
  cbn. intros Hgt. apply Qnot_le_lt. intros Hle.
  apply Qle_bool_iff in Hle. rewrite Hle in Hgt. discriminate.
Qed.

Lemma gt_exact_false (a b : Q) : gt a b = false -> a <= b.
Proof.
  cbn. intros Hgt. apply Qle_bool_iff.
  destruct (Qle_bool a b); [reflexivity | discriminate].
Qed.

Lemma Qdiv_pos (a b : Q) : 0 < a -> 0 < b -> 0 < a / b.
Proof.
  intros Ha Hb. apply Qlt_shift_div_l; [exact Hb | lra].
Qed.

(** Scaling a ratio back by its denominator. *)
Lemma Qmult_ratio (a b : Q) : 0 < b -> b * (a / b) == a.
Proof. intros Hb. field. lra. Qed.

(** The half of the leftover on either side centres the kept part. *)
Lemma centred_offset (full part : Q) :
  (full - part) / 2 + part / 2 == full / 2.
Proof. field. Qed.

Lemma centred_fits (full part : Q) :
  part <= full ->
  0 <= (full - part) / 2 /\ (full - part) / 2 + part <= full.
Proof.
  intros Hle. split.
  - apply Qle_shift_div_l; lra.
  - assert (E : (full - part) / 2 + part == (full + part) / 2) by field.
    rewrite E. apply Qle_shift_div_r; lra.
Qed.

End ExactGeometry.

Section CoverExact.
Local Open Scope Q_scope.
Variables inW inH outW outH : Q.
Hypothesis inW_pos : 0 < inW.
Hypothesis inH_pos : 0 < inH.
Hypothesis outW_pos : 0 < outW.
Hypothesis outH_pos : 0 < outH.

Let r := calculateCropResize inW inH outW outH "cover".

Lemma cover_exact_cases :
  (outW / outH < inW / inH /\
   srcW r = inH * (outW / outH) /\ srcX r = (inW - srcW r) / 2 /\
   srcH r = inH /\ srcY r = 0) \/
  (inW / inH <= outW / outH /\
   srcH r = inW / (outW / outH) /\ srcY r = (inH - srcH r) / 2 /\
   srcW r = inW /\ srcX r = 0).
Proof.
  subst r. unfold calculateCropResize.
  repeat case_decide; try done.
  destruct (gt (div inW inH) (div outW outH)) eqn:Hgt; cbn [srcX srcY srcW srcH].
  - left. apply gt_exact_true in Hgt. auto.
  - right. apply gt_exact_false in Hgt. auto.
Qed.

(** With exact arithmetic the crop of 'cover' is a centred sub-rectangle
    of the input frame with the aspect ratio of the output. *)
Lemma cover_exact_geometry :
  (0 <= srcX r /\ 0 <= srcY r /\ 0 < srcW r /\ 0 < srcH r /\
   srcX r + srcW r <= inW /\ srcY r + srcH r <= inH) /\
  (srcX r + srcW r / 2 == inW / 2 /\ srcY r + srcH r / 2 == inH / 2) /\
  srcW r / srcH r == outW / outH.
Proof.
  pose proof (Qdiv_pos outW outH outW_pos outH_pos) as Ha.
  pose proof (Qmult_ratio inW inH inH_pos) as Hb.
  destruct cover_exact_cases
    as [(Hlt & EW & EX & EH & EY) | (Hle & EH & EY & EW & EX)].
  - (* the sides are cropped *)
    assert (Hfit : srcW r <= inW).
    { rewrite EW, <- Hb. apply Qlt_le_weak.
      apply Qmult_lt_l; [exact inH_pos | exact Hlt]. }
    assert (Hpos : 0 < srcW r).
    { rewrite EW. apply Qmult_lt_0_compat; assumption. }
    destruct (centred_fits inW (srcW r) Hfit) as [Hx0 Hx1].
    rewrite EX, EY, EH. repeat split; try assumption; try lra.
    + apply centred_offset.
    + rewrite EW. field. split; lra.
  - (* top and bottom are cropped *)
    assert (Hfit : srcH r <= inH).
    { rewrite EH. apply Qle_shift_div_r; [exact Ha |].
      rewrite <- Hb at 1. apply Qmult_le_l; [exact inH_pos | exact Hle]. }
    assert (Hpos : 0 < srcH r).
    { rewrite EH. apply Qdiv_pos; assumption. }
    destruct (centred_fits inH (srcH r) Hfit) as [Hy0 Hy1].
    rewrite EX, EY, EW. repeat split; try assumption; try lra.
    + apply centred_offset.
    + rewrite EH. field. repeat split; lra.
Qed.
End CoverExact.

Section ContainExact.
Local Open Scope Q_scope.
Variables inW inH outW outH : Q.
Hypothesis inW_pos : 0 < inW.
Hypothesis inH_pos : 0 < inH.
Hypothesis outW_pos : 0 < outW.
Hypothesis outH_pos : 0 < outH.

Let r := calculateCropResize inW inH outW outH "contain".

Lemma contain_exact_cases :
  (outW / outH < inW / inH /\
   destH r = outW / (inW / inH) /\ destY r = (outH - destH r) / 2 /\
   destW r = outW /\ destX r = 0) \/
  (inW / inH <= outW / outH /\
   destW r = outH * (inW / inH) /\ destX r = (outW - destW r) / 2 /\
   destH r = outH /\ destY r = 0).
Proof.
  subst r. unfold calculateCropResize.
  repeat case_decide; try done.
  destruct (gt (div inW inH) (div outW outH)) eqn:Hgt;
    cbn [destX destY destW destH].
  - left. apply gt_exact_true in Hgt. auto.
  - right. apply gt_exact_false in Hgt. auto.
Qed.

(** With exact arithmetic the letterbox of 'contain' is a centred
    sub-rectangle of the output with the aspect ratio of the input. *)
Lemma contain_exact_geometry :
  (0 <= destX r /\ 0 <= destY r /\ 0 < destW r /\ 0 < destH r /\
   destX r + destW r <= outW /\ destY r + destH r <= outH) /\
  (destX r + destW r / 2 == outW / 2 /\ destY r + destH r / 2 == outH / 2) /\
  destW r / destH r == inW / inH.
Proof.
  pose proof (Qdiv_pos inW inH inW_pos inH_pos) as Ha.
  pose proof (Qmult_ratio outW outH outH_pos) as Hb.
  destruct contain_exact_cases
    as [(Hlt & EH & EY & EW & EX) | (Hle & EW & EX & EH & EY)].
  - (* bars above and below *)
    assert (Hfit : destH r <= outH).
    { rewrite EH. apply Qle_shift_div_r; [exact Ha |].
      rewrite <- Hb at 1. apply Qlt_le_weak.
      apply Qmult_lt_l; [exact outH_pos | exact Hlt]. }
    assert (Hpos : 0 < destH r).
    { rewrite EH. apply Qdiv_pos; assumption. }
    destruct (centred_fits outH (destH r) Hfit) as [Hy0 Hy1].
    rewrite EX, EY, EW. repeat split; try assumption; try lra.
    + apply centred_offset.
    + rewrite EH. field. repeat split; lra.
  - (* bars left and right *)
    assert (Hfit : destW r <= outW).
    { rewrite EW, <- Hb.
      apply Qmult_le_l; [exact outH_pos | exact Hle]. }
    assert (Hpos : 0 < destW r).
    { rewrite EW. apply Qmult_lt_0_compat; assumption. }
    destruct (centred_fits outW (destW r) Hfit) as [Hx0 Hx1].
    rewrite EX, EY, EH. repeat split; try assumption; try lra.
    + apply centred_offset.
    + rewrite EW. field. split; lra.
Qed.
End ContainExact.

(** ** Rounding in binary64

    What one operation of the format returns on numbers with a full
    mantissa, from the definitions of [SpecFloat]: the result is such a
    number again, within [2^-52] of the exact result. *)

Section Rounding.

Lemma digits2_pos_size (p : positive) : digits2_pos p = Pos.size p.
Proof. induction p; cbn; congruence. Qed.

(** A number of [d] binary digits lies between [2^(d-1)] and [2^d]. *)
Lemma digits2_pos_bounds (p : positive) :
  2 ^ (Z.pos (digits2_pos p) - 1) <= Z.pos p < 2 ^ Z.pos (digits2_pos p).
Proof.
  rewrite digits2_pos_size.
  pose proof (Pos.size_gt p) as Hgt. pose proof (Pos.size_le p) as Hle.
  apply Pos2Z.pos_lt_pos in Hgt. apply Pos2Z.pos_le_pos in Hle.
  rewrite Pos2Z.inj_pow in Hgt, Hle. rewrite (Pos2Z.inj_xO p) in Hle.
  replace (Z.pos (Pos.size p)) with (Z.succ (Z.pos (Pos.size p) - 1)) in Hle at 1 by lia.
  rewrite Z.pow_succ_r in Hle by lia. lia.
Qed.

Lemma digits2_pos_unique (p : positive) (d : Z) :
  2 ^ (d - 1) <= Z.pos p < 2 ^ d -> Z.pos (digits2_pos p) = d.
Proof.
  intros [Hlo Hhi]. pose proof (digits2_pos_bounds p) as [Hlo' Hhi'].
  assert (Hd : 0 < d).
  { destruct (Z.lt_ge_cases 0 d) as [| Hneg]; [assumption |].
    destruct (Z.eq_dec d 0) as [-> | Hne]; [cbn in Hhi; lia |].
    rewrite Z.pow_neg_r in Hhi by lia. lia. }
  destruct (Z.lt_trichotomy (Z.pos (digits2_pos p)) d) as [Hlt | [Heq | Hgt]];
    [| exact Heq |].
  - assert (2 ^ Z.pos (digits2_pos p) <= 2 ^ (d - 1))
      by (apply Z.pow_le_mono_r; lia). lia.
  - assert (2 ^ d <= 2 ^ (Z.pos (digits2_pos p) - 1))
      by (apply Z.pow_le_mono_r; lia). lia.
Qed.


(** One right shift halves the mantissa. *)
Lemma shr_1_m (r : shr_record) :
  0 <= shr_m r -> shr_m (shr_1 r) = shr_m r / 2 /\ 0 <= shr_m (shr_1 r).
Proof.
  destruct r as [[| [p | p |] | p] rb sb]; cbn [shr_1 shr_m]; intros Hm;
    (split; [| lia]).
  - reflexivity.
  - apply (Z.div_unique _ 2 _ 1); lia.
  - apply (Z.div_unique _ 2 _ 0); lia.
  - reflexivity.
  - lia.
Qed.

Lemma iter_shr_m (p : positive) :
  forall r : shr_record,
    0 <= shr_m r ->
    shr_m (SpecFloat.iter_pos shr_1 p r) = shr_m r / 2 ^ Z.pos p /\
    0 <= shr_m (SpecFloat.iter_pos shr_1 p r).
Proof.
  induction p as [p IH | p IH |]; intros r Hm; cbn [SpecFloat.iter_pos].
  - destruct (shr_1_m r Hm) as [H1 Hm1].
    destruct (IH _ Hm1) as [H2 Hm2]. destruct (IH _ Hm2) as [H3 Hm3].
    split; [| exact Hm3]. rewrite H3, H2, H1.
    rewrite !Z.div_div by lia. f_equal.
    rewrite (Pos2Z.inj_xI p), Z.pow_add_r, Z.pow_1_r by lia.
    replace (2 * Z.pos p) with (Z.pos p + Z.pos p) by lia.
    rewrite Z.pow_add_r by lia. ring.
  - destruct (IH _ Hm) as [H2 Hm2]. destruct (IH _ Hm2) as [H3 Hm3].
    split; [| exact Hm3]. rewrite H3, H2.
    rewrite !Z.div_div by lia. f_equal.
    rewrite (Pos2Z.inj_xO p).
    replace (2 * Z.pos p) with (Z.pos p + Z.pos p) by lia.
    rewrite Z.pow_add_r by lia. ring.
  - destruct (shr_1_m r Hm) as [H1 Hm1]. split; [| exact Hm1].
    rewrite H1. reflexivity.
Qed.

(** Shifting out zero bits of an exact number loses nothing. *)
Lemma shr_1_exact (k : Z) :
  0 <= k ->
  shr_1 (Build_shr_record (k * 2) false false) = Build_shr_record k false false.
Proof.
  intros Hk. destruct k as [| p | p]; [reflexivity | | lia].
  replace (Z.pos p * 2) with (Z.pos p~0) by lia. reflexivity.
Qed.

Lemma iter_shr_exact (p : positive) :
  forall k : Z,
    0 <= k ->
    SpecFloat.iter_pos shr_1 p (Build_shr_record (k * 2 ^ Z.pos p) false false)
      = Build_shr_record k false false.
Proof.
  induction p as [p IH | p IH |]; intros k Hk; cbn [SpecFloat.iter_pos].
  - replace (k * 2 ^ Z.pos p~1) with (k * 2 ^ Z.pos p * 2 ^ Z.pos p * 2).
    + rewrite shr_1_exact by nia. rewrite IH by nia. apply IH, Hk.
    + rewrite (Pos2Z.inj_xI p), Z.pow_add_r, Z.pow_1_r by lia.
      replace (2 * Z.pos p) with (Z.pos p + Z.pos p) by lia.
      rewrite Z.pow_add_r by lia. ring.
  - replace (k * 2 ^ Z.pos p~0) with (k * 2 ^ Z.pos p * 2 ^ Z.pos p).
    + rewrite IH by nia. apply IH, Hk.
    + rewrite (Pos2Z.inj_xO p).
      replace (2 * Z.pos p) with (Z.pos p + Z.pos p) by lia.
      rewrite Z.pow_add_r by lia. ring.
  - rewrite Z.pow_1_r. apply shr_1_exact, Hk.
Qed.

(** The first stage of rounding: the mantissa is cut down to 53 bits. *)
Lemma shr_fexp_spec (m : positive) (e : Z) (l : location) :
  let d := Z.pos (digits2_pos m) in
  53 <= d -> -1074 <= e + d - 53 ->
  exists mrs : shr_record,
    shr_fexp prec emax (Z.pos m) e l = (mrs, e + d - 53) /\
    shr_m mrs = Z.pos m / 2 ^ (d - 53) /\
    (l = loc_Exact ->
     forall k : Z, Z.pos m = k * 2 ^ (d - 53) ->
     mrs = Build_shr_record k false false).
Proof.
  cbv zeta. intros Hd He.
  unfold shr_fexp, fexp, Zdigits2, shr.
  change (SpecFloat.emin prec emax) with (-1074). change prec with 53.
  rewrite Z.max_l by lia.
  replace (Z.pos (digits2_pos m) + e - 53 - e) with (Z.pos (digits2_pos m) - 53)
    by lia.
  destruct (Z.pos (digits2_pos m) - 53) as [| n | n] eqn:Hn; [| | lia].
  - exists (shr_record_of_loc (Z.pos m) l). repeat split.
    + f_equal. lia.
    + rewrite Z.pow_0_r, Z.div_1_r. destruct l as [| []]; reflexivity.
    + intros -> k Hk. cbn. f_equal. rewrite Z.pow_0_r in Hk. lia.
  - exists (SpecFloat.iter_pos shr_1 n (shr_record_of_loc (Z.pos m) l)). repeat split.
    + f_equal. lia.
    + destruct (iter_shr_m n (shr_record_of_loc (Z.pos m) l)) as [H _].
      * destruct l as [| []]; cbn; lia.
      * rewrite H. destruct l as [| []]; reflexivity.
    + intros -> k Hk. cbn [shr_record_of_loc]. rewrite Hk.
      apply iter_shr_exact.
      assert (0 < 2 ^ Z.pos n) by (apply Z.pow_pos_nonneg; lia). nia.
Qed.


(** The 53 leading bits of a number of at least 53 bits. *)
Lemma leading_bits (m : positive) :
  let d := Z.pos (digits2_pos m) in
  53 <= d ->
  2 ^ 52 <= Z.pos m / 2 ^ (d - 53) < 2 ^ 53 /\
  Z.pos m / 2 ^ (d - 53) * 2 ^ (d - 53) <= Z.pos m
    < (Z.pos m / 2 ^ (d - 53) + 1) * 2 ^ (d - 53).
Proof.
  cbv zeta. intros Hd. set (d := Z.pos (digits2_pos m)) in *.
  pose proof (digits2_pos_bounds m) as [Hlo Hhi]. fold d in Hlo, Hhi.
  assert (Hpow : 0 < 2 ^ (d - 53)) by (apply Z.pow_pos_nonneg; lia).
  assert (Hlo' : 2 ^ (d - 1) = 2 ^ 52 * 2 ^ (d - 53)).
  { rewrite <- Z.pow_add_r by lia. f_equal. lia. }
  assert (Hhi' : 2 ^ d = 2 ^ 53 * 2 ^ (d - 53)).
  { rewrite <- Z.pow_add_r by lia. f_equal. lia. }
  pose proof (Z.mul_div_le (Z.pos m) _ Hpow) as Hfloor.
  pose proof (Z.mul_succ_div_gt (Z.pos m) _ Hpow) as Hceil.
  repeat split.
  - apply Z.div_le_lower_bound; [exact Hpow |]. lia.
  - apply Z.div_lt_upper_bound; [exact Hpow |]. lia.
  - lia.
  - lia.
Qed.

Lemma round_nearest_even_cases (m : Z) (l : location) :
  round_nearest_even m l = m \/ round_nearest_even m l = m + 1.
Proof.
  destruct l as [| []]; cbn; auto. destruct (Z.even m); auto.
Qed.

(** Rounding a number whose bits beyond the 53rd are zero is exact. *)
Lemma binary_round_aux_exact (sx : bool) (mx k : positive) (ex : Z) :
  let d := Z.pos (digits2_pos mx) in
  53 <= d -> -1074 <= ex + d - 53 -> ex + d - 53 <= 971 ->
  Z.pos mx = Z.pos k * 2 ^ (d - 53) ->
  binary_round_aux prec emax sx (Z.pos mx) ex loc_Exact
    = S754_finite sx k (ex + d - 53).
Proof.
  cbv zeta. intros Hd Hlo Hhi Hk. set (d := Z.pos (digits2_pos mx)) in *.
  destruct (leading_bits mx Hd) as [[Hk1 Hk2] _]. fold d in Hk1, Hk2.
  assert (Hdiv : Z.pos mx / 2 ^ (d - 53) = Z.pos k).
  { rewrite Hk. apply Z.div_mul.
    assert (0 < 2 ^ (d - 53)) by (apply Z.pow_pos_nonneg; lia). lia. }
  rewrite Hdiv in Hk1, Hk2.
  assert (Hdk : Z.pos (digits2_pos k) = 53)
    by (apply digits2_pos_unique; cbn; lia).
  unfold binary_round_aux.
  destruct (shr_fexp_spec mx ex loc_Exact Hd Hlo) as (mrs & -> & _ & Hexact).
  rewrite (Hexact eq_refl (Z.pos k) Hk). cbn [shr_m loc_of_shr_record round_nearest_even].
  destruct (shr_fexp_spec k (ex + d - 53) loc_Exact) as (mrs' & Heq & _ & Hexact').
  { rewrite Hdk. lia. }
  { rewrite Hdk. lia. }
  fold d. rewrite Heq.
  rewrite (Hexact' eq_refl (Z.pos k)) by (rewrite Hdk; cbn; lia).
  cbn [shr_m]. rewrite Hdk.
  change (emax - prec) with 971.
  destruct (Z.leb_spec (ex + d - 53 + 53 - 53) 971); [| lia].
  f_equal. lia.
Qed.

(** Rounding in general gives one of the two neighbouring 53-bit
    numbers. *)
Lemma binary_round_aux_faithful (sx : bool) (mx : positive) (ex : Z) (lx : location) :
  let d := Z.pos (digits2_pos mx) in
  53 <= d -> -1074 <= ex + d - 53 -> ex + d - 53 < 971 ->
  exists (m : positive) (e : Z),
    binary_round_aux prec emax sx (Z.pos mx) ex lx = S754_finite sx m e /\
    Z.pos (digits2_pos m) = 53 /\
    ex + d - 53 <= e <= ex + d - 52 /\
    (Z.pos m * 2 ^ (e - (ex + d - 53)) = Z.pos mx / 2 ^ (d - 53) \/
     Z.pos m * 2 ^ (e - (ex + d - 53)) = Z.pos mx / 2 ^ (d - 53) + 1).
Proof.
  cbv zeta. intros Hd Hlo Hhi. set (d := Z.pos (digits2_pos mx)) in *.
  destruct (leading_bits mx Hd) as [[HM1 HM2] _]. fold d in HM1, HM2.
  unfold binary_round_aux.
  destruct (shr_fexp_spec mx ex lx Hd Hlo) as (mrs & -> & HM & _). fold d in HM.
  rewrite HM. set (M := Z.pos mx / 2 ^ (d - 53)) in *.
  pose proof (round_nearest_even_cases M (loc_of_shr_record mrs)) as Hcases.
  destruct (round_nearest_even M (loc_of_shr_record mrs)) as [| m2 |];
    [lia | | lia].
  destruct (Z.lt_ge_cases (Z.pos m2) (2 ^ 53)) as [Hsmall | Hcarry].
  - assert (Hd2 : Z.pos (digits2_pos m2) = 53)
      by (apply digits2_pos_unique; cbn; lia).
    destruct (shr_fexp_spec m2 (ex + d - 53) loc_Exact) as (mrs' & Heq & _ & Hexact).
    { rewrite Hd2. lia. }
    { rewrite Hd2. lia. }
    fold d. rewrite Heq, (Hexact eq_refl (Z.pos m2)) by (rewrite Hd2; cbn; lia).
    cbn [shr_m]. rewrite Hd2. change (emax - prec) with 971.
    destruct (Z.leb_spec (ex + d - 53 + 53 - 53) 971); [| lia].
    exists m2, (ex + d - 53 + 53 - 53).
    split; [reflexivity |]. split; [exact Hd2 |]. split; [lia |].
    replace (ex + d - 53 + 53 - 53 - (ex + d - 53)) with 0 by lia.
    rewrite Z.pow_0_r. lia.
  - assert (Hm2 : Z.pos m2 = 2 ^ 53) by lia.
    assert (Hd2 : Z.pos (digits2_pos m2) = 54)
      by (apply digits2_pos_unique; rewrite Hm2; cbn; lia).
    destruct (shr_fexp_spec m2 (ex + d - 53) loc_Exact) as (mrs' & Heq & _ & Hexact).
    { rewrite Hd2. lia. }
    { rewrite Hd2. lia. }
    fold d. rewrite Heq, (Hexact eq_refl (2 ^ 52)) by (rewrite Hd2, Hm2; reflexivity).
    cbn [shr_m]. rewrite Hd2. change (emax - prec) with 971.
    change (2 ^ 52) with (Z.pos (2 ^ 52)%positive).
    destruct (Z.leb_spec (ex + d - 53 + 54 - 53) 971); [| lia].
    exists (2 ^ 52)%positive, (ex + d - 53 + 54 - 53).
    split; [reflexivity |]. split; [reflexivity |]. split; [lia |].
    replace (ex + d - 53 + 54 - 53 - (ex + d - 53)) with 1 by lia.
    right. change (Z.pos (2 ^ 52) * 2 ^ 1) with (2 ^ 53). lia.
Qed.


Lemma pos_iter_xO (m d : positive) :
  Z.pos (Pos.iter xO m d) = Z.pos m * 2 ^ Z.pos d.
Proof.
  apply (Pos.iter_ind _ xO m (fun p r => Z.pos r = Z.pos m * 2 ^ Z.pos p)).
  - rewrite Z.pow_1_r. lia.
  - intros p r IH. rewrite Pos2Z.inj_succ, Z.pow_succ_r by lia.
    rewrite (Pos2Z.inj_xO r), IH. ring.
Qed.

(** Appending [j] zero bits adds [j] to the number of digits. *)
Lemma digits2_pos_shift (m r : positive) (j : Z) :
  0 <= j -> Z.pos r = Z.pos m * 2 ^ j ->
  Z.pos (digits2_pos r) = Z.pos (digits2_pos m) + j.
Proof.
  intros Hj Hr. apply digits2_pos_unique. rewrite Hr.
  pose proof (digits2_pos_bounds m) as [Hlo Hhi].
  assert (Hpow : 0 < 2 ^ j) by (apply Z.pow_pos_nonneg; lia).
  replace (Z.pos (digits2_pos m) + j - 1) with (Z.pos (digits2_pos m) - 1 + j)
    by lia.
  rewrite !Z.pow_add_r by lia. nia.
Qed.

(** [binary_round] of a number of at most 53 bits: the number itself,
    with its mantissa shifted to 53 bits. *)
Lemma binary_round_short (s : bool) (D : positive) (e : Z) :
  let d := Z.pos (digits2_pos D) in
  d <= 53 -> -1074 <= e + d - 53 -> e + d - 53 <= 971 ->
  exists k : positive,
    Z.pos k = Z.pos D * 2 ^ (53 - d) /\
    Z.pos (digits2_pos k) = 53 /\
    binary_round prec emax s D e = S754_finite s k (e + d - 53).
Proof.
  cbv zeta. intros Hd Hlo Hhi. set (d := Z.pos (digits2_pos D)) in *.
  unfold binary_round, fexp, shl_align.
  change (SpecFloat.emin prec emax) with (-1074). change prec with 53.
  fold d. rewrite Z.max_l by lia.
  replace (d + e - 53 - e) with (d - 53) by lia.
  destruct (d - 53) as [| n | n] eqn:Hn; [| lia |]; cbv beta iota.
  - exists D. assert (Hd53 : d = 53) by lia.
    rewrite Hd53, Z.pow_0_r. repeat split; [lia | exact Hd53 |].
    etransitivity;
      [apply (binary_round_aux_exact s D D e); fold d;
       rewrite ?Hd53, ?Z.pow_0_r; lia |].
    fold d. f_equal. lia.
  - exists (Pos.iter xO D n).
    assert (Hk : Z.pos (Pos.iter xO D n) = Z.pos D * 2 ^ (53 - d)).
    { rewrite pos_iter_xO. f_equal. f_equal. lia. }
    assert (Hdk : Z.pos (digits2_pos (Pos.iter xO D n)) = 53).
    { rewrite (digits2_pos_shift D _ (53 - d)) by (lia || exact Hk). fold d. lia. }
    repeat split; [exact Hk | exact Hdk |].
    etransitivity;
      [apply (binary_round_aux_exact s _ (Pos.iter xO D n));
       rewrite ?Hdk, ?Z.pow_0_r; lia |].
    rewrite Hdk. f_equal. lia.
Qed.

(** [binary_round] of a longer number rounds it. *)
Lemma binary_round_long (s : bool) (D : positive) (e : Z) :
  let d := Z.pos (digits2_pos D) in
  53 <= d ->
  binary_round prec emax s D e
    = binary_round_aux prec emax s (Z.pos D) e loc_Exact.
Proof.
  cbv zeta. intros Hd. set (d := Z.pos (digits2_pos D)) in *.
  unfold binary_round, fexp, shl_align. fold d.
  destruct (Z.max (d + e - prec) (SpecFloat.emin prec emax) - e) as [| n | n] eqn:Hn;
    try reflexivity.
  change prec with 53 in Hn. lia.
Qed.

End Rounding.

Section Values.
Local Open Scope Q_scope.

Lemma pow2_pos (e : Z) : 0 < 2 ^ e.
Proof. apply Qpower_0_lt. reflexivity. Qed.

Lemma pow2_add (a b : Z) : 2 ^ (a + b) == 2 ^ a * 2 ^ b.
Proof. apply Qpower_plus. discriminate. Qed.

Lemma pow2_inject (n : Z) : (0 <= n)%Z -> inject_Z (2 ^ n) == 2 ^ n.
Proof. intros Hn. apply (Zpower_Qpower 2 n Hn). Qed.

Lemma rounds_to_exact (x v : Q) : v == x -> rounds_to x v.
Proof.
  intros Hv. exists 0. repeat split; try discriminate. rewrite Hv. ring.
Qed.

(** A positive number between two neighbours of at least 53 bits is
    within [2^-52] of both. *)
Lemma faithful_delta (x w : Q) (M M' : Z) :
  0 < w -> (2 ^ 52 <= M)%Z ->
  inject_Z M * w <= x -> x <= inject_Z (M + 1) * w ->
  M' = M \/ M' = (M + 1)%Z ->
  rounds_to x (inject_Z M' * w).
Proof.
  intros Hw HM Hlo Hhi HM'.
  rewrite inject_Z_plus in Hhi.
  assert (Hbig : inject_Z (2 ^ 52) * w <= inject_Z M * w).
  { apply Qmult_le_compat_r; [| lra]. rewrite <- Zle_Qle. exact HM. }
  change (inject_Z (2 ^ 52)) with (4503599627370496 # 1) in Hbig.
  assert (Hhi' : x <= inject_Z M * w + w).
  { eapply Qle_trans; [exact Hhi |]. change (inject_Z 1) with 1.
    apply Qle_lteq. right. ring. }
  clear Hhi. set (A := inject_Z M * w) in *.
  assert (Hx : 0 < x) by lra.
  assert (Hv : inject_Z M' * w == A \/ inject_Z M' * w == A + w).
  { destruct HM' as [-> | ->]; [left; reflexivity | right].
    rewrite inject_Z_plus. unfold A. change (inject_Z 1) with 1. ring. }
  exists ((inject_Z M' * w - x) / x). unfold ulp_bound. repeat split.
  - apply Qle_shift_div_l; [exact Hx |]. destruct Hv as [-> | ->]; lra.
  - apply Qle_shift_div_r; [exact Hx |]. destruct Hv as [-> | ->]; lra.
  - field. lra.
Qed.

(** The value of what [binary_round_aux] returns. *)
Lemma round_value (s : bool) (M E e : Z) (m : positive) (x : Q) :
  (2 ^ 52 <= M)%Z -> (E <= e)%Z ->
  (Z.pos m * 2 ^ (e - E) = M \/ Z.pos m * 2 ^ (e - E) = M + 1)%Z ->
  inject_Z M * 2 ^ E <= x -> x <= inject_Z (M + 1) * 2 ^ E ->
  rounds_to (sign_of s * x) (SFvalue (S754_finite s m e)).
Proof.
  intros HM He Hm Hlo Hhi.
  destruct (faithful_delta x (2 ^ E) M (Z.pos m * 2 ^ (e - E)) (pow2_pos E)
              HM Hlo Hhi Hm) as (delta & Hd1 & Hd2 & Hv).
  exists delta. repeat split; [exact Hd1 | exact Hd2 |].
  cbn [SFvalue]. fold (sign_of s).
  replace e with ((e - E) + E)%Z at 1 by lia.
  rewrite pow2_add, <- pow2_inject by lia.
  rewrite inject_Z_mult in Hv.
  transitivity (sign_of s * (inject_Z (Z.pos m) * inject_Z (2 ^ (e - E)) * 2 ^ E));
    [ring |].
  rewrite Hv. ring.
Qed.

End Values.

Section Operations.
Local Open Scope Q_scope.

Lemma rounds_to_compat (x x' v v' : Q) :
  x == x' -> v == v' -> rounds_to x v -> rounds_to x' v'.
Proof.
  intros Hx Hv (delta & Hd1 & Hd2 & Heq). exists delta.
  repeat split; [exact Hd1 | exact Hd2 |]. rewrite <- Hv, <- Hx. exact Heq.
Qed.

Lemma digits2_pos_range (p : positive) (lo hi : Z) :
  (2 ^ lo <= Z.pos p < 2 ^ hi)%Z -> (0 <= lo)%Z ->
  (lo < Z.pos (digits2_pos p) <= hi)%Z.
Proof.
  intros [Hlo Hhi] Hnn. pose proof (digits2_pos_bounds p) as [Hlo' Hhi'].
  split.
  - apply (Z.pow_lt_mono_r_iff 2); lia.
  - destruct (Z.le_gt_cases (Z.pos (digits2_pos p)) hi) as [| Hgt]; [assumption |].
    assert (2 ^ hi <= 2 ^ (Z.pos (digits2_pos p) - 1))%Z
      by (apply Z.pow_le_mono_r; lia). lia.
Qed.

(** The exact quotient [A / B], scaled, lies between the neighbours
    that the integers give. *)
Lemma scaled_lower (M n A B e : Z) :
  (0 < B)%Z -> (0 <= n)%Z -> (M * 2 ^ n * B <= A)%Z ->
  inject_Z M * 2 ^ (e + n) <= inject_Z A / inject_Z B * 2 ^ e.
Proof.
  intros HB Hn Hle.
  assert (HBq : 0 < inject_Z B) by (rewrite <- (Zlt_Qlt 0); exact HB).
  assert (Hp : 2 ^ (e + n) == inject_Z (2 ^ n) * 2 ^ e)
    by (rewrite Z.add_comm, pow2_add, (pow2_inject n Hn); reflexivity).
  rewrite Hp, Qmult_assoc.
  apply Qmult_le_compat_r; [| apply Qlt_le_weak, pow2_pos].
  apply Qle_shift_div_l; [exact HBq |].
  rewrite <- !inject_Z_mult, <- Zle_Qle. exact Hle.
Qed.

Lemma scaled_upper (M n A B e : Z) :
  (0 < B)%Z -> (0 <= n)%Z -> (A <= M * 2 ^ n * B)%Z ->
  inject_Z A / inject_Z B * 2 ^ e <= inject_Z M * 2 ^ (e + n).
Proof.
  intros HB Hn Hle.
  assert (HBq : 0 < inject_Z B) by (rewrite <- (Zlt_Qlt 0); exact HB).
  assert (Hp : 2 ^ (e + n) == inject_Z (2 ^ n) * 2 ^ e)
    by (rewrite Z.add_comm, pow2_add, (pow2_inject n Hn); reflexivity).
  rewrite Hp, Qmult_assoc.
  apply Qmult_le_compat_r; [| apply Qlt_le_weak, pow2_pos].
  apply Qle_shift_div_r; [exact HBq |].
  rewrite <- !inject_Z_mult, <- Zle_Qle. exact Hle.
Qed.

(** What [binary_round_aux] gives for the quotient of two integers:
    [q] is the integer part of [A / B]. *)
Lemma binary_round_aux_rounds (s : bool) (q : positive) (A B e : Z) (l : location) :
  let d := Z.pos (digits2_pos q) in
  (53 <= d)%Z -> (-1074 <= e + d - 53)%Z -> (e + d - 53 < 971)%Z ->
  (0 < B)%Z -> (Z.pos q * B <= A < (Z.pos q + 1) * B)%Z ->
  exists (m : positive) (e' : Z),
    binary_round_aux prec emax s (Z.pos q) e l = S754_finite s m e' /\
    Z.pos (digits2_pos m) = 53%Z /\
    (e + d - 53 <= e' <= e + d - 52)%Z /\
    rounds_to (sign_of s * (inject_Z A / inject_Z B * 2 ^ e))
              (SFvalue (S754_finite s m e')).
Proof.
  cbv zeta. intros Hd Hlo Hhi HB [HA1 HA2].
  set (d := Z.pos (digits2_pos q)) in *.
  destruct (binary_round_aux_faithful s q e l Hd Hlo Hhi)
    as (m & e' & Heq & Hdm & He' & Hrel). fold d in He', Hrel.
  destruct (leading_bits q Hd) as [[HM1 HM2] [HM3 HM4]].
  fold d in HM1, HM2, HM3, HM4.
  set (M := (Z.pos q / 2 ^ (d - 53))%Z) in *.
  exists m, e'. repeat split; try assumption; try lia.
  apply (round_value s M (e + d - 53) e' m); try assumption; try lia.
  - replace (e + d - 53)%Z with (e + (d - 53))%Z by lia.
    apply scaled_lower; [exact HB | lia | nia].
  - replace (e + d - 53)%Z with (e + (d - 53))%Z by lia.
    apply scaled_upper; [exact HB | lia | nia].
Qed.

End Operations.

Section SpecOps.
Local Open Scope Q_scope.

Lemma SFvalue_finite (s : bool) (m : positive) (e : Z) :
  SFvalue (S754_finite s m e) == sign_of s * (inject_Z (Z.pos m) * 2 ^ e).
Proof. unfold SFvalue, sign_of. destruct s; ring. Qed.

Lemma sign_of_xorb (a b : bool) : sign_of (xorb a b) == sign_of a * sign_of b.
Proof. destruct a, b; reflexivity. Qed.

Lemma mantissa_bounds (m : positive) :
  Z.pos (digits2_pos m) = 53%Z -> (2 ^ 52 <= Z.pos m < 2 ^ 53)%Z.
Proof.
  intros Hd. pose proof (digits2_pos_bounds m) as Hb. rewrite Hd in Hb.
  exact Hb.
Qed.

(** The product of two regular numbers. *)
Lemma SFmul_rounds (L1 L2 : Z) (x y : spec_float) :
  SFregular L1 x -> SFregular L2 y -> (L1 + L2 + 54 <= 970)%Z ->
  SFregular (L1 + L2 + 54) (SFmul prec emax x y) /\
  rounds_to (SFvalue x * SFvalue y) (SFvalue (SFmul prec emax x y)).
Proof.
  intros Hx Hy HL.
  destruct x as [sx | sx | | sx mx ex]; try contradiction;
  destruct y as [sy | sy | | sy my ey]; try contradiction;
  try (split; [exact I | apply rounds_to_exact; cbn [SFmul SFvalue]; ring]).
  destruct Hx as [Hdx Hex], Hy as [Hdy Hey].
  pose proof (mantissa_bounds mx Hdx) as Hmx.
  pose proof (mantissa_bounds my Hdy) as Hmy.
  cbn [SFmul].
  assert (HP : (2 ^ 104 <= Z.pos (mx * my) < 2 ^ 106)%Z).
  { rewrite Pos2Z.inj_mul.
    change (2 ^ 104)%Z with (2 ^ 52 * 2 ^ 52)%Z.
    change (2 ^ 106)%Z with (2 ^ 53 * 2 ^ 53)%Z. nia. }
  pose proof (digits2_pos_range (mx * my) 104 106 HP ltac:(lia)) as Hd.
  destruct (binary_round_aux_rounds (xorb sx sy) (mx * my)
              (Z.pos (mx * my)) 1 (ex + ey) loc_Exact)
    as (m & e' & Heq & Hdm & He' & Hr); try lia.
  rewrite Heq. split.
  - split; [exact Hdm | lia].
  - eapply rounds_to_compat; [| reflexivity | exact Hr].
    rewrite !SFvalue_finite, sign_of_xorb, Pos2Z.inj_mul, inject_Z_mult,
      pow2_add.
    change (inject_Z 1) with 1. field.
Qed.

Lemma div_eucl_bounds (a b q r : Z) :
  (0 < b)%Z -> Z.div_eucl a b = (q, r) -> (q * b <= a < (q + 1) * b)%Z.
Proof.
  intros Hb Heq.
  pose proof (Z_div_mod a b ltac:(lia)) as Hdm. rewrite Heq in Hdm.
  destruct Hdm as [Ha Hr]. nia.
Qed.

(** The quotient of two regular numbers. *)
Lemma SFdiv_rounds (L1 L2 : Z) (x y : spec_float) :
  SFregular L1 x -> SFregular L2 y -> ~ SFvalue y == 0 ->
  (L1 + L2 + 54 <= 970)%Z ->
  SFregular (L1 + L2 + 54) (SFdiv prec emax x y) /\
  rounds_to (SFvalue x / SFvalue y) (SFvalue (SFdiv prec emax x y)).
Proof.
  intros Hx Hy Hy0 HL.
  destruct y as [sy | sy | | sy my ey]; try contradiction;
    [exfalso; apply Hy0; reflexivity |].
  destruct x as [sx | sx | | sx mx ex]; try contradiction.
  { split; [exact I |].
    apply rounds_to_exact. cbn [SFdiv SFvalue]. unfold Qdiv. ring. }
  destruct Hx as [Hdx Hex], Hy as [Hdy Hey].
  pose proof (mantissa_bounds mx Hdx) as Hmx.
  pose proof (mantissa_bounds my Hdy) as Hmy.
  cbn [SFdiv]. unfold SFdiv_core_binary. cbn [Zdigits2].
  rewrite Hdx, Hdy.
  replace (Z.min (fexp prec emax (53 + ex - (53 + ey))) (ex - ey))
    with (ex - ey - 53)%Z
    by (unfold fexp, emin, prec, emax; lia).
  replace (ex - ey - (ex - ey - 53))%Z with 53%Z by lia.
  cbv iota.
  destruct (Z.div_eucl (Z.shiftl (Z.pos mx) 53) (Z.pos my)) as [q r] eqn:Hqr.
  rewrite Z.shiftl_mul_pow2 in Hqr by lia.
  pose proof (div_eucl_bounds _ (Z.pos my) _ _ (Pos2Z.is_pos my) Hqr) as Hq.
  assert (Hqb : (2 ^ 52 <= q < 2 ^ 54)%Z).
  { change (2 ^ 54)%Z with (2 * 2 ^ 53)%Z in *.
    change (2 ^ 53)%Z with (2 * 2 ^ 52)%Z in *. nia. }
  destruct q as [| q | q]; try (exfalso; lia).
  pose proof (digits2_pos_range q 52 54 Hqb ltac:(lia)) as Hd.
  destruct (binary_round_aux_rounds (xorb sx sy) q
              (Z.pos mx * 2 ^ 53) (Z.pos my) (ex - ey - 53)
              (new_location (Z.pos my) r))
    as (m & e' & Heq & Hdm & He' & Hr); try lia.
  rewrite Heq. split.
  - split; [exact Hdm | lia].
  - eapply rounds_to_compat; [| reflexivity | exact Hr].
    rewrite !SFvalue_finite, sign_of_xorb, inject_Z_mult.
    replace (ex - ey - 53)%Z with (ex + (- ey + - (53)))%Z by lia.
    rewrite !pow2_add, !Qpower_opp, (pow2_inject 53) by lia.
    assert (H1 : ~ inject_Z (Z.pos my) == 0)
      by (intros HH; apply (Qeq_eq_bool) in HH; discriminate).
    assert (H2 : ~ 2 ^ ey == 0)
      by (intros HH; pose proof (pow2_pos ey); lra).
    assert (H3 : ~ 2 ^ 53 == 0)
      by (intros HH; pose proof (pow2_pos 53); lra).
    assert (H4 : ~ sign_of sy == 0) by (destruct sy; discriminate).
    assert (H5 : sign_of sy * sign_of sy == 1) by (destruct sy; reflexivity).
    field_simplify_eq; [| repeat split; assumption].
    destruct sy; unfold sign_of; ring.
Qed.

(** [binary_round] of any integer mantissa: the result has a full
    mantissa, is within one rounding error of the number, and is the
    number itself when 53 bits hold it. *)
Lemma binary_round_rounds (s : bool) (D : positive) (e L : Z) :
  let d := Z.pos (digits2_pos D) in
  (- L <= e - 52)%Z -> (e <= L)%Z -> (e + d - 52 <= L)%Z -> (L <= 970)%Z ->
  SFregular L (binary_round prec emax s D e) /\
  rounds_to (sign_of s * (inject_Z (Z.pos D) * 2 ^ e))
            (SFvalue (binary_round prec emax s D e)) /\
  ((d <= 53)%Z \/ (exists k : positive, Z.pos D = Z.pos k * 2 ^ (d - 53))%Z ->
   SFvalue (binary_round prec emax s D e)
     == sign_of s * (inject_Z (Z.pos D) * 2 ^ e)).
Proof.
  cbv zeta. intros HL1 HL2 HL3 HL4.
  set (d := Z.pos (digits2_pos D)) in *.
  assert (Hd1 : (1 <= d)%Z) by (subst d; lia).
  assert (Hshort : (d <= 53)%Z ->
            SFregular L (binary_round prec emax s D e) /\
            SFvalue (binary_round prec emax s D e)
              == sign_of s * (inject_Z (Z.pos D) * 2 ^ e)).
  { intros Hd.
    destruct (binary_round_short s D e) as (k & Hk & Hdk & Heq);
      fold d; try lia.
    fold d in Hk, Heq. rewrite Heq. split; [split; [exact Hdk | lia] |].
    rewrite SFvalue_finite, Hk, inject_Z_mult, (pow2_inject (53 - d)) by lia.
    replace e with ((53 - d) + (e + d - 53))%Z at 2 by lia.
    rewrite (pow2_add (53 - d)). ring. }
  assert (Hexact : (53 <= d)%Z ->
            (exists k : positive, Z.pos D = Z.pos k * 2 ^ (d - 53))%Z ->
            SFregular L (binary_round prec emax s D e) /\
            SFvalue (binary_round prec emax s D e)
              == sign_of s * (inject_Z (Z.pos D) * 2 ^ e)).
  { intros Hd [k Hk].
    rewrite (binary_round_long s D e) by (fold d; exact Hd).
    rewrite (binary_round_aux_exact s D k e) by (fold d; lia).
    fold d.
    assert (Hdk : Z.pos (digits2_pos k) = 53%Z).
    { pose proof (digits2_pos_shift k D (d - 53) ltac:(lia) Hk) as Hs.
      fold d in Hs. lia. }
    split; [split; [exact Hdk | lia] |].
    rewrite SFvalue_finite, Hk, inject_Z_mult, (pow2_inject (d - 53)) by lia.
    replace (e + d - 53)%Z with ((d - 53) + e)%Z by lia.
    rewrite (pow2_add (d - 53)). ring. }
  destruct (Z.le_gt_cases d 53) as [Hd | Hd].
  - destruct (Hshort Hd) as [Hreg Hval].
    repeat split; try assumption.
    + apply rounds_to_exact. exact Hval.
    + intros _. exact Hval.
  - assert (Hlong : SFregular L (binary_round prec emax s D e) /\
              rounds_to (sign_of s * (inject_Z (Z.pos D) * 2 ^ e))
                (SFvalue (binary_round prec emax s D e))).
    { rewrite (binary_round_long s D e) by (fold d; lia).
      destruct (binary_round_aux_rounds s D (Z.pos D) 1 e loc_Exact)
        as (m & e' & Heq & Hdm & He' & Hr); fold d; try lia.
      fold d in He'. rewrite Heq. split; [split; [exact Hdm | lia] |].
      eapply rounds_to_compat; [| reflexivity | exact Hr].
      change (inject_Z 1) with 1. field. }
    destruct Hlong as [Hreg Hr].
    repeat split; try assumption.
    intros [Hle | Hk]; [lia |]. apply Hexact; [lia | exact Hk].
Qed.

Lemma digits2_pos_le (p : positive) (n : Z) :
  (Z.pos p < 2 ^ n)%Z -> (0 <= n)%Z -> (Z.pos (digits2_pos p) <= n)%Z.
Proof.
  intros Hp Hn. pose proof (digits2_pos_bounds p) as [Hlo _].
  destruct (Z.le_gt_cases (Z.pos (digits2_pos p)) n) as [| Hgt]; [assumption |].
  assert (2 ^ n <= 2 ^ (Z.pos (digits2_pos p) - 1))%Z
    by (apply Z.pow_le_mono_r; lia). lia.
Qed.

(** [binary_normalize] of an integer below [2^dmax] in magnitude. *)
Lemma binary_normalize_rounds (D e dmax L : Z) :
  (Z.abs D < 2 ^ dmax)%Z -> (0 <= dmax)%Z ->
  (- L <= e - 52)%Z -> (e <= L)%Z -> (e + dmax - 52 <= L)%Z -> (L <= 970)%Z ->
  SFregular L (binary_normalize prec emax D e false) /\
  rounds_to (inject_Z D * 2 ^ e)
            (SFvalue (binary_normalize prec emax D e false)) /\
  ((Z.abs D < 2 ^ 53)%Z ->
   SFvalue (binary_normalize prec emax D e false) == inject_Z D * 2 ^ e).
Proof.
  intros HD Hdmax HL1 HL2 HL3 HL4.
  destruct D as [| D | D]; cbn [binary_normalize].
  - split; [exact I | split].
    + apply rounds_to_exact. cbn [SFvalue]. ring.
    + intros _. cbn [SFvalue]. ring.
  - pose proof (digits2_pos_le D dmax HD Hdmax) as Hd.
    destruct (binary_round_rounds false D e L) as (Hreg & Hr & Hex); try lia.
    split; [exact Hreg | split].
    + eapply rounds_to_compat; [| reflexivity | exact Hr].
      unfold sign_of. ring.
    + intros H53. rewrite Hex.
      * unfold sign_of. ring.
      * left. apply digits2_pos_le; [exact H53 | lia].
  - pose proof (digits2_pos_le D dmax HD Hdmax) as Hd.
    destruct (binary_round_rounds true D e L) as (Hreg & Hr & Hex); try lia.
    split; [exact Hreg | split].
    + eapply rounds_to_compat; [| reflexivity | exact Hr].
      unfold sign_of. change (inject_Z (Z.neg D)) with (- inject_Z (Z.pos D)).
      ring.
    + intros H53. rewrite Hex.
      * unfold sign_of. change (inject_Z (Z.neg D)) with (- inject_Z (Z.pos D)).
        ring.
      * left. apply digits2_pos_le; [exact H53 | lia].
Qed.

Lemma shl_align_value (m : positive) (e ez : Z) :
  (ez <= e)%Z ->
  Z.pos (fst (shl_align m e ez)) = (Z.pos m * 2 ^ (e - ez))%Z.
Proof.
  intros Hle. unfold shl_align.
  destruct (ez - e)%Z as [| d | d] eqn:Hd; try lia; cbn [fst].
  - replace (e - ez)%Z with 0%Z by lia. rewrite Z.pow_0_r. lia.
  - rewrite pos_iter_xO. f_equal. f_equal. lia.
Qed.

Lemma cond_Zopp_inject (s : bool) (z : Z) :
  inject_Z (cond_Zopp s z) == sign_of s * inject_Z z.
Proof.
  destruct s; cbn [cond_Zopp sign_of]; [rewrite inject_Z_opp |]; ring.
Qed.

Lemma cond_Zopp_abs (s : bool) (z : Z) : Z.abs (cond_Zopp s z) = Z.abs z.
Proof. destruct s; cbn [cond_Zopp]; lia. Qed.

Lemma SFregular_weaken (L L' : Z) (x : spec_float) :
  (L <= L')%Z -> SFregular L x -> SFregular L' x.
Proof.
  intros HL. destruct x as [s | s | | s m e]; cbn [SFregular]; try tauto.
  intros [Hd He]. split; [exact Hd | lia].
Qed.

(** Two aligned mantissas: their values and sizes. *)
Lemma aligned (sx : bool) (mx : positive) (ex : Z) (ez : Z) (L : Z) :
  Z.pos (digits2_pos mx) = 53%Z -> (ez <= ex)%Z ->
  inject_Z (cond_Zopp sx (Z.pos (fst (shl_align mx ex ez)))) * 2 ^ ez
    == SFvalue (S754_finite sx mx ex) /\
  (Z.abs (cond_Zopp sx (Z.pos (fst (shl_align mx ex ez))))
     < 2 ^ (53 + (ex - ez)))%Z.
Proof.
  intros Hd Hle. rewrite cond_Zopp_abs, cond_Zopp_inject, shl_align_value
    by exact Hle.
  pose proof (mantissa_bounds mx Hd) as Hm.
  split.
  - rewrite SFvalue_finite, inject_Z_mult, (pow2_inject (ex - ez)) by lia.
    replace ex with ((ex - ez) + ez)%Z at 2 by lia.
    rewrite (pow2_add (ex - ez)). ring.
  - rewrite Z.pow_add_r by lia.
    assert (0 < 2 ^ (ex - ez))%Z by (apply Z.pow_pos_nonneg; lia). nia.
Qed.

Lemma pow2_double (n : Z) : (0 <= n)%Z -> (2 ^ n + 2 ^ n = 2 ^ (n + 1))%Z.
Proof. intros Hn. rewrite Z.pow_add_r by lia. lia. Qed.

Lemma pow2_le (a b : Z) : (0 <= a <= b)%Z -> (2 ^ a <= 2 ^ b)%Z.
Proof. intros H. apply Z.pow_le_mono_r; lia. Qed.

(** The difference of two regular numbers. *)
Lemma SFsub_rounds (L1 L2 : Z) (x y : spec_float) :
  SFregular L1 x -> SFregular L2 y -> (0 <= L1)%Z -> (0 <= L2)%Z ->
  (L1 + L2 + 54 <= 970)%Z ->
  SFregular (L1 + L2 + 54) (SFsub prec emax x y) /\
  rounds_to (SFvalue x - SFvalue y) (SFvalue (SFsub prec emax x y)).
Proof.
  intros Hx Hy HL1 HL2 HL.
  destruct x as [sx | sx | | sx mx ex]; try contradiction;
  destruct y as [sy | sy | | sy my ey]; try contradiction.
  - split; [destruct sx, sy; exact I |].
    apply rounds_to_exact. destruct sx, sy; cbn [SFsub SFvalue]; ring.
  - cbn [SFsub]. split.
    + apply (SFregular_weaken L2); [lia | exact Hy].
    + apply rounds_to_exact. rewrite !SFvalue_finite. cbn [SFvalue].
      destruct sy; cbn [negb sign_of]; ring.
  - cbn [SFsub]. split.
    + apply (SFregular_weaken L1); [lia | exact Hx].
    + apply rounds_to_exact. cbn [SFvalue]. ring.
  - destruct Hx as [Hdx Hex], Hy as [Hdy Hey]. cbn [SFsub].
    set (ez := Z.min ex ey).
    destruct (aligned sx mx ex ez L1 Hdx ltac:(lia)) as [Hvx Hbx].
    destruct (aligned sy my ey ez L2 Hdy ltac:(lia)) as [Hvy Hby].
    set (X := cond_Zopp sx (Z.pos (fst (shl_align mx ex ez)))) in *.
    set (Y := cond_Zopp sy (Z.pos (fst (shl_align my ey ez)))) in *.
    set (dm := (53 + (Z.max ex ey - ez))%Z).
    assert (HX : (Z.abs X < 2 ^ dm)%Z).
    { eapply Z.lt_le_trans; [exact Hbx |]. apply pow2_le. lia. }
    assert (HY : (Z.abs Y < 2 ^ dm)%Z).
    { eapply Z.lt_le_trans; [exact Hby |]. apply pow2_le. lia. }
    pose proof (pow2_double dm ltac:(lia)) as Hdbl.
    destruct (binary_normalize_rounds (X - Y) ez (dm + 1) (L1 + L2 + 54))
      as (Hreg & Hr & _); try lia.
    split; [exact Hreg |].
    eapply rounds_to_compat; [| reflexivity | exact Hr].
    rewrite <- Hvx, <- Hvy. unfold Zminus. rewrite inject_Z_plus, inject_Z_opp.
    ring.
Qed.

(** The sum of two regular numbers; it is exact when it is an integer
    multiple of the smaller unit that 53 bits hold. *)
Lemma SFadd_rounds (L1 L2 : Z) (x y : spec_float) :
  SFregular L1 x -> SFregular L2 y -> (0 <= L1)%Z -> (0 <= L2)%Z ->
  (L1 + L2 + 54 <= 970)%Z ->
  SFregular (L1 + L2 + 54) (SFadd prec emax x y) /\
  rounds_to (SFvalue x + SFvalue y) (SFvalue (SFadd prec emax x y)).
Proof.
  intros Hx Hy HL1 HL2 HL.
  destruct x as [sx | sx | | sx mx ex]; try contradiction;
  destruct y as [sy | sy | | sy my ey]; try contradiction.
  - split; [destruct sx, sy; exact I |].
    apply rounds_to_exact. destruct sx, sy; cbn [SFadd SFvalue]; ring.
  - cbn [SFadd]. split.
    + apply (SFregular_weaken L2); [lia | exact Hy].
    + apply rounds_to_exact. cbn [SFvalue]. ring.
  - cbn [SFadd]. split.
    + apply (SFregular_weaken L1); [lia | exact Hx].
    + apply rounds_to_exact. cbn [SFvalue]. ring.
  - destruct Hx as [Hdx Hex], Hy as [Hdy Hey]. cbn [SFadd].
    set (ez := Z.min ex ey).
    destruct (aligned sx mx ex ez L1 Hdx ltac:(lia)) as [Hvx Hbx].
    destruct (aligned sy my ey ez L2 Hdy ltac:(lia)) as [Hvy Hby].
    set (X := cond_Zopp sx (Z.pos (fst (shl_align mx ex ez)))) in *.
    set (Y := cond_Zopp sy (Z.pos (fst (shl_align my ey ez)))) in *.
    set (dm := (53 + (Z.max ex ey - ez))%Z).
    assert (HX : (Z.abs X < 2 ^ dm)%Z).
    { eapply Z.lt_le_trans; [exact Hbx |]. apply pow2_le. lia. }
    assert (HY : (Z.abs Y < 2 ^ dm)%Z).
    { eapply Z.lt_le_trans; [exact Hby |]. apply pow2_le. lia. }
    pose proof (pow2_double dm ltac:(lia)) as Hdbl.
    destruct (binary_normalize_rounds (X + Y) ez (dm + 1) (L1 + L2 + 54))
      as (Hreg & Hr & _); try lia.
    split; [exact Hreg |].
    eapply rounds_to_compat; [| reflexivity | exact Hr].
    rewrite <- Hvx, <- Hvy. rewrite inject_Z_plus. ring.
Qed.

(** The magnitude of a finite number. *)
Lemma mag_pos (m : positive) (e : Z) : 0 < inject_Z (Z.pos m) * 2 ^ e.
Proof.
  apply Qmult_lt_0_compat; [| apply pow2_pos].
  rewrite <- (Zlt_Qlt 0). lia.
Qed.

Lemma pow2_mono (a b : Z) : (a <= b)%Z -> 2 ^ a <= 2 ^ b.
Proof.
  intros Hab. replace b with (a + (b - a))%Z by lia.
  rewrite pow2_add, <- (pow2_inject (b - a)) by lia.
  assert (H1 : 1 <= inject_Z (2 ^ (b - a))).
  { rewrite <- (Zle_Qle 1).
    assert (0 < 2 ^ (b - a))%Z by (apply Z.pow_pos_nonneg; lia). lia. }
  pose proof (pow2_pos a) as Hp.
  assert (H2 : 2 ^ a * 1 <= 2 ^ a * inject_Z (2 ^ (b - a)))
    by (apply Qmult_le_l; assumption).
  rewrite Qmult_1_r in H2. exact H2.
Qed.

Lemma mag_lt_exp (m1 m2 : positive) (e1 e2 : Z) :
  Z.pos (digits2_pos m1) = 53%Z -> Z.pos (digits2_pos m2) = 53%Z ->
  (e1 < e2)%Z ->
  inject_Z (Z.pos m1) * 2 ^ e1 < inject_Z (Z.pos m2) * 2 ^ e2.
Proof.
  intros Hd1 Hd2 He.
  pose proof (mantissa_bounds m1 Hd1) as [_ Hm1].
  pose proof (mantissa_bounds m2 Hd2) as [Hm2 _].
  apply Qlt_le_trans with (inject_Z (2 ^ 53) * 2 ^ e1).
  - apply Qmult_lt_compat_r; [apply pow2_pos |].
    rewrite <- Zlt_Qlt. exact Hm1.
  - apply Qle_trans with (inject_Z (2 ^ 52) * 2 ^ e2).
    + pose proof (pow2_mono (e1 + 1) e2 ltac:(lia)) as Hp.
      rewrite pow2_add in Hp.
      change (inject_Z (2 ^ 53)) with (inject_Z (2 ^ 52) * 2 ^ 1).
      assert (0 <= inject_Z (2 ^ 52)) by discriminate.
      rewrite <- Qmult_assoc.
      apply Qmult_le_l; [reflexivity |].
      rewrite Qmult_comm. exact Hp.
    + apply Qmult_le_compat_r; [| apply Qlt_le_weak, pow2_pos].
      rewrite <- Zle_Qle. exact Hm2.
Qed.

Lemma mag_lt_iff (m1 m2 : positive) (e1 e2 : Z) :
  Z.pos (digits2_pos m1) = 53%Z -> Z.pos (digits2_pos m2) = 53%Z ->
  (inject_Z (Z.pos m1) * 2 ^ e1 < inject_Z (Z.pos m2) * 2 ^ e2 <->
   match (e1 ?= e2)%Z with
   | Lt => True
   | Gt => False
   | Eq => (m1 ?= m2)%positive = Lt
   end).
Proof.
  intros Hd1 Hd2. destruct (Z.compare_spec e1 e2) as [He | He | He].
  - subst e2. rewrite Pos.compare_lt_iff. split.
    + intros Hlt. apply Qmult_lt_r in Hlt; [| apply pow2_pos].
      rewrite <- Zlt_Qlt in Hlt. exact Hlt.
    + intros Hlt. apply Qmult_lt_r; [apply pow2_pos |].
      rewrite <- Zlt_Qlt. exact Hlt.
  - split; [trivial |]. intros _. apply mag_lt_exp; assumption.
  - split; [| contradiction]. intros Hlt.
    pose proof (mag_lt_exp m2 m1 e2 e1 Hd2 Hd1 He) as Hgt.
    apply (Qlt_irrefl (inject_Z (Z.pos m1) * 2 ^ e1)).
    eapply Qlt_trans; eassumption.
Qed.

(** On regular numbers [<] of binary64 is [<] of the values. *)
Lemma SFltb_regular (L1 L2 : Z) (x y : spec_float) :
  SFregular L1 x -> SFregular L2 y ->
  (SFltb x y = true <-> SFvalue x < SFvalue y).
Proof.
  intros Hx Hy.
  destruct x as [sx | sx | | sx mx ex]; try contradiction;
  destruct y as [sy | sy | | sy my ey]; try contradiction;
  unfold SFltb; cbn [SFcompare].
  - cbn [SFvalue]. split; [discriminate | intros H; inversion H].
  - rewrite SFvalue_finite. cbn [SFvalue]. pose proof (mag_pos my ey) as Hp.
    destruct sy; cbn [sign_of]; split; try discriminate; try reflexivity;
      intros; lra.
  - rewrite SFvalue_finite. cbn [SFvalue]. pose proof (mag_pos mx ex) as Hp.
    destruct sx; cbn [sign_of]; split; try discriminate; try reflexivity;
      intros; lra.
  - destruct Hx as [Hdx _], Hy as [Hdy _].
    rewrite !SFvalue_finite.
    pose proof (mag_pos mx ex) as Hpx. pose proof (mag_pos my ey) as Hpy.
    pose proof (mag_lt_iff mx my ex ey Hdx Hdy) as Hxy.
    pose proof (mag_lt_iff my mx ey ex Hdy Hdx) as Hyx.
    rewrite (Z.compare_antisym ex ey) in Hyx.
    rewrite (Pos.compare_antisym mx my) in Hyx.
    change (Pos.compare_cont Eq mx my) with (mx ?= my)%positive.
    destruct sx, sy; cbn [sign_of].
    + destruct (ex ?= ey)%Z; cbn [CompOpp] in *;
        [destruct (mx ?= my)%positive; cbn [CompOpp] in * | |];
        split; intros HH; try discriminate; try reflexivity;
        try (exfalso; lra);
        try (assert (inject_Z (Z.pos my) * 2 ^ ey < inject_Z (Z.pos mx) * 2 ^ ex)
               by (apply Hyx; trivial); lra);
        try (assert (inject_Z (Z.pos my) * 2 ^ ey < inject_Z (Z.pos mx) * 2 ^ ex)
               by lra;
             apply Hyx in H; first [discriminate | contradiction]).
    + split; [intros _; lra | reflexivity].
    + split; [discriminate | intros; lra].
    + destruct (ex ?= ey)%Z;
        [destruct (mx ?= my)%positive | |];
        split; intros HH; try discriminate; try reflexivity;
        try (rewrite !Qmult_1_l; apply Hxy; trivial);
        try (assert (H : inject_Z (Z.pos mx) * 2 ^ ex < inject_Z (Z.pos my) * 2 ^ ey)
               by lra;
             apply Hxy in H; first [discriminate | contradiction]).
Qed.

Lemma SFregular_valid (L : Z) (x : spec_float) :
  SFregular L x -> (L <= 971)%Z -> valid_binary x = true.
Proof.
  intros Hx HL. unfold valid_binary.
  destruct x as [s | s | | s m e]; try contradiction;
    cbn [SpecFloat.valid_binary]; [reflexivity |].
  destruct Hx as [Hd He]. unfold bounded, canonical_mantissa, fexp.
  rewrite Hd. change (SpecFloat.emin prec emax) with (-1074)%Z.
  change prec with 53%Z. change emax with 1024%Z.
  apply andb_true_intro. split; [apply Z.eqb_eq | apply Z.leb_le]; lia.
Qed.

End SpecOps.

(** ** The geometry in binary64 *)

Section Patterns.
Local Open Scope Q_scope.

Lemma Qmult_le_nonneg_l (z x y : Q) : 0 <= z -> x <= y -> z * x <= z * y.
Proof.
  intros Hz Hxy. rewrite !(Qmult_comm z). apply Qmult_le_compat_r; assumption.
Qed.

Lemma rounds_to_nonneg (x v : Q) :
  rounds_to x v -> 0 <= x ->
  x * (1 - ulp_bound) <= v /\ v <= x * (1 + ulp_bound).
Proof.
  intros (delta & Hd1 & Hd2 & Hv) Hx. rewrite Hv.
  split; apply Qmult_le_nonneg_l; try assumption; lra.
Qed.

Lemma rounds_to_opp (x v : Q) : rounds_to x v -> rounds_to (- x) (- v).
Proof.
  intros (delta & Hd1 & Hd2 & Hv). exists delta.
  repeat split; try assumption. rewrite Hv. ring.
Qed.

Lemma rounds_to_nonpos (x v : Q) :
  rounds_to x v -> x <= 0 ->
  x * (1 + ulp_bound) <= v /\ v <= x * (1 - ulp_bound).
Proof.
  intros Hr Hx. apply rounds_to_opp in Hr.
  assert (H0 : 0 <= - x) by lra.
  destruct (rounds_to_nonneg _ _ Hr H0) as [H1 H2]. split; lra.
Qed.

(** The offset that centres a part [s] of a side [F], computed as
    [(F - s) / 2] with two roundings. *)
Lemma centre_pattern (F s d x : Q) :
  0 < F -> 0 < s -> s <= F * (1 + 3 * ulp_bound) ->
  rounds_to (F - s) d -> rounds_to (d / 2) x ->
  - (tolerance * F) <= x /\ x + s <= F + tolerance * F /\
  within F (x + s / 2) (F / 2).
Proof.
  intros HF Hs Hle Hd Hx. unfold within.
  unfold Qdiv in *. change (/ 2) with (1 # 2) in *.
  destruct (Qlt_le_dec (F - s) 0) as [Hneg | Hpos].
  - assert (H0 : F - s <= 0) by lra.
    destruct (rounds_to_nonpos _ _ Hd H0) as [Hd1 Hd2].
    assert (H1 : d * (1 # 2) <= 0) by (unfold ulp_bound in *; lra).
    destruct (rounds_to_nonpos _ _ Hx H1) as [Hx1 Hx2].
    unfold ulp_bound, tolerance in *. repeat split; lra.
  - destruct (rounds_to_nonneg _ _ Hd Hpos) as [Hd1 Hd2].
    assert (H1 : 0 <= d * (1 # 2)) by (unfold ulp_bound in *; lra).
    destruct (rounds_to_nonneg _ _ Hx H1) as [Hx1 Hx2].
    unfold ulp_bound, tolerance in *. repeat split; lra.
Qed.

(** The side cut by a multiplication: [w = G * r] for a ratio [r] that
    the comparison found not above [r'], the ratio of the sides. *)
Lemma mul_pattern (F G rho r r' w : Q) :
  0 < F -> 0 < G -> 0 < rho ->
  rounds_to rho r -> rounds_to (F / G) r' -> r <= r' ->
  rounds_to (G * r) w ->
  0 < w /\ w <= F * (1 + 3 * ulp_bound) /\ within rho (w / G) rho.
Proof.
  intros HF HG Hrho Hr Hr' Hle Hw. unfold within.
  assert (HFG : 0 <= F / G) by (apply Qlt_le_weak, Qlt_shift_div_l; lra).
  destruct (rounds_to_nonneg _ _ Hr (Qlt_le_weak _ _ Hrho)) as [Hr1 Hr2].
  destruct (rounds_to_nonneg _ _ Hr' HFG) as [_ Hr'2].
  assert (Hrpos : 0 < r) by (unfold ulp_bound in *; lra).
  assert (HP : 0 < G * r) by (apply Qmult_lt_0_compat; assumption).
  assert (HPF : G * r <= F * (1 + ulp_bound)).
  { apply Qle_trans with (G * (F / G * (1 + ulp_bound))).
    - apply Qmult_le_nonneg_l; lra.
    - apply Qle_lteq. right. field. lra. }
  destruct (rounds_to_nonneg _ _ Hw (Qlt_le_weak _ _ HP)) as [Hw1 Hw2].
  assert (Ha1 : r * (1 - ulp_bound) <= w / G).
  { apply Qle_shift_div_l; [exact HG |].
    eapply Qle_trans; [| exact Hw1]. apply Qle_lteq. right. ring. }
  assert (Ha2 : w / G <= r * (1 + ulp_bound)).
  { apply Qle_shift_div_r; [exact HG |].
    eapply Qle_trans; [exact Hw2 |]. apply Qle_lteq. right. ring. }
  set (a := w / G) in *. set (P := G * r) in *.
  unfold ulp_bound, tolerance in *. repeat split; lra.
Qed.

(** The side cut by a division: [h = G / r] for a ratio [r] that the
    comparison found not below [r'], the ratio of the sides. *)
Lemma div_pattern (F G rho r r' h : Q) :
  0 < F -> 0 < G -> 0 < rho ->
  rounds_to rho r -> rounds_to (G / F) r' -> r' <= r ->
  rounds_to (G / r) h ->
  0 < h /\ h <= F * (1 + 3 * ulp_bound) /\ within rho (G / h) rho.
Proof.
  intros HF HG Hrho Hr Hr' Hle Hh. unfold within.
  assert (HGF : 0 < G / F) by (apply Qlt_shift_div_l; lra).
  destruct (rounds_to_nonneg _ _ Hr (Qlt_le_weak _ _ Hrho)) as [Hr1 Hr2].
  destruct (rounds_to_nonneg _ _ Hr' (Qlt_le_weak _ _ HGF)) as [Hr'1 _].
  assert (Hr'pos : 0 < r') by (unfold ulp_bound in *; lra).
  assert (Hrpos : 0 < r) by lra.
  assert (Ht : 0 < G / r) by (apply Qlt_shift_div_l; lra).
  assert (HtF : G / r * (1 - ulp_bound) <= F).
  { assert (H1 : G * (1 - ulp_bound) <= F * r).
    { apply Qle_trans with (F * (G / F * (1 - ulp_bound))).
      - apply Qle_lteq. right. field. lra.
      - apply Qmult_le_nonneg_l; lra. }
    apply Qle_trans with (G * (1 - ulp_bound) / r).
    - apply Qle_lteq. right. field. lra.
    - apply Qle_shift_div_r; [exact Hrpos | exact H1]. }
  destruct (rounds_to_nonneg _ _ Hh (Qlt_le_weak _ _ Ht)) as [Hh1 Hh2].
  assert (HtG : G == G / r * r) by (field; lra).
  set (t := G / r) in *.
  assert (Hhpos : 0 < h) by (unfold ulp_bound in *; lra).
  assert (Htr1 : t * (rho * (1 - ulp_bound)) <= G).
  { rewrite HtG. apply Qmult_le_nonneg_l; lra. }
  assert (Htr2 : G <= t * (rho * (1 + ulp_bound))).
  { rewrite HtG. apply Qmult_le_nonneg_l; lra. }
  assert (Ha1 : rho - tolerance * rho <= G / h).
  { apply Qle_shift_div_l; [exact Hhpos |].
    apply Qle_trans with ((rho - tolerance * rho) * (t * (1 + ulp_bound))).
    - apply Qmult_le_nonneg_l; [unfold tolerance; lra | exact Hh2].
    - eapply Qle_trans; [| exact Htr1].
      assert (E : (rho - tolerance * rho) * (t * (1 + ulp_bound))
                  == t * (rho * ((1 - tolerance) * (1 + ulp_bound)))) by ring.
      rewrite E.
      apply Qmult_le_nonneg_l; [lra |].
      apply Qmult_le_nonneg_l; [lra |]. unfold tolerance, ulp_bound. lra. }
  assert (Ha2 : G / h <= rho + tolerance * rho).
  { apply Qle_shift_div_r; [exact Hhpos |].
    apply Qle_trans with ((rho + tolerance * rho) * (t * (1 - ulp_bound))).
    - eapply Qle_trans; [exact Htr2 |].
      assert (E : (rho + tolerance * rho) * (t * (1 - ulp_bound))
                  == t * (rho * ((1 + tolerance) * (1 - ulp_bound)))) by ring.
      rewrite E.
      apply Qmult_le_nonneg_l; [lra |].
      apply Qmult_le_nonneg_l; [lra |]. unfold tolerance, ulp_bound. lra.
    - apply Qmult_le_nonneg_l; [unfold tolerance; lra | exact Hh1]. }
  repeat split; try assumption.
  unfold ulp_bound in *. lra.
Qed.

End Patterns.

Section Binary64.
Local Open Scope Q_scope.

Lemma of_int_regular (n : Z) :
  (Z.abs n < 2 ^ 53)%Z ->
  regular 52 (float_of_Z n) /\ float_value (float_of_Z n) == inject_Z n.
Proof.
  intros Hn. unfold regular, float_value, float_of_Z.
  destruct (binary_normalize_rounds n 0 53 52) as (Hreg & _ & Hex); try lia.
  rewrite Prim2SF_SF2Prim by (apply (SFregular_valid 52); [exact Hreg | lia]).
  split; [exact Hreg |]. rewrite (Hex Hn). change (2 ^ 0) with 1. ring.
Qed.

Lemma mul_rounds (L1 L2 : Z) (x y : float) :
  regular L1 x -> regular L2 y -> (L1 + L2 + 54 <= 970)%Z ->
  regular (L1 + L2 + 54) (x * y)%float /\
  rounds_to (float_value x * float_value y) (float_value (x * y)%float).
Proof.
  unfold regular, float_value. rewrite mul_spec. apply SFmul_rounds.
Qed.

Lemma div_rounds (L1 L2 : Z) (x y : float) :
  regular L1 x -> regular L2 y -> ~ float_value y == 0 ->
  (L1 + L2 + 54 <= 970)%Z ->
  regular (L1 + L2 + 54) (x / y)%float /\
  rounds_to (float_value x / float_value y) (float_value (x / y)%float).
Proof.
  unfold regular, float_value. rewrite div_spec. apply SFdiv_rounds.
Qed.

Lemma sub_rounds (L1 L2 : Z) (x y : float) :
  regular L1 x -> regular L2 y -> (0 <= L1)%Z -> (0 <= L2)%Z ->
  (L1 + L2 + 54 <= 970)%Z ->
  regular (L1 + L2 + 54) (x - y)%float /\
  rounds_to (float_value x - float_value y) (float_value (x - y)%float).
Proof.
  unfold regular, float_value. rewrite sub_spec. apply SFsub_rounds.
Qed.

Lemma ltb_regular (L1 L2 : Z) (x y : float) :
  regular L1 x -> regular L2 y ->
  ((x <? y)%float = true <-> float_value x < float_value y).
Proof.
  unfold regular, float_value. rewrite FloatAxioms.ltb_spec.
  apply SFltb_regular.
Qed.

Lemma float_to_Q_regular (L : Z) (x : float) :
  regular L x -> exists q : Q, float_to_Q x = Some q /\ q == float_value x.
Proof.
  unfold regular, float_value, float_to_Q.
  destruct (Prim2SF x) as [s | s | | s m e]; try contradiction; intros _.
  - exists 0. split; reflexivity.
  - eexists. split; [reflexivity |]. rewrite Qred_correct. reflexivity.
Qed.

Lemma of_int_two : regular 52 (float_of_Z 2) /\ float_value (float_of_Z 2) == 2.
Proof. apply (of_int_regular 2). reflexivity. Qed.

Lemma inject_Z_pos (n : Z) : (0 < n)%Z -> 0 < inject_Z n.
Proof. intros Hn. rewrite <- (Zlt_Qlt 0). exact Hn. Qed.

(** The aspect ratio of two sizes, as the program computes it. *)
Lemma aspect_rounds (a b : Z) :
  (0 < a < 2 ^ 53)%Z -> (0 < b < 2 ^ 53)%Z ->
  regular 158 (float_of_Z a / float_of_Z b)%float /\
  rounds_to (inject_Z a / inject_Z b)
            (float_value (float_of_Z a / float_of_Z b)%float).
Proof.
  intros Ha Hb.
  destruct (of_int_regular a ltac:(lia)) as [Hra Hva].
  destruct (of_int_regular b ltac:(lia)) as [Hrb Hvb].
  pose proof (inject_Z_pos b ltac:(lia)) as Hbpos.
  destruct (div_rounds 52 52 _ _ Hra Hrb) as [Hreg Hr]; [lra | lia |].
  split; [exact Hreg |].
  eapply rounds_to_compat; [| reflexivity | exact Hr].
  rewrite Hva, Hvb. reflexivity.
Qed.

(** Half the difference between a side and its part. *)
Lemma offset_rounds (F : Z) (w : float) :
  (0 < F < 2 ^ 53)%Z -> regular 264 w ->
  exists d : Q,
    regular 476 ((float_of_Z F - w) / float_of_Z 2)%float /\
    rounds_to (inject_Z F - float_value w) d /\
    rounds_to (d / 2) (float_value ((float_of_Z F - w) / float_of_Z 2)%float).
Proof.
  intros HF Hw.
  destruct (of_int_regular F ltac:(lia)) as [HrF HvF].
  destruct of_int_two as [Hr2 Hv2].
  destruct (sub_rounds 52 264 _ _ HrF Hw) as [Hregd Hd]; try lia.
  destruct (div_rounds 370 52 _ _ Hregd Hr2) as [Hregx Hx]; [lra | lia |].
  exists (float_value (float_of_Z F - w)%float).
  split; [exact Hregx |]. split.
  - eapply rounds_to_compat; [| reflexivity | exact Hd].
    rewrite HvF. reflexivity.
  - eapply rounds_to_compat; [| reflexivity | exact Hx].
    rewrite Hv2. reflexivity.
Qed.

Lemma rounds_to_pos (x v : Q) : rounds_to x v -> 0 < x -> 0 < v.
Proof.
  intros Hr Hx.
  destruct (rounds_to_nonneg _ _ Hr (Qlt_le_weak _ _ Hx)) as [H1 _].
  unfold ulp_bound in *. lra.
Qed.

(** The branch that multiplies: the part [w = G * r] of the side [F]
    and its offset [x = (F - w) / 2]. *)
Lemma mul_branch (F G : Z) (r r' : float) (rho : Q) :
  (0 < F < 2 ^ 53)%Z -> (0 < G < 2 ^ 53)%Z -> 0 < rho ->
  regular 158 r -> rounds_to rho (float_value r) ->
  rounds_to (inject_Z F / inject_Z G) (float_value r') ->
  float_value r <= float_value r' ->
  let w := (float_of_Z G * r)%float in
  let x := ((float_of_Z F - w) / float_of_Z 2)%float in
  regular 264 w /\ regular 476 x /\
  0 < float_value w /\
  - (tolerance * inject_Z F) <= float_value x /\
  float_value x + float_value w <= inject_Z F + tolerance * inject_Z F /\
  within (inject_Z F) (float_value x + float_value w / 2) (inject_Z F / 2) /\
  within rho (float_value w / inject_Z G) rho.
Proof.
  intros HF HG Hrho Hreg Hr Hr' Hle. cbv zeta.
  destruct (of_int_regular G ltac:(lia)) as [HrG HvG].
  destruct (mul_rounds 52 158 _ _ HrG Hreg ltac:(lia)) as [Hregw Hw].
  destruct (offset_rounds F _ HF Hregw) as (d & Hregx & Hd & Hx).
  pose proof (inject_Z_pos F ltac:(lia)) as HFpos.
  pose proof (inject_Z_pos G ltac:(lia)) as HGpos.
  destruct (mul_pattern (inject_Z F) (inject_Z G) rho (float_value r)
              (float_value r') (float_value (float_of_Z G * r)%float))
    as (Hwpos & Hwle & Hasp); try assumption.
  { eapply rounds_to_compat; [| reflexivity | exact Hw].
    rewrite HvG. reflexivity. }
  destruct (centre_pattern (inject_Z F) _ d _ HFpos Hwpos Hwle Hd Hx)
    as (Hx1 & Hx2 & Hx3).
  repeat (split; [assumption |]). exact Hasp.
Qed.

(** The branch that divides: the part [h = G / r] of the side [F] and
    its offset [y = (F - h) / 2]. *)
Lemma div_branch (F G : Z) (r r' : float) (rho : Q) :
  (0 < F < 2 ^ 53)%Z -> (0 < G < 2 ^ 53)%Z -> 0 < rho ->
  regular 158 r -> rounds_to rho (float_value r) ->
  rounds_to (inject_Z G / inject_Z F) (float_value r') ->
  float_value r' <= float_value r ->
  let h := (float_of_Z G / r)%float in
  let y := ((float_of_Z F - h) / float_of_Z 2)%float in
  regular 264 h /\ regular 476 y /\
  0 < float_value h /\
  - (tolerance * inject_Z F) <= float_value y /\
  float_value y + float_value h <= inject_Z F + tolerance * inject_Z F /\
  within (inject_Z F) (float_value y + float_value h / 2) (inject_Z F / 2) /\
  within rho (inject_Z G / float_value h) rho.
Proof.
  intros HF HG Hrho Hreg Hr Hr' Hle. cbv zeta.
  destruct (of_int_regular G ltac:(lia)) as [HrG HvG].
  pose proof (rounds_to_pos _ _ Hr Hrho) as Hrpos.
  destruct (div_rounds 52 158 _ _ HrG Hreg) as [Hregh Hh]; [lra | lia |].
  destruct (offset_rounds F _ HF Hregh) as (d & Hregy & Hd & Hy).
  pose proof (inject_Z_pos F ltac:(lia)) as HFpos.
  pose proof (inject_Z_pos G ltac:(lia)) as HGpos.
  destruct (div_pattern (inject_Z F) (inject_Z G) rho (float_value r)
              (float_value r') (float_value (float_of_Z G / r)%float))
    as (Hhpos & Hhle & Hasp); try assumption.
  { eapply rounds_to_compat; [| reflexivity | exact Hh].
    rewrite HvG. reflexivity. }
  destruct (centre_pattern (inject_Z F) _ d _ HFpos Hhpos Hhle Hd Hy)
    as (Hy1 & Hy2 & Hy3).
  repeat (split; [assumption |]). exact Hasp.
Qed.

Lemma float_to_Q_zero : float_to_Q (float_of_Z 0) = Some 0.
Proof. reflexivity. Qed.

Lemma float_to_Q_of_int (n : Z) :
  (0 < n < 2 ^ 53)%Z ->
  exists q : Q, float_to_Q (float_of_Z n) = Some q /\ q == inject_Z n.
Proof.
  intros Hn. destruct (of_int_regular n ltac:(lia)) as [Hreg Hv].
  destruct (float_to_Q_regular 52 _ Hreg) as (q & Hq & Hqv).
  exists q. split; [exact Hq |]. rewrite Hqv. exact Hv.
Qed.

(** The comparison of the two aspect ratios, on their values. *)
Lemma gt_aspects (a b c d : Z) :
  (0 < a < 2 ^ 53)%Z -> (0 < b < 2 ^ 53)%Z ->
  (0 < c < 2 ^ 53)%Z -> (0 < d < 2 ^ 53)%Z ->
  let ra := (float_of_Z a / float_of_Z b)%float in
  let rc := (float_of_Z c / float_of_Z d)%float in
  if (rc <? ra)%float then float_value rc <= float_value ra
  else float_value ra <= float_value rc.
Proof.
  intros Ha Hb Hc Hd. cbv zeta.
  destruct (aspect_rounds a b Ha Hb) as [Hra _].
  destruct (aspect_rounds c d Hc Hd) as [Hrc _].
  pose proof (ltb_regular 158 158 _ _ Hrc Hra) as Hlt.
  destruct (_ <? _)%float.
  - apply Qlt_le_weak. apply Hlt. reflexivity.
  - apply Qnot_lt_le. intros H. apply Hlt in H. discriminate.
Qed.

Lemma cover_binary64_geometry (inW inH outW outH : Z) :
  (0 < inW < 2 ^ 53)%Z -> (0 < inH < 2 ^ 53)%Z ->
  (0 < outW < 2 ^ 53)%Z -> (0 < outH < 2 ^ 53)%Z ->
  let r := calculateCropResize (N:=float) (of_int inW) (of_int inH)
             (of_int outW) (of_int outH) "cover" in
  exists x y w h : Q,
    (float_to_Q (srcX r) = Some x /\ float_to_Q (srcY r) = Some y /\
     float_to_Q (srcW r) = Some w /\ float_to_Q (srcH r) = Some h) /\
    (- (tolerance * inject_Z inW) <= x /\ - (tolerance * inject_Z inH) <= y /\
     0 < w /\ 0 < h /\
     x + w <= inject_Z inW + tolerance * inject_Z inW /\
     y + h <= inject_Z inH + tolerance * inject_Z inH) /\
    (within (inject_Z inW) (x + w / 2) (inject_Z inW / 2) /\
     within (inject_Z inH) (y + h / 2) (inject_Z inH / 2)) /\
    within (inject_Z outW / inject_Z outH) (w / h)
           (inject_Z outW / inject_Z outH).
Proof.
  intros HinW HinH HoutW HoutH. cbv zeta.
  pose proof (inject_Z_pos inW ltac:(lia)) as HinWp.
  pose proof (inject_Z_pos inH ltac:(lia)) as HinHp.
  pose proof (inject_Z_pos outW ltac:(lia)) as HoutWp.
  pose proof (inject_Z_pos outH ltac:(lia)) as HoutHp.
  assert (Hrho : 0 < inject_Z outW / inject_Z outH)
    by (apply Qlt_shift_div_l; lra).
  destruct (aspect_rounds inW inH HinW HinH) as [Hrega Hra].
  destruct (aspect_rounds outW outH HoutW HoutH) as [Hregb Hrb].
  pose proof (gt_aspects inW inH outW outH HinW HinH HoutW HoutH) as Hgt.
  cbv zeta in Hgt.
  unfold calculateCropResize.
  destruct (decide ("cover" = "contain")) as [Hne | _]; [discriminate Hne |].
  destruct (decide ("cover" = "cover")) as [_ | Hne]; [| contradiction].
  cbn [gt of_int div mul sub binary64].
  destruct (_ <? _)%float.
  - cbn [srcX srcY srcW srcH].
    destruct (mul_branch inW inH _ _ _ HinW HinH Hrho Hregb Hrb Hra Hgt)
      as (Hregw & Hregx & Hw & Hx1 & Hx2 & Hx3 & Hasp).
    destruct (float_to_Q_regular _ _ Hregw) as (w & Hwq & Hwv).
    destruct (float_to_Q_regular _ _ Hregx) as (x & Hxq & Hxv).
    destruct (float_to_Q_of_int inH HinH) as (h & Hhq & Hhv).
    exists x, 0, w, h.
    split; [repeat split; assumption || exact float_to_Q_zero |].
    unfold within in *. rewrite Hwv, Hxv, Hhv.
    unfold tolerance in *. unfold Qdiv in *. change (/ 2) with (1 # 2) in *.
    repeat split; try lra; try tauto.
  - cbn [srcX srcY srcW srcH].
    destruct (div_branch inH inW _ _ _ HinH HinW Hrho Hregb Hrb Hra Hgt)
      as (Hregh & Hregy & Hh & Hy1 & Hy2 & Hy3 & Hasp).
    destruct (float_to_Q_regular _ _ Hregh) as (h & Hhq & Hhv).
    destruct (float_to_Q_regular _ _ Hregy) as (y & Hyq & Hyv).
    destruct (float_to_Q_of_int inW HinW) as (w & Hwq & Hwv).
    exists 0, y, w, h.
    split; [repeat split; assumption || exact float_to_Q_zero |].
    unfold within in *. rewrite Hwv, Hyv, Hhv.
    unfold tolerance in *. unfold Qdiv in *. change (/ 2) with (1 # 2) in *.
    repeat split; try lra; try tauto.
Qed.

Lemma contain_binary64_geometry (inW inH outW outH : Z) :
  (0 < inW < 2 ^ 53)%Z -> (0 < inH < 2 ^ 53)%Z ->
  (0 < outW < 2 ^ 53)%Z -> (0 < outH < 2 ^ 53)%Z ->
  let r := calculateCropResize (N:=float) (of_int inW) (of_int inH)
             (of_int outW) (of_int outH) "contain" in
  exists x y w h : Q,
    (float_to_Q (destX r) = Some x /\ float_to_Q (destY r) = Some y /\
     float_to_Q (destW r) = Some w /\ float_to_Q (destH r) = Some h) /\
    (- (tolerance * inject_Z outW) <= x /\ - (tolerance * inject_Z outH) <= y /\
     0 < w /\ 0 < h /\
     x + w <= inject_Z outW + tolerance * inject_Z outW /\
     y + h <= inject_Z outH + tolerance * inject_Z outH) /\
    (within (inject_Z outW) (x + w / 2) (inject_Z outW / 2) /\
     within (inject_Z outH) (y + h / 2) (inject_Z outH / 2)) /\
    within (inject_Z inW / inject_Z inH) (w / h)
           (inject_Z inW / inject_Z inH).
Proof.
  intros HinW HinH HoutW HoutH. cbv zeta.
  pose proof (inject_Z_pos inW ltac:(lia)) as HinWp.
  pose proof (inject_Z_pos inH ltac:(lia)) as HinHp.
  pose proof (inject_Z_pos outW ltac:(lia)) as HoutWp.
  pose proof (inject_Z_pos outH ltac:(lia)) as HoutHp.
  assert (Hrho : 0 < inject_Z inW / inject_Z inH)
    by (apply Qlt_shift_div_l; lra).
  destruct (aspect_rounds inW inH HinW HinH) as [Hrega Hra].
  destruct (aspect_rounds outW outH HoutW HoutH) as [Hregb Hrb].
  pose proof (gt_aspects inW inH outW outH HinW HinH HoutW HoutH) as Hgt.
  cbv zeta in Hgt.
  unfold calculateCropResize.
  destruct (decide ("contain" = "contain")) as [_ | Hne]; [| contradiction].
  cbn [gt of_int div mul sub binary64].
  destruct (_ <? _)%float.
  - cbn [destX destY destW destH].
    destruct (div_branch outH outW _ _ _ HoutH HoutW Hrho Hrega Hra Hrb Hgt)
      as (Hregh & Hregy & Hh & Hy1 & Hy2 & Hy3 & Hasp).
    destruct (float_to_Q_regular _ _ Hregh) as (h & Hhq & Hhv).
    destruct (float_to_Q_regular _ _ Hregy) as (y & Hyq & Hyv).
    destruct (float_to_Q_of_int outW HoutW) as (w & Hwq & Hwv).
    exists 0, y, w, h.
    split; [repeat split; assumption || exact float_to_Q_zero |].
    unfold within in *. rewrite Hwv, Hyv, Hhv.
    unfold tolerance in *. unfold Qdiv in *. change (/ 2) with (1 # 2) in *.
    repeat split; try lra; try tauto.
  - cbn [destX destY destW destH].
    destruct (mul_branch outW outH _ _ _ HoutW HoutH Hrho Hrega Hra Hrb Hgt)
      as (Hregw & Hregx & Hw & Hx1 & Hx2 & Hx3 & Hasp).
    destruct (float_to_Q_regular _ _ Hregw) as (w & Hwq & Hwv).
    destruct (float_to_Q_regular _ _ Hregx) as (x & Hxq & Hxv).
    destruct (float_to_Q_of_int outH HoutH) as (h & Hhq & Hhv).
    exists x, 0, w, h.
    split; [repeat split; assumption || exact float_to_Q_zero |].
    unfold within in *. rewrite Hwv, Hxv, Hhv.
    unfold tolerance in *. unfold Qdiv in *. change (/ 2) with (1 # 2) in *.
    repeat split; try lra; try tauto.
Qed.

End Binary64.

(** ** Sums of integers in binary64 *)

Section IntegerSums.

(** [binary_round] does not depend on how an integer below [2^53] is
    split into a mantissa and a power of two. *)
Lemma binary_round_scale (s : bool) (n D : positive) (j : Z) :
  0 <= j -> Z.pos D = Z.pos n * 2 ^ j -> Z.pos n < 2 ^ 53 ->
  binary_round prec emax s D (- j) = binary_round prec emax s n 0.
Proof.
  intros Hj HD Hn.
  pose proof (digits2_pos_le n 53 Hn ltac:(lia)) as Hdn.
  assert (Hdn1 : 1 <= Z.pos (digits2_pos n)) by lia.
  pose proof (digits2_pos_shift n D j Hj HD) as HdD.
  destruct (binary_round_short s n 0) as (k & Hk & Hdk & ->); try lia.
  destruct (Z.le_gt_cases (Z.pos (digits2_pos D)) 53) as [Hshort | Hlong].
  - destruct (binary_round_short s D (- j)) as (k' & Hk' & _ & ->); try lia.
    f_equal; [| lia].
    apply Pos2Z.inj. rewrite Hk', Hk, HD, HdD.
    rewrite <- Z.mul_assoc, <- Z.pow_add_r by lia. do 2 f_equal. lia.
  - rewrite (binary_round_long s D (- j)) by lia.
    rewrite (binary_round_aux_exact s D k (- j)); try lia.
    + f_equal. lia.
    + rewrite Hk, HD, HdD.
      rewrite <- !Z.mul_assoc, <- Z.pow_add_r by lia. do 2 f_equal. lia.
Qed.

(** The number [binary_normalize] makes of a positive integer below
    [2^53]. *)
Lemma normalize_small (n : positive) :
  Z.pos n < 2 ^ 53 ->
  exists k : positive,
    binary_normalize prec emax (Z.pos n) 0 false
      = S754_finite false k (Z.pos (digits2_pos n) - 53) /\
    Z.pos k = Z.pos n * 2 ^ (53 - Z.pos (digits2_pos n)) /\
    Z.pos (digits2_pos k) = 53 /\
    Z.pos (digits2_pos n) <= 53.
Proof.
  intros Hn. pose proof (digits2_pos_le n 53 Hn ltac:(lia)) as Hdn.
  destruct (binary_round_short false n 0) as (k & Hk & Hdk & Heq); try lia.
  exists k. cbn [binary_normalize]. rewrite Heq.
  repeat split; assumption.
Qed.

Lemma SFadd_integers (a b : positive) :
  Z.pos a + Z.pos b < 2 ^ 53 ->
  SFadd prec emax (binary_normalize prec emax (Z.pos a) 0 false)
                  (binary_normalize prec emax (Z.pos b) 0 false)
    = binary_normalize prec emax (Z.pos a + Z.pos b) 0 false.
Proof.
  intros Hsum.
  destruct (normalize_small a ltac:(lia)) as (ka & -> & Hka & Hdka & Hda).
  destruct (normalize_small b ltac:(lia)) as (kb & -> & Hkb & Hdkb & Hdb).
  set (ea := Z.pos (digits2_pos a) - 53) in *.
  set (eb := Z.pos (digits2_pos b) - 53) in *.
  cbn [SFadd cond_Zopp]. set (ez := Z.min ea eb).
  assert (Hea : ea <= 0) by (subst ea; lia).
  assert (Heb : eb <= 0) by (subst eb; lia).
  pose proof (shl_align_value ka ea ez ltac:(lia)) as Ha.
  pose proof (shl_align_value kb eb ez ltac:(lia)) as Hb.
  change (Z.pos (fst (shl_align ka ea ez)) + Z.pos (fst (shl_align kb eb ez)))
    with (Z.pos (fst (shl_align ka ea ez) + fst (shl_align kb eb ez))).
  change (Z.pos a + Z.pos b) with (Z.pos (a + b)).
  cbn [binary_normalize].
  replace ez with (- (- ez)) at 3 by lia.
  apply binary_round_scale; [lia | | rewrite Pos2Z.inj_add; lia].
  rewrite !Pos2Z.inj_add, Ha, Hb, Hka, Hkb.
  replace (53 - Z.pos (digits2_pos a)) with (- ea) by (subst ea; lia).
  replace (53 - Z.pos (digits2_pos b)) with (- eb) by (subst eb; lia).
  rewrite <- !Z.mul_assoc, <- !Z.pow_add_r by lia.
  replace (- ea + (ea - ez)) with (- ez) by lia.
  replace (- eb + (eb - ez)) with (- ez) by lia. ring.
Qed.

Lemma float_of_Z_spec (n : Z) :
  0 <= n < 2 ^ 53 ->
  Prim2SF (float_of_Z n) = binary_normalize prec emax n 0 false.
Proof.
  intros Hn. unfold float_of_Z. apply Prim2SF_SF2Prim.
  destruct (binary_normalize_rounds n 0 53 52) as (Hreg & _); try lia.
  apply (SFregular_valid 52); [exact Hreg | lia].
Qed.

(** Adding two non-negative integers whose sum is below [2^53] is exact
    in binary64. *)
Lemma add_integers_exact (a b : Z) :
  0 <= a -> 0 <= b -> a + b < 2 ^ 53 ->
  (float_of_Z a + float_of_Z b)%float = float_of_Z (a + b).
Proof.
  intros Ha Hb Hsum. apply Prim2SF_inj.
  rewrite add_spec, !float_of_Z_spec by lia. unfold SF64add.
  destruct a as [| a | a]; [| | lia]; destruct b as [| b | b]; try lia.
  - reflexivity.
  - destruct (normalize_small b ltac:(lia)) as (k & Hk & _).
    rewrite Z.add_0_l, Hk. reflexivity.
  - destruct (normalize_small a ltac:(lia)) as (k & Hk & _).
    rewrite Z.add_0_r, Hk. reflexivity.
  - apply SFadd_integers. exact Hsum.
Qed.

End IntegerSums.

(** ** The video processor *)

Section ProcessorFacts.

(** [processFrame] does nothing on a processor that is not processing. *)
Lemma processFrame_idle (fitMode : string) (this : Processor) (w : World) :
  isProcessing this = false -> processFrame fitMode this w = (this, w).
Proof. intros Hidle. unfold processFrame. rewrite Hidle. reflexivity. Qed.

(** It touches neither tracks nor streams in any case. *)
Lemma processFrame_media (fitMode : string) (this : Processor) (w : World) :
  tracks (processFrame fitMode this w).2 = tracks w /\
  streams (processFrame fitMode this w).2 = streams w.
Proof.
  unfold processFrame.
  destruct (negb (isProcessing this)); [auto |].
  destruct (inputVideo this) as [video |]; [| auto].
  destruct (nonzero (videoWidth video) && nonzero (videoHeight video)); cbn; auto.
Qed.

(** Stopping the tracks of a list ends exactly those. *)
Lemma track_stop_lookup (w : World) (t u : nat) :
  tracks (track_stop w t) !! u =
    if decide (t = u) then ended <$> tracks w !! u else tracks w !! u.
Proof.
  unfold track_stop; cbn. case_decide as Htu.
  - subst u. apply list_lookup_alter_eq.
  - apply list_lookup_alter_ne, Htu.
Qed.

Lemma stop_all_lookup (ts : list nat) (w : World) (u : nat) :
  tracks (foldl track_stop w ts) !! u =
    if bool_decide (u ∈ ts) then ended <$> tracks w !! u else tracks w !! u.
Proof.
  revert w. induction ts as [| t ts IH]; intros w; cbn [foldl].
  - rewrite bool_decide_eq_false_2 by apply not_elem_of_nil. reflexivity.
  - rewrite IH, track_stop_lookup.
    destruct (decide (t = u)) as [-> | Hne].
    + rewrite (bool_decide_eq_true_2 (u ∈ u :: ts)) by apply list_elem_of_here.
      destruct (bool_decide (u ∈ ts)); [| reflexivity].
      destruct (tracks w !! u); reflexivity.
    + destruct (bool_decide_reflect (u ∈ ts)) as [Hin | Hnin].
      * rewrite bool_decide_eq_true_2 by (apply list_elem_of_further, Hin).
        reflexivity.
      * rewrite bool_decide_eq_false_2; [reflexivity |].
        rewrite elem_of_cons. intros [-> | Hin]; [congruence | exact (Hnin Hin)].
Qed.

(** What [stop] leaves in the fields of the processor. *)
Lemma stop_fields (this : Processor) (w : World) :
  isProcessing (stop this w).1 = false /\
  inputVideo (stop this w).1 = None /\
  outputStream (stop this w).1 = None /\
  canvas_width (stop this w).1 = canvas_width this /\
  canvas_height (stop this w).1 = canvas_height this.
Proof.
  unfold stop.
  destruct this as [cw ch out video anim busy]; cbn.
  destruct anim as [[| id] |], video as [v |], out as [o |]; cbn; auto.
Qed.

(** What [stop] leaves in the heap of tracks. *)
Lemma stop_tracks (this : Processor) (w : World) :
  tracks (stop this w).2 =
    match outputStream this with
    | Some out => tracks (foldl track_stop w (getTracks w out))
    | None => tracks w
    end.
Proof.
  unfold stop.
  destruct this as [cw ch out video anim busy]; cbn.
  destruct anim as [[| id] |], video as [v |], out as [o |]; cbn; try reflexivity.
  all: unfold getTracks; cbn.
  all: generalize (default [] (streams w !! o)); intros ts; revert w.
  all: induction ts as [| t ts IH]; intros w; cbn; [reflexivity |].
  all: specialize (IH (track_stop w t)); cbn in IH; exact IH.
Qed.

(** An animation frame that fires on a stopped processor draws nothing. *)
Lemma run_frame_idle (this : Processor) (w : World) :
  isProcessing this = false ->
  (run_frame this w).1 = this /\
  canvas_ops (run_frame this w).2 = canvas_ops w.
Proof.
  intros Hidle. unfold run_frame.
  destruct (frame_requests w) as [| [id fitMode] rest]; [auto |].
  rewrite processFrame_idle by exact Hidle. auto.
Qed.

(** The wait for the first frame ends once a frame is there. *)
Lemma checkFrame_finds (env : Platform) (polls : nat) :
  forall n k : nat,
    (k < polls)%nat -> frame_ready env (n + k) = true ->
    exists size, checkFrame polls env n = Some size.
Proof.
  induction polls as [| polls IH]; intros n k Hk Hready; [lia |].
  cbn [checkFrame].
  destruct (frame_size env n) as [vw vh] eqn:Hsize.
  destruct (nonzero vw && nonzero vh) eqn:Hnow; [eauto |].
  destruct k as [| k].
  - unfold frame_ready in Hready. rewrite Nat.add_0_r, Hsize in Hready.
    cbn in Hready. congruence.
  - apply (IH (S n) k); [lia |].
    rewrite <- Hready. f_equal. lia.
Qed.

(** The video plays when the first [play()] resolves, or rejects and
    the second resolves. *)
Lemma play_with_retry_playing (env : Platform) :
  play_with_retry env = Playing <->
  first_play env = PlayResolves \/
  (exists err, first_play env = PlayRejects err) /\
  second_play env = PlayResolves.
Proof.
  unfold play_with_retry.
  destruct (first_play env) as [| e1 |], (second_play env) as [| e2 |];
    split; intros H; try discriminate; try reflexivity; eauto;
    destruct H as [H | [[err H] H']]; discriminate.
Qed.

(** It fails with the error of the second [play()]. *)
Lemma play_with_retry_failed (env : Platform) (err : string) :
  play_with_retry env = PlayFailed err <->
  (exists e, first_play env = PlayRejects e) /\
  second_play env = PlayRejects err.
Proof.
  unfold play_with_retry. split.
  - destruct (first_play env) as [| e1 |], (second_play env) as [| e2 |];
      intros H; try discriminate.
    injection H as ->. eauto.
  - intros [[e ->] ->]. reflexivity.
Qed.

(** It never settles when one of the calls made stays pending. *)
Lemma play_with_retry_stuck (env : Platform) :
  play_with_retry env = PlayStuck <->
  first_play env = PlayPending \/
  (exists err, first_play env = PlayRejects err) /\
  second_play env = PlayPending.
Proof.
  unfold play_with_retry.
  destruct (first_play env) as [| e1 |], (second_play env) as [| e2 |];
    split; intros H; try discriminate; try reflexivity; eauto;
    destruct H as [H | [[err H] H']]; discriminate.
Qed.

(** [startProcessing] resolves when the stream has a video track, the
    metadata loads, one of the two calls of [play()] succeeds, a frame
    arrives within the polls allowed and [captureStream] does not throw. *)
Lemma startProcessing_succeeds
    (polls : nat) (env : Platform) (inputStream : nat) (options : Options)
    (this : Processor) (w : World) (k : nat) :
  getVideoTracks w inputStream <> [] ->
  metadata env <> TimesOut ->
  play_with_retry env = Playing ->
  (k < polls)%nat -> frame_ready env k = true ->
  capture_error env = None ->
  exists out this' w',
    startProcessing polls env inputStream options this w
      = Some (Resolved out, this', w').
Proof.
  intros Hvideo Hmeta Hplay Hk Hready Hcapture.
  destruct (checkFrame_finds env polls 0 k Hk Hready) as [[vw vh] Hframe].
  unfold startProcessing.
  rewrite bool_decide_eq_false_2
    by (destruct (getVideoTracks w inputStream); [congruence | discriminate]).
  rewrite Hplay, Hframe, Hcapture.
  destruct (metadata env); try congruence.
  all: rewrite (surjective_pairing (captureStream _ w)).
  all: match goal with
       | |- context [processFrame ?f ?t ?x] =>
           destruct (processFrame f t x) as [t' x']
       end; eauto.
Qed.

End ProcessorFacts.

(** ** Forwarding the audio tracks *)

Section Forwarding.
Variable out : nat.

Lemma addTrack_new (t : nat) (w : World) (members : list nat) :
  streams w !! out = Some members -> t ∉ members ->
  streams (addTrack out t w) !! out = Some (members ++ [t]) /\
  tracks (addTrack out t w) = tracks w.
Proof.
  intros Hout Hnew. unfold addTrack, getTracks. rewrite Hout. cbn [default].
  rewrite bool_decide_eq_false_2 by exact Hnew. cbn.
  rewrite list_lookup_alter_eq, Hout. auto.
Qed.

Lemma addTrack_tracks (t : nat) (w : World) :
  tracks (addTrack out t w) = tracks w.
Proof. unfold addTrack. destruct (bool_decide _); reflexivity. Qed.

Lemma addTrack_head (t : nat) (w : World) (m : nat) (ms : list nat) :
  streams w !! out = Some (m :: ms) ->
  exists ms', streams (addTrack out t w) !! out = Some (m :: ms').
Proof.
  intros Hout. unfold addTrack. destruct (bool_decide _); [eauto |].
  cbn. rewrite list_lookup_alter_eq, Hout. cbn. eauto.
Qed.

(** One step never loses a track object nor the first member of the
    output stream. *)
Lemma forward_audio_grows (w : World) (t : nat) :
  (forall u tr, tracks w !! u = Some tr ->
                tracks (forward_audio out w t) !! u = Some tr) /\
  (forall m ms, streams w !! out = Some (m :: ms) ->
                exists ms', streams (forward_audio out w t) !! out = Some (m :: ms')).
Proof.
  unfold forward_audio.
  destruct (tracks w !! t) as [tr |]; [| eauto].
  destruct (clone_method tr), (accepted_by_addTrack tr); cbn;
    rewrite ?addTrack_tracks; cbn; split; eauto using lookup_app_l_Some.
  - intros m ms Hout. eapply addTrack_head, Hout.
  - intros m ms Hout. apply (addTrack_head _ (with_tracks _ w) m ms). exact Hout.
Qed.

Lemma forward_all_grows (l : list nat) (w : World) :
  (forall u tr, tracks w !! u = Some tr ->
                tracks (foldl (forward_audio out) w l) !! u = Some tr) /\
  (forall m ms, streams w !! out = Some (m :: ms) ->
                exists ms', streams (foldl (forward_audio out) w l) !! out
                            = Some (m :: ms')).
Proof.
  revert w. induction l as [| t l IH]; intros w; cbn [foldl]; [eauto |].
  destruct (forward_audio_grows w t) as [Htr Hst].
  destruct (IH (forward_audio out w t)) as [IHtr IHst].
  split.
  - intros u tr Hu. apply IHtr, Htr, Hu.
  - intros m ms Hout. destruct (Hst m ms Hout) as [ms' Hout'].
    apply (IHst m ms' Hout').
Qed.

End Forwarding.

Section ForwardingExact.
Variable out : nat.
Variable w0 : World.

Lemma has_kind_lookup (w : World) (k : TrackKind) (t : nat) :
  has_kind w k t = true <-> exists tr, tracks w !! t = Some tr /\ kind tr = k.
Proof.
  unfold has_kind. rewrite bool_decide_eq_true, fmap_Some. split.
  - intros (tr & Htr & Hk). eauto.
  - intros (tr & Htr & Hk). eauto.
Qed.

(** Tracks placed for earlier members stay what they are while the world
    grows. *)
Lemma forwarded_as_grows (w w' : World) (a c : nat) :
  (forall u tr, tracks w !! u = Some tr -> tracks w' !! u = Some tr) ->
  forwarded_as w0 w a c -> forwarded_as w0 w' a c.
Proof.
  intros Hgrow (tr & Ha & Hk & Hc). exists tr. repeat split; try assumption.
  destruct (clone_method tr); [| | exact Hc].
  - destruct Hc as [-> Hc]. auto.
  - destruct Hc as [Hc Hnew]. auto.
Qed.

Lemma forwarded_as_audio (w' : World) (a c : nat) :
  forwarded_as w0 w' a c -> has_kind w' AudioKind c = true.
Proof.
  intros (tr & Ha & Hk & Hc). apply has_kind_lookup.
  destruct (clone_method tr); [| | destruct Hc].
  - destruct Hc as [-> Hc]. eauto.
  - destruct Hc as [Hc _]. exists (cloned a tr). auto.
Qed.

Lemma lookup_preserved_length {A : Type} (l1 l2 : list A) :
  (forall i x, l1 !! i = Some x -> l2 !! i = Some x) ->
  (length l1 <= length l2)%nat.
Proof.
  intros Hgrow. destruct (decide (length l1 = 0%nat)) as [-> | Hne]; [lia |].
  destruct (lookup_lt_is_Some_2 l1 (length l1 - 1)) as [x Hx]; [lia |].
  apply Hgrow, lookup_lt_Some in Hx. lia.
Qed.

Lemma forward_all_exact (l : list nat) :
  forall (w : World) (members : list nat),
    streams w !! out = Some members ->
    (forall t, t ∈ members -> (t < length (tracks w))%nat) ->
    (forall t tr, tracks w0 !! t = Some tr -> tracks w !! t = Some tr) ->
    NoDup l ->
    (forall a, a ∈ l -> a ∉ members) ->
    (forall a, a ∈ l -> has_kind w0 AudioKind a = true) ->
    exists added,
      streams (foldl (forward_audio out) w l) !! out = Some (members ++ added) /\
      Forall2 (forwarded_as w0 (foldl (forward_audio out) w l))
              (List.filter (forwardable w0) l) added /\
      (forall t, t ∈ added ->
                 has_kind (foldl (forward_audio out) w l) AudioKind t = true).
Proof.
  induction l as [| a l IH]; intros w members Hout Hbound Hgrow Hnodup Hfresh Haudio.
  - exists []. cbn. rewrite app_nil_r. repeat split; [exact Hout | constructor |].
    intros t Ht. inversion Ht.
  - cbn [foldl].
    apply NoDup_cons in Hnodup as [Ha_notin Hnodup].
    destruct (proj1 (has_kind_lookup w0 AudioKind a)) as (tr & Ha0 & Hkind).
    { apply Haudio, list_elem_of_here. }
    pose proof (Hgrow a tr Ha0) as Ha.
    pose proof (lookup_preserved_length _ _ Hgrow) as Hlen0.
    assert (Hrest_audio : forall b, b ∈ l -> has_kind w0 AudioKind b = true).
    { intros b Hb. apply Haudio, list_elem_of_further, Hb. }
    assert (Hrest_old : forall b, b ∈ l -> (b < length (tracks w))%nat).
    { intros b Hb. destruct (proj1 (has_kind_lookup w0 AudioKind b)) as (trb & Hb0 & _).
      - apply Hrest_audio, Hb.
      - eapply lookup_lt_Some, Hgrow, Hb0. }
    cbn [List.filter]. unfold forwardable at 1. rewrite Ha0.
    set (w1 := forward_audio out w a).
    destruct (forward_audio_grows out w a) as [Hgrow1 _]. fold w1 in Hgrow1.
    pose proof (lookup_preserved_length _ _ Hgrow1) as Hlen1.
    destruct (forward_all_grows out l w1) as [Hgrow_rest _].
    (* the step either adds one member or leaves the stream as it is *)
    assert (Hstep :
      (forwards tr = false /\ streams w1 !! out = Some members) \/
      (forwards tr = true /\ exists c,
         streams w1 !! out = Some (members ++ [c]) /\
         (c < length (tracks w1))%nat /\ (forall b, b ∈ l -> b <> c) /\
         forwarded_as w0 w1 a c)).
    { subst w1. unfold forward_audio, forwards. rewrite Ha.
      destruct (clone_method tr) eqn:Hclone, (accepted_by_addTrack tr) eqn:Hacc;
        cbn [andb]; try (left; split; [reflexivity | exact Hout]).
      - (* no clone method: the track itself is added *)
        right. split; [reflexivity |]. exists a.
        destruct (addTrack_new out a w members Hout) as [Hst Htr].
        { apply Hfresh, list_elem_of_here. }
        unfold forwarded_as. rewrite Hst, Htr. repeat split.
        + eapply lookup_lt_Some, Ha.
        + intros b Hb ->. exact (Ha_notin Hb).
        + exists tr. rewrite Hclone. auto.
      - (* cloned, and the clone is added *)
        right. split; [reflexivity |]. exists (length (tracks w)).
        cbn [track_clone].
        destruct (addTrack_new out (length (tracks w))
                    (with_tracks (tracks w ++ [cloned a tr]) w) members Hout)
          as [Hst Htr].
        { intros Hin. apply Hbound in Hin. lia. }
        unfold forwarded_as. rewrite Hst, Htr. cbn [tracks with_tracks].
        repeat split.
        + rewrite length_app. cbn. lia.
        + intros b Hb ->. apply Hrest_old in Hb. lia.
        + exists tr. rewrite Hclone. repeat split; try assumption.
          apply list_lookup_middle. reflexivity. }
    destruct Hstep as [[Hno Hout1] | (Hyes & c & Hout1 & Hc & Hc_fresh & Hfwd)];
      rewrite ?Hno, ?Hyes.
    + destruct (IH w1 members Hout1) as (added & Hst & Hall & Hkinds); auto.
      * intros t Ht. apply Hbound in Ht. lia.
      * intros b Hb. apply Hfresh, list_elem_of_further, Hb.
      * exists added. auto.
    + destruct (IH w1 (members ++ [c]) Hout1) as (added & Hst & Hall & Hkinds); auto.
      * intros t [Ht | ->%list_elem_of_singleton]%elem_of_app; [| exact Hc].
        apply Hbound in Ht. lia.
      * intros b Hb [Hin | ->%list_elem_of_singleton]%elem_of_app.
        -- eapply Hfresh; [apply list_elem_of_further, Hb | exact Hin].
        -- exact (Hc_fresh _ Hb eq_refl).
      * exists (c :: added). rewrite <- app_assoc in Hst. cbn in Hst.
        pose proof (forwarded_as_grows w1 _ a c Hgrow_rest Hfwd) as Hfwd'.
        repeat split; [exact Hst | constructor; assumption |].
        intros t [-> | Ht]%elem_of_cons; [| apply Hkinds, Ht].
        eapply forwarded_as_audio, Hfwd'.
Qed.

End ForwardingExact.

(** ** A successful [startProcessing] *)

Section StartProcessing.

Lemma captureStream_world (rate : float) (w : World) :
  (captureStream rate w).1 = length (streams w) /\
  tracks (captureStream rate w).2 = tracks w ++ [canvas_track rate] /\
  streams (captureStream rate w).2 = streams w ++ [[length (tracks w)]].
Proof. repeat split. Qed.

(** The new canvas track is no audio track, so the audio tracks of a
    stream are what they were before the capture. *)
Lemma captureStream_audio (rate : float) (w : World) (stream : nat) :
  getAudioTracks (captureStream rate w).2 stream = getAudioTracks w stream.
Proof.
  assert (Hkind : forall t,
    has_kind (captureStream rate w).2 AudioKind t = has_kind w AudioKind t).
  { intros t. unfold has_kind. cbn [captureStream snd tracks with_tracks with_streams].
    destruct (lt_eq_lt_dec t (length (tracks w))) as [[Hlt | ->] | Hgt].
    - rewrite lookup_app_l by exact Hlt. reflexivity.
    - rewrite list_lookup_middle by reflexivity.
      rewrite (lookup_ge_None_2 (tracks w)) by lia. reflexivity.
    - rewrite !lookup_ge_None_2; [reflexivity | lia |].
      rewrite length_app. cbn. lia. }
  unfold getAudioTracks, getTracks.
  cbn [captureStream snd streams with_tracks with_streams].
  destruct (lt_eq_lt_dec stream (length (streams w))) as [[Hlt | ->] | Hgt].
  - rewrite lookup_app_l by exact Hlt. apply filter_ext. intros t. apply Hkind.
  - rewrite list_lookup_middle by reflexivity.
    rewrite (lookup_ge_None_2 (streams w)) by lia. cbn.
    rewrite Hkind. unfold has_kind.
    rewrite (lookup_ge_None_2 (tracks w)) by lia. reflexivity.
  - rewrite !lookup_ge_None_2; [reflexivity | lia |].
    rewrite length_app. cbn. lia.
Qed.

(** When the promise resolves, the media objects are those left by the
    capture followed by the loop over the audio tracks. *)
Lemma startProcessing_resolved
    (polls : nat) (env : Platform) (inputStream : nat) (options : Options)
    (this this' : Processor) (w w' : World) (out : nat) :
  startProcessing polls env inputStream options this w
    = Some (Resolved out, this', w') ->
  let rate := safeFps (default 30%float (fps options)) in
  let w1 := (captureStream rate w).2 in
  let wf := foldl (forward_audio out) w1 (getAudioTracks w inputStream) in
  out = length (streams w) /\ tracks w' = tracks wf /\ streams w' = streams wf.
Proof.
  unfold startProcessing.
  destruct (bool_decide _); [discriminate |].
  destruct (metadata env); try discriminate.
  all: destruct (play_with_retry env); try discriminate.
  all: destruct (checkFrame polls env 0) as [[vw vh] |]; try discriminate.
  all: destruct (capture_error env); try discriminate.
  all: rewrite (surjective_pairing (captureStream _ w)).
  all: destruct (captureStream_world (safeFps (default 30%float (fps options))) w)
         as (-> & _ & _).
  all: rewrite captureStream_audio.
  all: match goal with
       | |- context [processFrame ?f ?t ?x] =>
           pose proof (processFrame_media f t x) as [Htr Hst];
           destruct (processFrame f t x) as [t' x']
       end.
  all: intros Heq; injection Heq as <- <- <-; cbn in Htr, Hst; auto.
Qed.

End StartProcessing.

(** What the output stream holds after the loop over the audio tracks. *)
Lemma startProcessing_output
    (polls : nat) (env : Platform) (inputStream : nat) (options : Options)
    (this this' : Processor) (w w' : World) (out : nat) :
  startProcessing polls env inputStream options this w
    = Some (Resolved out, this', w') ->
  let canvas := length (tracks w) in
  tracks w' !! canvas
    = Some (canvas_track (safeFps (default 30%float (fps options)))) /\
  (exists members, streams w' !! out = Some (canvas :: members)) /\
  (NoDup (getTracks w inputStream) ->
   exists added,
     streams w' !! out = Some (canvas :: added) /\
     Forall2 (forwarded_as w w')
             (List.filter (forwardable w) (getAudioTracks w inputStream)) added /\
     (forall t, t ∈ added -> has_kind w' AudioKind t = true)).
Proof.
  intros Hrun. cbv zeta.
  destruct (startProcessing_resolved _ _ _ _ _ _ _ _ _ Hrun) as (Hout & Htr & Hst).
  set (rate := safeFps (default 30%float (fps options))) in *.
  set (w1 := (captureStream rate w).2) in *.
  set (l := getAudioTracks w inputStream) in *.
  destruct (captureStream_world rate w) as (_ & Htr1 & Hst1). fold w1 in Htr1, Hst1.
  assert (Hcanvas : tracks w1 !! length (tracks w) = Some (canvas_track rate)).
  { rewrite Htr1. apply list_lookup_middle. reflexivity. }
  assert (Hmembers : streams w1 !! out = Some [length (tracks w)]).
  { rewrite Hst1, Hout. apply list_lookup_middle. reflexivity. }
  destruct (forward_all_grows out l w1) as [Hgrow Hhead].
  rewrite Htr, Hst. repeat split.
  - apply Hgrow, Hcanvas.
  - apply (Hhead _ _ Hmembers).
  - intros Hnodup.
    destruct (forward_all_exact out w l w1 [length (tracks w)] Hmembers)
      as (added & Hadded & Hall & Hkinds).
    + intros t ->%list_elem_of_singleton. rewrite Htr1, length_app. cbn. lia.
    + intros t tr Ht. rewrite Htr1. apply lookup_app_l_Some, Ht.
    + apply NoDup_ListNoDup. apply List.NoDup_filter.
      apply NoDup_ListNoDup. exact Hnodup.
    + intros a Ha ->%list_elem_of_singleton.
      apply list_elem_of_In, filter_In in Ha as [_ Ha].
      apply has_kind_lookup in Ha as (tr & Ha & _).
      apply lookup_lt_Some in Ha. lia.
    + intros a Ha. apply list_elem_of_In, filter_In in Ha as [_ Ha]. exact Ha.
    + exists added. repeat split; [exact Hadded | |].
      * eapply Forall2_impl; [exact Hall |].
        intros a c (tr & Ha & Hk & Hc). exists tr. rewrite Htr. auto.
      * intros t Ht. unfold has_kind. rewrite Htr. apply Hkinds, Ht.
Qed.

(** ** The warnings of the audio loop *)

Section Warnings.
Variable out : nat.
Variable w0 : World.

Lemma addTrack_console (t : nat) (w : World) :
  console (addTrack out t w) = console w.
Proof. unfold addTrack. destruct (bool_decide _); reflexivity. Qed.

(** One step warns exactly when the track is not forwarded. *)
Lemma forward_audio_console (w : World) (t : nat) (tr : Track) :
  tracks w !! t = Some tr ->
  console (forward_audio out w t) =
    console w ++
    (if forwards tr then []
     else ["Failed to add audio track to processed stream:"]).
Proof.
  intros Ht. unfold forward_audio, forwards. rewrite Ht.
  destruct (clone_method tr), (accepted_by_addTrack tr);
    cbn [andb track_clone]; rewrite ?addTrack_console; cbn [console console_warn
      with_tracks]; rewrite ?app_nil_r; reflexivity.
Qed.

Lemma forward_all_console (l : list nat) :
  forall w : World,
    (forall t tr, tracks w0 !! t = Some tr -> tracks w !! t = Some tr) ->
    (forall a, a ∈ l -> has_kind w0 AudioKind a = true) ->
    console (foldl (forward_audio out) w l) = console w ++ audio_warnings w0 l.
Proof.
  unfold audio_warnings.
  induction l as [| a l IH]; intros w Hgrow Haudio; cbn [foldl List.filter fmap].
  - cbn. rewrite app_nil_r. reflexivity.
  - destruct (proj1 (has_kind_lookup w0 AudioKind a)) as (tr & Ha0 & _).
    { apply Haudio, list_elem_of_here. }
    destruct (forward_audio_grows out w a) as [Hstep _].
    rewrite IH.
    + rewrite (forward_audio_console w a tr (Hgrow a tr Ha0)).
      unfold forwardable at 2. rewrite Ha0.
      destruct (forwards tr); cbn [negb]; rewrite <- app_assoc; reflexivity.
    + intros t tr' Ht. apply Hstep, Hgrow, Ht.
    + intros b Hb. apply Haudio, list_elem_of_further, Hb.
Qed.

End Warnings.

(** [processFrame] writes nothing to the console. *)
Lemma processFrame_console (fitMode : string) (this : Processor) (w : World) :
  console (processFrame fitMode this w).2 = console w.
Proof.
  unfold processFrame.
  destruct (negb (isProcessing this)); [reflexivity |].
  destruct (inputVideo this) as [video |]; [| reflexivity].
  destruct (nonzero (videoWidth video) && nonzero (videoHeight video)); reflexivity.
Qed.

(** The console after a successful [startProcessing]: one warning for
    each audio track that was not forwarded, and nothing else. *)
Lemma startProcessing_console
    (polls : nat) (env : Platform) (inputStream : nat) (options : Options)
    (this this' : Processor) (w w' : World) (out : nat) :
  startProcessing polls env inputStream options this w
    = Some (Resolved out, this', w') ->
  console w' = console w ++ audio_warnings w (getAudioTracks w inputStream).
Proof.
  unfold startProcessing.
  destruct (bool_decide _); [discriminate |].
  destruct (metadata env); try discriminate.
  all: destruct (play_with_retry env); try discriminate.
  all: destruct (checkFrame polls env 0) as [[vw vh] |]; try discriminate.
  all: destruct (capture_error env); try discriminate.
  all: rewrite (surjective_pairing (captureStream _ w)).
  all: rewrite captureStream_audio.
  all: match goal with
       | |- context [processFrame ?f ?t ?x] =>
           pose proof (processFrame_console f t x) as Hconsole;
           destruct (processFrame f t x) as [t' x']
       end.
  all: intros [= <- <- <-]; cbn [snd] in Hconsole; rewrite Hconsole.
  all: rewrite (forward_all_console _ w); [reflexivity | |].
  all: try (intros t tr Ht; cbn [captureStream snd tracks with_tracks with_streams];
            apply lookup_app_l_Some, Ht).
  all: intros a Ha; apply list_elem_of_In, filter_In in Ha as [_ Ha]; exact Ha.
Qed.

(** ** [Array.prototype.sort] *)

Section ArraySort.
Context {A : Type} (compare : A -> A -> Z).
Import Storage.

(** A comparator that never puts each of two elements after the other. *)
Hypothesis compare_consistent : forall x y, 0 < compare x y -> compare y x <= 0.

Lemma Sorted_weaken (R R' : A -> A -> Prop) (l : list A) :
  (forall a b, R a b -> R' a b) -> Sorted R l -> Sorted R' l.
Proof using Type.
  intros Himpl. induction 1 as [| a l _ IH Hhd]; constructor.
  - exact IH.
  - destruct Hhd; constructor. auto.
Qed.

Lemma sort_insert_HdRel (a x : A) (l : list A) :
  in_order compare a x -> HdRel (in_order compare) a l ->
  HdRel (in_order compare) a (sort_insert compare x l).
Proof.
  intros Hax Hal. destruct l as [| y l']; cbn.
  - constructor. exact Hax.
  - destruct (Z.ltb_spec 0 (compare x y)).
    + constructor. inversion Hal; assumption.
    + constructor. exact Hax.
Qed.

Lemma sort_insert_Sorted (x : A) (l : list A) :
  Sorted (in_order compare) l ->
  Sorted (in_order compare) (sort_insert compare x l).
Proof.
  induction 1 as [| y l' Hl' IH Hhd]; cbn.
  - repeat constructor.
  - destruct (Z.ltb_spec 0 (compare x y)) as [Hgt | Hle].
    + constructor; [exact IH |].
      apply sort_insert_HdRel; [| exact Hhd].
      apply compare_consistent, Hgt.
    + constructor; [constructor; assumption |].
      constructor. exact Hle.
Qed.

Lemma Array_sort_Sorted (l : list A) :
  Sorted (in_order compare) (Array_sort compare l).
Proof.
  induction l as [| x l IH]; cbn.
  - constructor.
  - apply sort_insert_Sorted, IH.
Qed.

Lemma sort_insert_Permutation (x : A) (l : list A) :
  Permutation (sort_insert compare x l) (x :: l).
Proof using Type.
  induction l as [| y l' IH]; cbn.
  - reflexivity.
  - destruct (0 <? compare x y).
    + rewrite IH. apply perm_swap.
    + reflexivity.
Qed.

Lemma Array_sort_Permutation (l : list A) : Permutation (Array_sort compare l) l.
Proof using Type.
  induction l as [| x l IH]; cbn.
  - reflexivity.
  - rewrite sort_insert_Permutation. constructor. exact IH.
Qed.

End ArraySort.

(** ** Gallery storage *)

Section StorageFacts.
Import Storage.

Lemma newest_first_consistent (x y : GalleryItem) :
  0 < newest_first x y -> newest_first y x <= 0.
Proof. unfold newest_first. lia. Qed.

(** The three ways a call of [loadGalleryItems] can go. *)
Lemma loadGalleryItems_cases (env : Idb) (db : Store) :
  match open_error env, transaction_error env, request_error env with
  | Some _, _, _ | None, Some _, _ =>
      loadGalleryItems env db = (Resolved [], db)
  | None, None, Some err =>
      loadGalleryItems env db = (Rejected err, db)
  | None, None, None =>
      loadGalleryItems env db =
        (Resolved (Array_sort newest_first
                     (Array_sort index_compare (map_to_list db).*2)), db)
  end.
Proof.
  unfold loadGalleryItems, try_catch, await, throwing, return_promise,
    initDB, index_getAll.
  destruct (open_error env), (transaction_error env), (request_error env);
    reflexivity.
Qed.

(** The three ways a call of [deleteGalleryItem] can go. *)
Lemma deleteGalleryItem_cases (env : Idb) (key : string) (db : Store) :
  match open_error env, transaction_error env, request_error env with
  | Some err, _, _ | None, Some err, _ | None, None, Some err =>
      deleteGalleryItem env key db = (Rejected err, db)
  | None, None, None =>
      deleteGalleryItem env key db = (Resolved tt, delete key db)
  end.
Proof.
  unfold deleteGalleryItem, try_catch, await, throwing, return_promise,
    initDB, store_delete.
  destruct (open_error env), (transaction_error env), (request_error env);
    reflexivity.
Qed.

Lemma clearGallery_cases (env : Idb) (db : Store) :
  match open_error env, transaction_error env, request_error env with
  | Some err, _, _ | None, Some err, _ | None, None, Some err =>
      clearGallery env db = (Rejected err, db)
  | None, None, None =>
      clearGallery env db = (Resolved tt, ∅)
  end.
Proof.
  unfold clearGallery, try_catch, await, throwing, return_promise,
    initDB, store_clear.
  destruct (open_error env), (transaction_error env), (request_error env);
    reflexivity.
Qed.

(** [saveGalleryItem] rejects with the error of whichever step failed. *)
Lemma saveGalleryItem_rethrows (env : Idb) (now_id now : Z) (random : string)
    (b : Blob) (ty : string) (meta : Metadata) (db : Store) :
  match open_error env, transaction_error env, request_error env with
  | Some err, _, _ | None, Some err, _ | None, None, Some err =>
      saveGalleryItem env now_id now random b ty meta db = (Rejected err, db)
  | None, None, None => True
  end.
Proof.
  unfold saveGalleryItem, try_catch, await, throwing, return_value,
    initDB, store_add.
  destruct (open_error env), (transaction_error env), (request_error env);
    reflexivity || exact I.
Qed.

End StorageFacts.

(** ** Recorder *)

Section RecorderFacts.
Import Recorder.

Lemma videoCandidates_prefix (hasAudio : bool) (t : string) :
  In t (videoCandidates hasAudio) -> String.prefix "video/" t = true.
Proof.
  destruct hasAudio; cbn; intros Hin;
    repeat (destruct Hin as [<- | Hin]; [reflexivity |]); destruct Hin.
Qed.

Lemma audioCandidates_prefix (t : string) :
  In t audioCandidates -> String.prefix "audio/" t = true.
Proof.
  cbn; intros Hin;
    repeat (destruct Hin as [<- | Hin]; [reflexivity |]); destruct Hin.
Qed.

(** On a stream of the platform, [hasVideo] says whether the stream has a
    video track. *)
Lemma has_tracks_view (w : World) (stream : nat) :
  has_tracks (video_tracks (view w stream)) = true <->
  getVideoTracks w stream <> [].
Proof.
  cbn. destruct (getVideoTracks w stream); split; congruence.
Qed.

(** The loop returns the first supported candidate, if there is one. *)
Lemma pickMimeType_cases (isTypeSupported : string -> bool) (stream : StreamView) :
  let candidates :=
    if has_tracks (video_tracks stream)
    then videoCandidates (has_tracks (audio_tracks stream))
    else audioCandidates in
  pickMimeType isTypeSupported stream = "" \/
  (In (pickMimeType isTypeSupported stream) candidates /\
   isTypeSupported (pickMimeType isTypeSupported stream) = true).
Proof.
  cbv zeta. unfold pickMimeType.
  destruct (find isTypeSupported _) as [t |] eqn:Hfind.
  - right. apply find_some in Hfind. exact Hfind.
  - left. reflexivity.
Qed.

End RecorderFacts.

(** * The claims *)










(** C4: on an input stream without video tracks [startProcessing]
    rejects with 'No video tracks in input stream' and has changed
    nothing: the processor (its [isProcessing], [outputStream] and canvas
    size included) and the platform's objects are as before the call. *)
Theorem startProcessing_no_video_tracks
    (polls : nat) (env : Platform) (inputStream : nat) (options : Options)
    (this : Processor) (w : World) :
  getVideoTracks w inputStream = [] ->
  startProcessing polls env inputStream options this w
    = Some (Rejected "No video tracks in input stream", this, w).
Proof.
  intros Hnone. unfold startProcessing. rewrite Hnone. reflexivity.
Qed.

Lemma startProcessing_no_video_tracks_witness :
  getVideoTracks sample_world 1 = [] /\
  startProcessing 10 sample_platform 1 (sample_options 30) new_processor sample_world
    = Some (Rejected "No video tracks in input stream", new_processor, sample_world).
Proof.
  split; [reflexivity |].
  apply (startProcessing_no_video_tracks 10 sample_platform 1 (sample_options 30)
           new_processor sample_world).
  reflexivity.
Defined.

(** C5 (as stated): asked for 120 frames per second, [startProcessing]
    succeeds and captures the canvas at 60. *)
Lemma startProcessing_caps_frame_rate :
  exists (out : nat) (this' : Processor) (w' : World),
    startProcessing 10 sample_platform 0 (sample_options 120) new_processor sample_world
      = Some (Resolved out, this', w') /\
    head (getTracks w' out) = Some 2%nat /\
    origin <$> tracks w' !! 2%nat = Some (FromCanvas 60) /\
    PrimFloat.eqb 60 120 = false.
Proof.
  eexists _, _, _. split; [vm_compute; reflexivity |].
  repeat split.
Qed.

(** C5: when [startProcessing] succeeds, the first track of the output
    stream is the canvas track, captured at [safeFps] of the requested
    rate (30 when [fps] is undefined).  That rate lies between 1 and 60;
    it is the requested rate when that lies between 1 and 60, 60 when it
    is above, 1 when it is non-zero and below, and 30 when it is zero or
    [NaN]. *)
Theorem startProcessing_capture_rate
    (polls : nat) (env : Platform) (inputStream : nat) (options : Options)
    (this this' : Processor) (w w' : World) (out : nat) :
  startProcessing polls env inputStream options this w
    = Some (Resolved out, this', w') ->
  let requested := default 30%float (fps options) in
  (exists canvas,
     head (getTracks w' out) = Some canvas /\
     origin <$> tracks w' !! canvas = Some (FromCanvas (safeFps requested))) /\
  (PrimFloat.leb 1 (safeFps requested) = true /\
   PrimFloat.leb (safeFps requested) 60 = true) /\
  (PrimFloat.leb 1 requested = true -> PrimFloat.leb requested 60 = true ->
   safeFps requested = requested) /\
  (PrimFloat.ltb 60 requested = true -> safeFps requested = 60%float) /\
  (truthy requested = true -> PrimFloat.ltb requested 1 = true ->
   safeFps requested = 1%float) /\
  (truthy requested = false -> safeFps requested = 30%float).
Proof.
  intros Hrun. cbv zeta.
  destruct (startProcessing_output _ _ _ _ _ _ _ _ _ Hrun)
    as (Hcanvas & [members Hout] & _).
  repeat split.
  - exists (length (tracks w)). unfold getTracks. rewrite Hout, Hcanvas. auto.
  - apply safeFps_bounds.
  - apply safeFps_bounds.
  - apply safeFps_in_range.
  - apply safeFps_above.
  - apply safeFps_below.
  - apply safeFps_falsy.
Qed.

Lemma startProcessing_capture_rate_witness :
  match startProcessing 10 sample_platform 0 (sample_options 24)
          new_processor sample_world with
  | Some (Resolved out, _, w') =>
      exists canvas,
        head (getTracks w' out) = Some canvas /\
        origin <$> tracks w' !! canvas = Some (FromCanvas 24)
  | _ => False
  end.
Proof.
  destruct (startProcessing 10 sample_platform 0 (sample_options 24)
              new_processor sample_world)
    as [[[[out | err] this'] w'] |] eqn:Hrun.
  - destruct (startProcessing_capture_rate _ _ _ _ _ _ _ _ _ Hrun)
      as ((canvas & Hhead & Horigin) & _ & Hsame & _).
    exists canvas. split; [exact Hhead |].
    rewrite Horigin, (Hsame eq_refl eq_refl). reflexivity.
  - vm_compute in Hrun. discriminate.
  - vm_compute in Hrun. discriminate.
Defined.

(** C6: after [stop()] every track of the output stream has ended,
    [isProcessing] is false and [inputVideo] is null, and any further
    calls of [processFrame] return at once: they leave the processor and
    the platform, the canvas included, untouched. *)
Theorem stop_ends_tracks_and_frames (this : Processor) (w : World) :
  let this' := (stop this w).1 in
  let w' := (stop this w).2 in
  (forall (out t : nat) (tr : Track),
     outputStream this = Some out -> t ∈ getTracks w out ->
     tracks w !! t = Some tr -> tracks w' !! t = Some (ended tr)) /\
  isProcessing this' = false /\ inputVideo this' = None /\
  (forall fitModes : list string,
     foldl (fun st fitMode => processFrame fitMode st.1 st.2) (this', w') fitModes
       = (this', w')).
Proof.
  cbv zeta.
  destruct (stop_fields this w) as (Hidle & Hvideo & _).
  repeat split; try assumption.
  - intros out t tr Hout Hin Htr.
    rewrite stop_tracks, Hout, stop_all_lookup.
    rewrite bool_decide_eq_true_2 by exact Hin.
    rewrite Htr. reflexivity.
  - intros fitModes. induction fitModes as [| fitMode rest IH]; cbn [foldl].
    + reflexivity.
    + cbn [fst snd]. rewrite processFrame_idle by exact Hidle. exact IH.
Qed.

Lemma stop_ends_tracks_and_frames_witness :
  match startProcessing 10 sample_platform 0 (sample_options 30)
          new_processor sample_world with
  | Some (Resolved out, this', w') =>
      getTracks w' out = [2%nat; 3%nat] /\
      tracks (stop this' w').2 !! 2%nat = Some (ended (canvas_track 30)) /\
      tracks (stop this' w').2 !! 3%nat
        = Some (ended (cloned 1 (device_track AudioKind CloneSucceeds))) /\
      processFrame "cover" (stop this' w').1 (stop this' w').2 = stop this' w'
  | _ => False
  end.
Proof.
  destruct (startProcessing 10 sample_platform 0 (sample_options 30)
              new_processor sample_world)
    as [[[[out | err] this'] w'] |] eqn:Hrun;
    vm_compute in Hrun; try discriminate.
  injection Hrun as <- <- <-.
  match goal with
  | |- context [stop ?t ?x] =>
      destruct (stop_ends_tracks_and_frames t x) as (Hended & _ & _ & Hframes)
  end.
  split; [reflexivity |]. split; [| split].
  - eapply Hended; [reflexivity | apply list_elem_of_here | reflexivity].
  - eapply Hended; [reflexivity | | reflexivity].
    apply list_elem_of_further, list_elem_of_here.
  - rewrite (surjective_pairing (stop _ _)) at 3.
    exact (Hframes ["cover"]).
Defined.

(** C7: a successful [deleteGalleryItem(id)] leaves the record stored
    under every other key as it was: it can only remove the record whose
    key is [id]. *)
Theorem deleteGalleryItem_keeps_others
    (env : Storage.Idb) (key : string) (db db' : gmap string Storage.GalleryItem) :
  Storage.deleteGalleryItem env key db = (Resolved tt, db') ->
  forall k : string, k <> key -> db' !! k = db !! k.
Proof.
  intros Hdel k Hk.
  pose proof (deleteGalleryItem_cases env key db) as Hcases.
  destruct (Storage.open_error env), (Storage.transaction_error env),
    (Storage.request_error env); rewrite Hcases in Hdel; try discriminate.
  injection Hdel as <-. apply lookup_delete_ne. congruence.
Qed.

Lemma deleteGalleryItem_keeps_others_witness :
  Storage.deleteGalleryItem Storage.healthy "1700000000000-a" sample_gallery
    = (Resolved tt, delete "1700000000000-a" sample_gallery) /\
  delete "1700000000000-a" sample_gallery !! "1700000005000-b"
    = sample_gallery !! "1700000005000-b".
Proof.
  split; [reflexivity |].
  apply (deleteGalleryItem_keeps_others Storage.healthy "1700000000000-a"
           sample_gallery _ eq_refl "1700000005000-b").
  discriminate.
Defined.

(** C8: whatever [loadGalleryItems] resolves with is ordered by
    timestamp, newest first: each item's timestamp is at least that of
    the item after it.  When nothing fails the list holds exactly the
    stored items. *)
Theorem loadGalleryItems_newest_first
    (env : Storage.Idb) (db db' : gmap string Storage.GalleryItem)
    (items : list Storage.GalleryItem) :
  Storage.loadGalleryItems env db = (Resolved items, db') ->
  Sorted (fun a b => Storage.timestamp a >= Storage.timestamp b) items /\
  (Storage.open_error env = None -> Storage.transaction_error env = None ->
   Permutation items (map_to_list db).*2).
Proof.
  intros Hload.
  pose proof (loadGalleryItems_cases env db) as Hcases.
  destruct (Storage.open_error env), (Storage.transaction_error env),
    (Storage.request_error env); rewrite Hcases in Hload;
    try discriminate; injection Hload as <- <-;
    (split; [| try discriminate]); try (constructor; fail).
  - eapply Sorted_weaken;
      [| apply (Array_sort_Sorted Storage.newest_first newest_first_consistent)].
    intros a b. unfold Storage.in_order, Storage.newest_first. lia.
  - intros _ _. rewrite !Array_sort_Permutation. reflexivity.
Qed.

Lemma loadGalleryItems_newest_first_witness :
  let newest := [sample_item "1700000005000-b" "video/webm" 1700000005000;
                 sample_item "1700000002000-c" "image/jpeg" 1700000002000;
                 sample_item "1700000000000-a" "image/jpeg" 1700000000000] in
  Storage.loadGalleryItems Storage.healthy sample_gallery
    = (Resolved newest, sample_gallery) /\
  Sorted (fun a b => Storage.timestamp a >= Storage.timestamp b) newest.
Proof.
  cbv zeta. split; [vm_compute; reflexivity |].
  apply (loadGalleryItems_newest_first Storage.healthy sample_gallery sample_gallery).
  vm_compute. reflexivity.
Defined.

(** C9: when the database opens and the read request then fails,
    [loadGalleryItems] rejects with the request's error: the promise is
    returned from the [try] block without being awaited, so the [catch]
    clause that answers the empty list never sees the failure. *)
Theorem loadGalleryItems_read_failure_rejects
    (db : gmap string Storage.GalleryItem) (err : string) :
  Storage.loadGalleryItems
    {| Storage.open_error := None; Storage.transaction_error := None;
       Storage.request_error := Some err |} db
  = (Rejected err, db).
Proof. reflexivity. Qed.

(** C10: whatever [MediaRecorder.isTypeSupported] answers, [pickMimeType]
    returns the empty string or a type of the kind of the stream:
    one starting with "video/" when the stream has a video track, one
    starting with "audio/" when it has none. *)
Theorem pickMimeType_matches_stream_kind
    (isTypeSupported : string -> bool) (stream : Recorder.StreamView) :
  let type := Recorder.pickMimeType isTypeSupported stream in
  type = "" \/
  (if Recorder.has_tracks (Recorder.video_tracks stream)
   then String.prefix "video/" type = true
   else String.prefix "audio/" type = true).
Proof.
  cbv zeta.
  destruct (pickMimeType_cases isTypeSupported stream) as [Hempty | [Hin _]].
  - left. exact Hempty.
  - right. destruct (Recorder.has_tracks (Recorder.video_tracks stream)).
    + eapply videoCandidates_prefix, Hin.
    + apply audioCandidates_prefix, Hin.
Qed.

(** * Further properties *)

(** ** Writing to the gallery *)

Section GalleryWrites.
Import Storage.

(** The ways a call of [saveGalleryItem] can go. *)
Lemma saveGalleryItem_cases (env : Idb) (now_id now : Z) (random : string)
    (b : Blob) (ty : string) (meta : Metadata)
    (db : gmap string GalleryItem) :
  let item := new_item now_id now random b ty meta in
  saveGalleryItem env now_id now random b ty meta db =
    match open_error env, transaction_error env, request_error env with
    | Some err, _, _ | None, Some err, _ | None, None, Some err =>
        (Rejected err, db)
    | None, None, None =>
        match db !! id item with
        | Some _ => (Rejected "ConstraintError", db)
        | None => (Resolved (id item), <[id item := item]> db)
        end
    end.
Proof.
  cbv zeta.
  unfold saveGalleryItem, try_catch, await, throwing, return_value,
    initDB, store_add.
  destruct (open_error env), (transaction_error env), (request_error env);
    try reflexivity.
  unfold Store. destruct (db !! _); reflexivity.
Qed.

(** What a call of [saveGalleryItem] that resolves has done. *)
Lemma saveGalleryItem_resolved (env : Idb) (now_id now : Z) (random : string)
    (b : Blob) (ty : string) (meta : Metadata)
    (db db' : gmap string GalleryItem) (key : string) :
  saveGalleryItem env now_id now random b ty meta db = (Resolved key, db') ->
  key = id (new_item now_id now random b ty meta) /\
  db !! key = None /\
  db' = <[key := new_item now_id now random b ty meta]> db.
Proof.
  intros Hsave. rewrite saveGalleryItem_cases in Hsave.
  destruct (open_error env), (transaction_error env), (request_error env);
    try discriminate.
  destruct (db !! id (new_item now_id now random b ty meta)) eqn:Hfree;
    [discriminate |].
  injection Hsave as <- <-. auto.
Qed.

(** What a healthy database hands to [loadGalleryItems] is a
    rearrangement of the stored records. *)
Lemma loadGalleryItems_healthy (db : gmap string GalleryItem) :
  exists items,
    loadGalleryItems healthy db = (Resolved items, db) /\
    Permutation items (map_to_list db).*2.
Proof.
  eexists. split; [reflexivity |].
  rewrite !Array_sort_Permutation. reflexivity.
Qed.

End GalleryWrites.

(** X1: when [saveGalleryItem] resolves, a record has been added whose
    fields are those of [metadata] where it names them and otherwise
    the blob, the type, the size of the blob, the second reading of the
    clock, and as id [Date.now()] and the random digits joined by a
    dash.  The promise resolves with the id of that record; no record
    was stored under that id before, the new record is stored under it
    now, and the record under every other key is as it was. *)
Theorem saveGalleryItem_stores_item
    (env : Storage.Idb) (now_id now : Z) (random : string)
    (b : Storage.Blob) (ty : string) (meta : Storage.Metadata)
    (db db' : gmap string Storage.GalleryItem) (key : string) :
  Storage.saveGalleryItem env now_id now random b ty meta db = (Resolved key, db') ->
  key = default (pretty now_id +:+ "-" +:+ random) (Storage.meta_id meta) /\
  db !! key = None /\
  db' !! key =
    Some {| Storage.id := key;
            Storage.blob := default b (Storage.meta_blob meta);
            Storage.type := default ty (Storage.meta_type meta);
            Storage.size := default (Storage.blob_size b) (Storage.meta_size meta);
            Storage.timestamp := default now (Storage.meta_timestamp meta);
            Storage.extra := Storage.properties meta |} /\
  (forall k : string, k <> key -> db' !! k = db !! k).
Proof.
  intros Hsave.
  destruct (saveGalleryItem_resolved _ _ _ _ _ _ _ _ _ _ Hsave) as (Hkey & Hfree & ->).
  split; [exact Hkey |]. split; [exact Hfree |]. split.
  - rewrite lookup_insert_eq, Hkey. reflexivity.
  - intros k Hk. apply lookup_insert_ne. congruence.
Qed.

Lemma saveGalleryItem_stores_item_witness :
  "1700000009000-k3x" = pretty 1700000009000 +:+ "-" +:+ "k3x" /\
  sample_gallery !! "1700000009000-k3x" = None /\
  <["1700000009000-k3x" := saved_item]> sample_gallery !! "1700000009000-k3x"
    = Some saved_item /\
  (forall k : string, k <> "1700000009000-k3x" ->
     <["1700000009000-k3x" := saved_item]> sample_gallery !! k
       = sample_gallery !! k).
Proof.
  apply (saveGalleryItem_stores_item Storage.healthy 1700000009000
           1700000009001 "k3x" sample_blob "image/jpeg" (Storage.plain [])
           sample_gallery
           (<["1700000009000-k3x" := saved_item]> sample_gallery)
           "1700000009000-k3x").
  reflexivity.
Defined.

(** X2: a call of [saveGalleryItem], [deleteGalleryItem] or
    [clearGallery] that rejects has written nothing: the store is what
    it was before the call. *)
Theorem rejected_write_keeps_gallery
    (env : Storage.Idb) (db db' : gmap string Storage.GalleryItem) (err : string) :
  (forall now_id now random b ty meta,
     Storage.saveGalleryItem env now_id now random b ty meta db
       = (Rejected err, db') -> db' = db) /\
  (forall key,
     Storage.deleteGalleryItem env key db = (Rejected err, db') -> db' = db) /\
  (Storage.clearGallery env db = (Rejected err, db') -> db' = db).
Proof.
  repeat split.
  - intros now_id now random b ty meta Hsave.
    rewrite saveGalleryItem_cases in Hsave.
    destruct (Storage.open_error env), (Storage.transaction_error env),
      (Storage.request_error env); try congruence.
    revert Hsave.
    destruct (db !! Storage.id (Storage.new_item now_id now random b ty meta));
      congruence.
  - intros key Hdel. pose proof (deleteGalleryItem_cases env key db) as Hcases.
    destruct (Storage.open_error env), (Storage.transaction_error env),
      (Storage.request_error env); rewrite Hcases in Hdel; congruence.
  - intros Hclear. pose proof (clearGallery_cases env db) as Hcases.
    destruct (Storage.open_error env), (Storage.transaction_error env),
      (Storage.request_error env); rewrite Hcases in Hclear; congruence.
Qed.

Lemma rejected_write_keeps_gallery_witness :
  let failing := {| Storage.open_error := None; Storage.transaction_error := None;
                    Storage.request_error := Some "QuotaExceededError" |} in
  (Storage.clearGallery failing sample_gallery).1 = Rejected "QuotaExceededError" /\
  (Storage.clearGallery failing sample_gallery).2 = sample_gallery.
Proof.
  cbv zeta. split; [reflexivity |].
  apply (proj2 (proj2 (rejected_write_keeps_gallery
                         {| Storage.open_error := None;
                            Storage.transaction_error := None;
                            Storage.request_error := Some "QuotaExceededError" |}
                         sample_gallery _ "QuotaExceededError"))).
  reflexivity.
Defined.

(** X3: [saveGalleryItem] never overwrites: when a record is already
    stored under the id of the record it builds (the id [metadata]
    names, or else the one it generates), it rejects and the store
    keeps the old record. *)
Theorem saveGalleryItem_never_overwrites
    (env : Storage.Idb) (now_id now : Z) (random : string)
    (b : Storage.Blob) (ty : string) (meta : Storage.Metadata)
    (db : gmap string Storage.GalleryItem) (old : Storage.GalleryItem) :
  db !! default (pretty now_id +:+ "-" +:+ random) (Storage.meta_id meta)
    = Some old ->
  exists err,
    Storage.saveGalleryItem env now_id now random b ty meta db = (Rejected err, db).
Proof.
  intros Htaken. rewrite saveGalleryItem_cases. cbn [Storage.new_item Storage.id].
  rewrite Htaken.
  destruct (Storage.open_error env), (Storage.transaction_error env),
    (Storage.request_error env); eauto.
Qed.

Lemma saveGalleryItem_never_overwrites_witness :
  exists err,
    Storage.saveGalleryItem Storage.healthy 1700000000000 1700000000001 "a"
      sample_blob "image/png" (Storage.plain []) sample_gallery
      = (Rejected err, sample_gallery).
Proof.
  apply (saveGalleryItem_never_overwrites Storage.healthy 1700000000000
           1700000000001 "a" sample_blob "image/png" (Storage.plain [])
           sample_gallery
           (sample_item "1700000000000-a" "image/jpeg" 1700000000000)).
  reflexivity.
Defined.

(** X4: saving and then deleting the id that was returned gives back
    the store as it was before the save. *)
Theorem save_then_delete_restores
    (env : Storage.Idb) (now_id now : Z) (random : string)
    (b : Storage.Blob) (ty : string) (meta : Storage.Metadata)
    (db db' : gmap string Storage.GalleryItem) (key : string) :
  Storage.saveGalleryItem env now_id now random b ty meta db = (Resolved key, db') ->
  Storage.deleteGalleryItem Storage.healthy key db' = (Resolved tt, db).
Proof.
  intros Hsave.
  destruct (saveGalleryItem_resolved _ _ _ _ _ _ _ _ _ _ Hsave) as (_ & Hfree & ->).
  transitivity
    (Resolved tt,
     delete key (<[key := Storage.new_item now_id now random b ty meta]> db));
    [reflexivity |].
  f_equal. apply delete_insert_id, Hfree.
Qed.

Lemma save_then_delete_restores_witness :
  Storage.deleteGalleryItem Storage.healthy "1700000009000-k3x"
    (<["1700000009000-k3x" := saved_item]> sample_gallery)
  = (Resolved tt, sample_gallery).
Proof.
  apply (save_then_delete_restores Storage.healthy 1700000009000 1700000009001
           "k3x" sample_blob "image/jpeg" (Storage.plain []) sample_gallery).
  reflexivity.
Defined.

(** X5: after a successful save the gallery that [loadGalleryItems]
    reads is the gallery it read before together with the new record,
    once: the record whose fields are those of [metadata] where it
    names them, and otherwise the returned id, the blob, the type, the
    size of the blob and the second reading of the clock. *)
Theorem save_then_load_adds_item
    (env : Storage.Idb) (now_id now : Z) (random : string)
    (b : Storage.Blob) (ty : string) (meta : Storage.Metadata)
    (db db' : gmap string Storage.GalleryItem) (key : string) :
  Storage.saveGalleryItem env now_id now random b ty meta db = (Resolved key, db') ->
  exists before after,
    Storage.loadGalleryItems Storage.healthy db = (Resolved before, db) /\
    Storage.loadGalleryItems Storage.healthy db' = (Resolved after, db') /\
    Permutation after
      ({| Storage.id := key;
          Storage.blob := default b (Storage.meta_blob meta);
          Storage.type := default ty (Storage.meta_type meta);
          Storage.size := default (Storage.blob_size b) (Storage.meta_size meta);
          Storage.timestamp := default now (Storage.meta_timestamp meta);
          Storage.extra := Storage.properties meta |} :: before).
Proof.
  intros Hsave.
  destruct (saveGalleryItem_resolved _ _ _ _ _ _ _ _ _ _ Hsave) as (Hkey & Hfree & ->).
  destruct (loadGalleryItems_healthy db) as (before & Hbefore & Hperm).
  destruct (loadGalleryItems_healthy
              (<[key := Storage.new_item now_id now random b ty meta]> db))
    as (after & Hafter & Hperm').
  exists before, after. repeat split; [exact Hbefore | exact Hafter |].
  rewrite Hperm', Hperm, map_to_list_insert by exact Hfree.
  rewrite Hkey. reflexivity.
Qed.

Lemma save_then_load_adds_item_witness :
  exists before after,
    Storage.loadGalleryItems Storage.healthy sample_gallery
      = (Resolved before, sample_gallery) /\
    Storage.loadGalleryItems Storage.healthy
      (<["1700000009000-k3x" := saved_item]> sample_gallery)
      = (Resolved after, <["1700000009000-k3x" := saved_item]> sample_gallery) /\
    Permutation after (saved_item :: before).
Proof.
  apply (save_then_load_adds_item Storage.healthy 1700000009000 1700000009001
           "k3x" sample_blob "image/jpeg" (Storage.plain []) sample_gallery).
  reflexivity.
Defined.

(** X6: deleting an id under which nothing is stored succeeds on a
    healthy database, and changes nothing whatever the database does. *)
Theorem deleteGalleryItem_missing_key
    (env : Storage.Idb) (key : string) (db : gmap string Storage.GalleryItem) :
  db !! key = None ->
  (Storage.deleteGalleryItem env key db).2 = db /\
  Storage.deleteGalleryItem Storage.healthy key db = (Resolved tt, db).
Proof.
  intros Hmissing. split.
  - pose proof (deleteGalleryItem_cases env key db) as Hcases.
    destruct (Storage.open_error env), (Storage.transaction_error env),
      (Storage.request_error env); rewrite Hcases; cbn [snd];
      try reflexivity.
    apply delete_id, Hmissing.
  - transitivity (Resolved tt, delete key db); [reflexivity |].
    f_equal. apply delete_id, Hmissing.
Qed.

Lemma deleteGalleryItem_missing_key_witness :
  Storage.deleteGalleryItem Storage.healthy "1600000000000-zz" sample_gallery
    = (Resolved tt, sample_gallery).
Proof.
  apply (deleteGalleryItem_missing_key Storage.healthy "1600000000000-zz"
           sample_gallery).
  reflexivity.
Defined.

(** X7: after a successful [deleteGalleryItem(id)] the gallery that
    [loadGalleryItems] reads is the gallery it read before less the
    record that was stored under [id], and nothing is stored under [id]. *)
Theorem delete_then_load_drops_item
    (env : Storage.Idb) (key : string) (item : Storage.GalleryItem)
    (db db' : gmap string Storage.GalleryItem) :
  db !! key = Some item ->
  Storage.deleteGalleryItem env key db = (Resolved tt, db') ->
  db' !! key = None /\
  exists before after,
    Storage.loadGalleryItems Storage.healthy db = (Resolved before, db) /\
    Storage.loadGalleryItems Storage.healthy db' = (Resolved after, db') /\
    Permutation before (item :: after).
Proof.
  intros Hstored Hdel.
  pose proof (deleteGalleryItem_cases env key db) as Hcases.
  destruct (Storage.open_error env), (Storage.transaction_error env),
    (Storage.request_error env); rewrite Hcases in Hdel; try discriminate.
  injection Hdel as <-. split; [apply lookup_delete_eq |].
  destruct (loadGalleryItems_healthy db) as (before & Hbefore & Hperm).
  destruct (loadGalleryItems_healthy (delete key db)) as (after & Hafter & Hperm').
  exists before, after. repeat split; [exact Hbefore | exact Hafter |].
  rewrite Hperm, Hperm'.
  rewrite <- (map_to_list_delete db key item Hstored). reflexivity.
Qed.

Lemma delete_then_load_drops_item_witness :
  delete "1700000005000-b" sample_gallery !! "1700000005000-b" = None /\
  exists before after,
    Storage.loadGalleryItems Storage.healthy sample_gallery
      = (Resolved before, sample_gallery) /\
    Storage.loadGalleryItems Storage.healthy
      (delete "1700000005000-b" sample_gallery)
      = (Resolved after, delete "1700000005000-b" sample_gallery) /\
    Permutation before
      (sample_item "1700000005000-b" "video/webm" 1700000005000 :: after).
Proof.
  apply (delete_then_load_drops_item Storage.healthy "1700000005000-b"
           (sample_item "1700000005000-b" "video/webm" 1700000005000)
           sample_gallery);
    reflexivity.
Defined.

(** ** Statistics of the gallery *)

Section Statistics.
Import Storage StorageStats.

Lemma or_zero_Some (v : Z) : or_zero (Some v) = v.
Proof. cbn. destruct (Z.eqb_spec v 0); congruence. Qed.

(** [getStorageStats] in terms of what [loadGalleryItems] does. *)
Lemma getStorageStats_cases (env : Idb) (db : gmap string GalleryItem) :
  getStorageStats env db =
    match loadGalleryItems env db with
    | (Resolved items, db') =>
        (Resolved
           {| totalItems := Z.of_nat (length items);
              totalSize := foldl add_size 0%float items;
              totalSizeMB :=
                toFixed2 (foldl add_size 0%float items / (1024 * 1024))%float;
              counts := foldl count_item ∅ items |}, db')
    | (Rejected err, db') => (Resolved no_stats, db')
    end.
Proof.
  unfold getStorageStats, try_catch, await, return_value.
  destruct (loadGalleryItems env db) as [[items | err] db']; reflexivity.
Qed.

(** The first [reduce] adds up the sizes, exactly as long as the sum
    stays below [2^53]. *)
Lemma total_size_sum (items : list GalleryItem) :
  forall start : Z,
    0 <= start ->
    (forall item, item ∈ items -> 0 <= size item) ->
    start + foldr Z.add 0 (size <$> items) < 2 ^ 53 ->
    foldl add_size (float_of_Z start) items
      = float_of_Z (start + foldr Z.add 0 (size <$> items)).
Proof.
  induction items as [| x items IH]; intros start Hstart Hsizes Hsum;
    cbn [foldl fmap list_fmap foldr] in *.
  - rewrite Z.add_0_r. reflexivity.
  - assert (Hx : 0 <= size x) by (apply Hsizes, list_elem_of_here).
    assert (Hrest : 0 <= foldr Z.add 0 (size <$> items)).
    { clear -Hsizes. induction items as [| y items IH]; cbn; [lia |].
      assert (0 <= size y)
        by (apply Hsizes, list_elem_of_further, list_elem_of_here).
      assert (0 <= foldr Z.add 0 (size <$> items)); [| lia].
      apply IH. intros item [-> | Hin]%elem_of_cons.
      - apply Hsizes, list_elem_of_here.
      - apply Hsizes, list_elem_of_further, list_elem_of_further, Hin. }
    unfold add_size at 2. rewrite or_zero_Some.
    rewrite add_integers_exact by lia.
    rewrite IH; [f_equal; lia | lia | | lia].
    intros item Hin. apply Hsizes, list_elem_of_further, Hin.
Qed.

Lemma sum_sizes_Permutation (l l' : list GalleryItem) :
  Permutation l l' ->
  foldr Z.add 0 (size <$> l) = foldr Z.add 0 (size <$> l').
Proof. induction 1; cbn; lia. Qed.

Lemma in_category_cons (c : string) (x : GalleryItem) (l : list GalleryItem) :
  in_category c (x :: l) =
    (if String.eqb (category (type x)) c then 1 else 0) + in_category c l.
Proof.
  unfold in_category. cbn [List.filter].
  destruct (String.eqb (category (type x)) c); cbn [length]; lia.
Qed.

Lemma in_category_nonneg (c : string) (l : list GalleryItem) :
  0 <= in_category c l.
Proof. unfold in_category. lia. Qed.

Lemma in_category_Permutation (c : string) (l l' : list GalleryItem) :
  Permutation l l' -> in_category c l = in_category c l'.
Proof.
  induction 1; rewrite ?in_category_cons; lia.
Qed.

(** The second [reduce] counts the items of each category. *)
Lemma counts_lookup (c : string) (items : list GalleryItem) :
  forall acc : gmap string Z,
    foldl count_item acc items !! c =
      if in_category c items =? 0 then acc !! c
      else Some (or_zero (acc !! c) + in_category c items).
Proof.
  induction items as [| x items IH]; intros acc; cbn [foldl].
  - reflexivity.
  - rewrite IH, in_category_cons. unfold count_item.
    pose proof (in_category_nonneg c items) as Hnn.
    destruct (String.eqb_spec (category (type x)) c) as [-> | Hne].
    + rewrite lookup_insert_eq, or_zero_Some.
      destruct (Z.eqb_spec (1 + in_category c items) 0) as [| _]; [lia |].
      destruct (Z.eqb_spec (in_category c items) 0) as [Hnone | _];
        f_equal; lia.
    + rewrite lookup_insert_ne by exact Hne.
      rewrite Z.add_0_l. reflexivity.
Qed.

(** Every item falls in exactly one of the three categories. *)
Lemma categories_partition (items : list GalleryItem) :
  in_category "video" items + in_category "audio" items
    + in_category "image" items = Z.of_nat (length items).
Proof.
  induction items as [| x items IH]; [reflexivity |].
  rewrite !in_category_cons. cbn [length]. rewrite Nat2Z.inj_succ, <- IH.
  unfold category.
  destruct (String.prefix "video/" (type x)); [cbn; lia |].
  destruct (String.prefix "audio/" (type x)); cbn; lia.
Qed.

Lemma category_cases (ty : string) :
  category ty = "video" \/ category ty = "audio" \/ category ty = "image".
Proof.
  unfold category.
  destruct (String.prefix "video/" ty); [auto |].
  destruct (String.prefix "audio/" ty); auto.
Qed.

Lemma in_category_other (c : string) (items : list GalleryItem) :
  c <> "video" -> c <> "audio" -> c <> "image" -> in_category c items = 0.
Proof.
  intros Hv Ha Hi. induction items as [| x items IH]; [reflexivity |].
  rewrite in_category_cons, IH.
  destruct (String.eqb_spec (category (type x)) c) as [<- | _]; [| reflexivity].
  destruct (category_cases (type x)) as [H | [H | H]]; congruence.
Qed.

End Statistics.

(** The statistics of a gallery of a photo of 1.5 MiB, a clip of 3 MiB
    and a voice note of 512 KiB. *)
Example getStorageStats_sized_gallery :
  StorageStats.getStorageStats Storage.healthy sized_gallery =
    (Resolved {| StorageStats.totalItems := 3;
                 StorageStats.totalSize := 5242880%float;
                 StorageStats.totalSizeMB := "5.00";
                 StorageStats.counts :=
                   <["image" := 1]> (<["video" := 1]> (<["audio" := 1]> ∅)) |},
     sized_gallery).
Proof. vm_compute. reflexivity. Qed.

(** Rounding to hundredths of a MiB. *)
Example toFixed2_rounds :
  StorageStats.toFixed2 (1572864 / 1048576)%float = "1.50" /\
  StorageStats.toFixed2 (5242 / 1048576)%float = "0.00" /\
  StorageStats.toFixed2 (5243 / 1048576)%float = "0.01" /\
  StorageStats.toFixed2 (123456789 / 1048576)%float = "117.74" /\
  StorageStats.toFixed2 0x1p-3%float = "0.13" /\
  StorageStats.toFixed2 0x1p70%float = "1.1805916207174113e+21".
Proof. vm_compute. repeat split. Qed.

(** A gallery whose newest record has a size of [2^53]: adding the
    sizes of the two others, 1 each, leaves the sum where it is. *)
Example totalSize_rounds :
  let db : gmap string Storage.GalleryItem :=
    list_to_map
      [("3-a", sized_item "3-a" "video/webm" 3 9007199254740992);
       ("2-b", sized_item "2-b" "image/jpeg" 2 1);
       ("1-c", sized_item "1-c" "image/jpeg" 1 1)] in
  exists stats,
    StorageStats.getStorageStats Storage.healthy db = (Resolved stats, db) /\
    StorageStats.totalSize stats = float_of_Z 9007199254740992 /\
    foldr Z.add 0 (Storage.size <$> (map_to_list db).*2) = 9007199254740994.
Proof.
  cbv zeta. eexists. split; [reflexivity |].
  split; vm_compute; reflexivity.
Qed.

(** X8: [getStorageStats] never rejects, whatever IndexedDB does, and
    never writes; when the database fails at any step, also at the read
    that [loadGalleryItems] lets through, it answers the statistics of
    an empty gallery. *)
Theorem getStorageStats_never_rejects
    (env : Storage.Idb) (db : gmap string Storage.GalleryItem) :
  exists stats,
    StorageStats.getStorageStats env db = (Resolved stats, db) /\
    (Storage.open_error env <> None \/ Storage.transaction_error env <> None \/
     Storage.request_error env <> None -> stats = StorageStats.no_stats).
Proof.
  rewrite getStorageStats_cases.
  pose proof (loadGalleryItems_cases env db) as Hcases.
  destruct (Storage.open_error env), (Storage.transaction_error env),
    (Storage.request_error env); rewrite Hcases;
    eexists; (split; [reflexivity |]); try reflexivity.
  intros [H | [H | H]]; congruence.
Qed.

(** X9: on a healthy database [totalItems] is the number of stored
    records, and [totalSize] is the sum of their sizes as long as no
    size is negative and the sum is below [2^53]: the sizes are added
    in binary64, which is exact up to there. *)
Theorem getStorageStats_totals (db : gmap string Storage.GalleryItem) :
  exists stats,
    StorageStats.getStorageStats Storage.healthy db = (Resolved stats, db) /\
    StorageStats.totalItems stats = Z.of_nat (size db) /\
    ((forall key item, db !! key = Some item -> 0 <= Storage.size item) ->
     foldr Z.add 0 (Storage.size <$> (map_to_list db).*2) < 2 ^ 53 ->
     StorageStats.totalSize stats
       = float_of_Z (foldr Z.add 0 (Storage.size <$> (map_to_list db).*2))).
Proof.
  rewrite getStorageStats_cases.
  destruct (loadGalleryItems_healthy db) as (items & -> & Hperm).
  eexists. split; [reflexivity |]. cbn [StorageStats.totalItems StorageStats.totalSize].
  split.
  - rewrite Hperm, length_fmap, length_map_to_list. reflexivity.
  - intros Hsizes Hsum.
    rewrite <- (sum_sizes_Permutation _ _ Hperm) in Hsum |- *.
    change 0%float with (float_of_Z 0).
    rewrite total_size_sum; [reflexivity | lia | | exact Hsum].
    intros item Hin. rewrite Hperm in Hin.
    apply list_elem_of_fmap in Hin as ([key item'] & -> & Hin).
    apply elem_of_map_to_list in Hin. eapply Hsizes, Hin.
Qed.

(** X10: on a healthy database [counts] holds, for each of 'video',
    'audio' and 'image', the number of stored records of that category
    (by the prefix of their type, 'image' being whatever is neither
    video nor audio), and no entry for a category without records or
    under any other name; the three numbers add up to [totalItems]. *)
Theorem getStorageStats_counts (db : gmap string Storage.GalleryItem) :
  let items := (map_to_list db).*2 in
  exists stats,
    StorageStats.getStorageStats Storage.healthy db = (Resolved stats, db) /\
    (forall c : string,
       StorageStats.counts stats !! c =
         if in_category c items =? 0 then None else Some (in_category c items)) /\
    (forall c : string,
       c <> "video" -> c <> "audio" -> c <> "image" ->
       StorageStats.counts stats !! c = None) /\
    in_category "video" items + in_category "audio" items
      + in_category "image" items = StorageStats.totalItems stats.
Proof.
  cbv zeta. rewrite getStorageStats_cases.
  destruct (loadGalleryItems_healthy db) as (items & -> & Hperm).
  eexists. split; [reflexivity |].
  cbn [StorageStats.totalItems StorageStats.counts].
  assert (Hcount : forall c : string,
    foldl StorageStats.count_item ∅ items !! c =
      if in_category c (map_to_list db).*2 =? 0 then None
      else Some (in_category c (map_to_list db).*2)).
  { intros c. rewrite counts_lookup, lookup_empty.
    rewrite (in_category_Permutation c _ _ Hperm).
    destruct (_ =? 0); [reflexivity |]. cbn. reflexivity. }
  repeat split.
  - exact Hcount.
  - intros c Hv Ha Hi. rewrite Hcount, in_category_other by assumption.
    reflexivity.
  - rewrite <- !(in_category_Permutation _ _ _ Hperm). apply categories_partition.
Qed.

(** X11: after a successful [clearGallery] the store is empty:
    [loadGalleryItems] resolves with no items, and [getStorageStats]
    with the statistics of an empty gallery whatever the database does
    then. *)
Theorem clear_then_gallery_is_empty
    (env : Storage.Idb) (db db' : gmap string Storage.GalleryItem) :
  Storage.clearGallery env db = (Resolved tt, db') ->
  db' = ∅ /\
  Storage.loadGalleryItems Storage.healthy db' = (Resolved [], db') /\
  (forall env' : Storage.Idb,
     StorageStats.getStorageStats env' db' = (Resolved StorageStats.no_stats, db')).
Proof.
  intros Hclear. pose proof (clearGallery_cases env db) as Hcases.
  destruct (Storage.open_error env), (Storage.transaction_error env),
    (Storage.request_error env); rewrite Hcases in Hclear; try discriminate.
  injection Hclear as <-. repeat split.
  intros env'. rewrite getStorageStats_cases.
  pose proof (loadGalleryItems_cases env' ∅) as Hload.
  destruct (Storage.open_error env'), (Storage.transaction_error env'),
    (Storage.request_error env'); rewrite Hload; reflexivity.
Qed.

Lemma clear_then_gallery_is_empty_witness :
  Storage.loadGalleryItems Storage.healthy
    (Storage.clearGallery Storage.healthy sized_gallery).2
  = (Resolved [], (Storage.clearGallery Storage.healthy sized_gallery).2).
Proof.
  apply (clear_then_gallery_is_empty Storage.healthy sized_gallery).
  reflexivity.
Defined.

(** X12: records stay stored under their own ids: whatever
    [saveGalleryItem], [deleteGalleryItem] and [clearGallery] do to a
    store in which every record is under its [id], resolve or reject,
    they leave such a store. *)
Theorem gallery_stays_well_keyed
    (env : Storage.Idb) (db : gmap string Storage.GalleryItem) :
  well_keyed db ->
  (forall now_id now random b ty meta,
     well_keyed (Storage.saveGalleryItem env now_id now random b ty meta db).2) /\
  (forall key, well_keyed (Storage.deleteGalleryItem env key db).2) /\
  well_keyed (Storage.clearGallery env db).2.
Proof.
  intros Hkeyed. repeat split.
  - intros now_id now random b ty meta. rewrite saveGalleryItem_cases.
    destruct (Storage.open_error env), (Storage.transaction_error env),
      (Storage.request_error env); try exact Hkeyed.
    destruct (db !! Storage.id (Storage.new_item now_id now random b ty meta));
      [exact Hkeyed |].
    intros key item. cbn [snd].
    destruct (decide
                (key = Storage.id (Storage.new_item now_id now random b ty meta)))
      as [-> | Hne].
    + rewrite lookup_insert_eq. intros [= <-]. reflexivity.
    + rewrite lookup_insert_ne by congruence. apply Hkeyed.
  - intros key. pose proof (deleteGalleryItem_cases env key db) as Hcases.
    destruct (Storage.open_error env), (Storage.transaction_error env),
      (Storage.request_error env); rewrite Hcases; try exact Hkeyed.
    intros k item. cbn [snd]. unfold Storage.Store.
    destruct (decide (k = key)) as [-> | Hne].
    + rewrite lookup_delete_eq. discriminate.
    + rewrite lookup_delete_ne by congruence. apply Hkeyed.
  - pose proof (clearGallery_cases env db) as Hcases.
    destruct (Storage.open_error env), (Storage.transaction_error env),
      (Storage.request_error env); rewrite Hcases; try exact Hkeyed.
    intros k item. cbn [snd]. unfold Storage.Store.
    rewrite lookup_empty. discriminate.
Qed.

(** X13: the items [loadGalleryItems] resolves with have distinct ids,
    when every record is stored under its [id]. *)
Theorem loadGalleryItems_distinct_ids
    (env : Storage.Idb) (db db' : gmap string Storage.GalleryItem)
    (items : list Storage.GalleryItem) :
  well_keyed db ->
  Storage.loadGalleryItems env db = (Resolved items, db') ->
  NoDup (Storage.id <$> items).
Proof.
  intros Hkeyed Hload.
  pose proof (loadGalleryItems_cases env db) as Hcases.
  destruct (Storage.open_error env), (Storage.transaction_error env),
    (Storage.request_error env); rewrite Hcases in Hload;
    try discriminate; injection Hload as <- <-; try constructor.
  rewrite !Array_sort_Permutation.
  assert (Hids : Storage.id <$> (map_to_list db).*2 = (map_to_list db).*1).
  { rewrite <- list_fmap_compose. apply list_fmap_ext.
    intros i [key item] Hi. cbn. apply Hkeyed.
    apply elem_of_map_to_list. eapply list_elem_of_lookup_2, Hi. }
  unfold Storage.Store. rewrite Hids. apply NoDup_fst_map_to_list.
Qed.

Lemma sample_gallery_well_keyed : well_keyed sample_gallery.
Proof.
  intros key item.
  apply (map_Forall_lookup_1 (fun k it => Storage.id it = k) sample_gallery).
  apply (bool_decide_unpack _). vm_compute. exact I.
Qed.

Lemma gallery_stays_well_keyed_witness :
  well_keyed
    (Storage.saveGalleryItem Storage.healthy 1700000009000 1700000009001
       "k3x" sample_blob "image/jpeg" (Storage.plain []) sample_gallery).2 /\
  well_keyed
    (Storage.deleteGalleryItem Storage.healthy "1700000005000-b" sample_gallery).2.
Proof.
  destruct (gallery_stays_well_keyed Storage.healthy sample_gallery
              sample_gallery_well_keyed) as (Hsave & Hdelete & _).
  split; [apply Hsave | apply Hdelete].
Defined.

Lemma loadGalleryItems_distinct_ids_witness :
  NoDup (Storage.id <$>
           [sample_item "1700000005000-b" "video/webm" 1700000005000;
            sample_item "1700000002000-c" "image/jpeg" 1700000002000;
            sample_item "1700000000000-a" "image/jpeg" 1700000000000]).
Proof.
  apply (loadGalleryItems_distinct_ids Storage.healthy sample_gallery sample_gallery).
  - exact sample_gallery_well_keyed.
  - vm_compute. reflexivity.
Defined.

(** ** Starting the processor *)

Section Starting.

(** A size between 0 and [2^31 - 1] is the size the canvas takes. *)
Lemma reflect_in_range (default_value value : Z) :
  0 <= value <= 2147483647 ->
  reflect_unsigned_long default_value value = value.
Proof.
  intros Hrange. unfold reflect_unsigned_long. cbv zeta.
  rewrite Z.mod_small by lia.
  destruct (Z.leb_spec value 2147483647); [reflexivity | lia].
Qed.

(** The wait for the first frame goes on for as long as no frame is
    there. *)
Lemma checkFrame_waits (env : Platform) (polls : nat) :
  forall n : nat,
    checkFrame polls env n = None <->
    (forall k : nat, (k < polls)%nat -> frame_ready env (n + k) = false).
Proof.
  induction polls as [| polls IH]; intros n; cbn [checkFrame].
  - split; [intros _ k Hk; lia | reflexivity].
  - unfold frame_ready at 1.
    destruct (frame_size env n) as [vw vh] eqn:Hsize.
    destruct (nonzero vw && nonzero vh) eqn:Hnow.
    + split; [discriminate |]. intros Hnone.
      specialize (Hnone 0%nat ltac:(lia)). unfold frame_ready in Hnone.
      rewrite Nat.add_0_r, Hsize in Hnone. cbn in Hnone. congruence.
    + rewrite IH. split.
      * intros Hlater [| k] Hk.
        -- unfold frame_ready. rewrite Nat.add_0_r, Hsize. exact Hnow.
        -- replace (n + S k)%nat with (S n + k)%nat by lia. apply Hlater. lia.
      * intros Hall k Hk.
        replace (S n + k)%nat with (n + S k)%nat by lia. apply Hall. lia.
Qed.

(** The frame the wait ends with has both dimensions. *)
Lemma checkFrame_nonzero (env : Platform) (polls : nat) :
  forall (n : nat) (vw vh : Z),
    checkFrame polls env n = Some (vw, vh) ->
    nonzero vw && nonzero vh = true.
Proof.
  induction polls as [| polls IH]; intros n vw vh; cbn [checkFrame];
    [discriminate |].
  destruct (frame_size env n) as [vw' vh'].
  destruct (nonzero vw' && nonzero vh') eqn:Hnow.
  - intros [= <- <-]. exact Hnow.
  - apply IH.
Qed.

(** The wait ends at the first poll at which the video has a frame, with
    the size the video reports then. *)
Lemma checkFrame_first (env : Platform) (polls : nat) :
  forall (n : nat) (vw vh : Z),
    checkFrame polls env n = Some (vw, vh) ->
    exists k : nat,
      (k < polls)%nat /\ frame_size env (n + k) = (vw, vh) /\
      (forall j : nat, (j < k)%nat -> frame_ready env (n + j) = false).
Proof.
  induction polls as [| polls IH]; intros n vw vh; cbn [checkFrame];
    [discriminate |].
  destruct (frame_size env n) as [vw' vh'] eqn:Hsize.
  destruct (nonzero vw' && nonzero vh') eqn:Hnow.
  - intros [= <- <-]. exists 0%nat. rewrite Nat.add_0_r.
    repeat split; [lia | exact Hsize |]. intros j Hj. lia.
  - intros Hlater. destruct (IH _ _ _ Hlater) as (k & Hk & Hat & Hbefore).
    exists (S k). replace (n + S k)%nat with (S n + k)%nat by lia.
    repeat split; [lia | exact Hat |].
    intros [| j] Hj.
    + unfold frame_ready. rewrite Nat.add_0_r, Hsize. exact Hnow.
    + replace (n + S j)%nat with (S n + j)%nat by lia. apply Hbefore. lia.
Qed.

(** What one call of [processFrame] does while the processor runs. *)
Lemma processFrame_running (fitMode : string) (this : Processor) (w : World)
    (video : VideoElement) :
  isProcessing this = true -> inputVideo this = Some video ->
  nonzero (videoWidth video) && nonzero (videoHeight video) = true ->
  let g := calculateCropResize (N:=float)
             (of_int (videoWidth video)) (of_int (videoHeight video))
             (of_int (canvas_width this)) (of_int (canvas_height this)) fitMode in
  processFrame fitMode this w =
    (set_animationId (Some (S (frames_requested w))) this,
     {| tracks := tracks w; streams := streams w;
        canvas_ops :=
          canvas_ops w ++
          [ClearRect 0 0 (canvas_width this) (canvas_height this);
           FillRect "#000000" 0 0 (canvas_width this) (canvas_height this);
           DrawImage (srcX g) (srcY g) (srcW g) (srcH g)
                     (destX g) (destY g) (destW g) (destH g)];
        frame_requests :=
          frame_requests w ++ [(S (frames_requested w), fitMode)];
        frames_requested := S (frames_requested w);
        console := console w |}).
Proof.
  intros Hbusy Hvideo Hsize. cbv zeta. unfold processFrame.
  rewrite Hbusy, Hvideo, Hsize. reflexivity.
Qed.

(** The audio loop draws nothing and asks for no frame. *)
Lemma forward_audio_canvas (out : nat) (w : World) (t : nat) :
  canvas_ops (forward_audio out w t) = canvas_ops w /\
  frame_requests (forward_audio out w t) = frame_requests w /\
  frames_requested (forward_audio out w t) = frames_requested w.
Proof.
  unfold forward_audio, addTrack.
  destruct (tracks w !! t) as [tr |]; [| auto].
  destruct (clone_method tr), (accepted_by_addTrack tr); cbn;
    repeat match goal with |- context [bool_decide ?P] => destruct (bool_decide P) end;
    auto.
Qed.

Lemma forward_all_canvas (out : nat) (l : list nat) (w : World) :
  canvas_ops (foldl (forward_audio out) w l) = canvas_ops w /\
  frame_requests (foldl (forward_audio out) w l) = frame_requests w /\
  frames_requested (foldl (forward_audio out) w l) = frames_requested w.
Proof.
  revert w. induction l as [| t l IH]; intros w; cbn [foldl]; [auto |].
  destruct (IH (forward_audio out w t)) as (-> & -> & ->).
  apply forward_audio_canvas.
Qed.

(** The processor and the canvas when the promise of [startProcessing]
    resolves: the frame drawn is the one of the first poll at which the
    video had a size. *)
Lemma startProcessing_started
    (polls : nat) (env : Platform) (inputStream : nat) (options : Options)
    (this this' : Processor) (w w' : World) (out : nat) :
  startProcessing polls env inputStream options this w
    = Some (Resolved out, this', w') ->
  let cw := reflect_unsigned_long 300 (default 1920 (width options)) in
  let ch := reflect_unsigned_long 150 (default 1080 (height options)) in
  let mode := default "cover" (fitMode options) in
  exists (k : nat) (vw vh : Z),
    ((k < polls)%nat /\ frame_size env k = (vw, vh) /\
     forall j : nat, (j < k)%nat -> frame_ready env j = false) /\
    nonzero vw && nonzero vh = true /\
    this' = {| canvas_width := cw; canvas_height := ch;
               outputStream := Some out;
               inputVideo := Some {| srcObject := Some inputStream; muted := true;
                                     playsInline := true;
                                     videoWidth := vw; videoHeight := vh |};
               animationId := Some (S (frames_requested w));
               isProcessing := true |} /\
    (let g := calculateCropResize (N:=float) (of_int vw) (of_int vh)
                (of_int cw) (of_int ch) mode in
     canvas_ops w' =
       canvas_ops w ++
       [ClearRect 0 0 cw ch; FillRect "#000000" 0 0 cw ch;
        DrawImage (srcX g) (srcY g) (srcW g) (srcH g)
                  (destX g) (destY g) (destW g) (destH g)]) /\
    frame_requests w' = frame_requests w ++ [(S (frames_requested w), mode)] /\
    frames_requested w' = S (frames_requested w).
Proof.
  cbv zeta. unfold startProcessing.
  destruct (bool_decide _); [discriminate |].
  destruct (metadata env); try discriminate.
  all: destruct (play_with_retry env); try discriminate.
  all: destruct (checkFrame polls env 0) as [[vw vh] |] eqn:Hframe;
         try discriminate.
  all: destruct (capture_error env); try discriminate.
  all: pose proof (checkFrame_first env polls 0 vw vh Hframe) as (k & Hfirst).
  all: cbn [Nat.add] in Hfirst.
  all: apply checkFrame_nonzero in Hframe.
  all: rewrite (surjective_pairing (captureStream _ w)).
  all: cbn [captureStream fst snd].
  all: match goal with
       | |- context [foldl (forward_audio ?o) ?x ?l] =>
           destruct (forward_all_canvas o l x) as (Hops & Hreq & Hcount);
           set (wf := foldl (forward_audio o) x l) in *
       end.
  all: erewrite processFrame_running; [| reflexivity | reflexivity | exact Hframe].
  all: intros [= <- <- <-]; exists k, vw, vh.
  all: cbn [canvas_ops frame_requests frames_requested canvas_width canvas_height
            set_isProcessing set_outputStream set_inputVideo set_canvas
            set_animationId outputStream inputVideo animationId isProcessing
            videoWidth videoHeight].
  all: rewrite Hops, Hreq, Hcount; cbn [canvas_ops frame_requests
         frames_requested with_streams with_tracks]; auto 10.
Qed.

End Starting.

(** X14: a [startProcessing] that rejects has created no track and no
    stream, drawn nothing and asked for no animation frame, and leaves
    [isProcessing], [outputStream] and [animationId] as they were; its
    error is one of four: no video track, the metadata timeout, the
    error of the second [play()], or the error of [captureStream] behind
    the words "Failed to capture canvas stream: ". *)
Theorem startProcessing_rejection_is_clean
    (polls : nat) (env : Platform) (inputStream : nat) (options : Options)
    (this this' : Processor) (w w' : World) (err : string) :
  startProcessing polls env inputStream options this w
    = Some (Rejected err, this', w') ->
  (err = "No video tracks in input stream" \/
   err = "Video metadata timeout" \/
   ((exists e, first_play env = PlayRejects e) /\
    second_play env = PlayRejects err) \/
   (exists msg, capture_error env = Some msg /\
                err = "Failed to capture canvas stream: " +:+ msg)) /\
  tracks w' = tracks w /\ streams w' = streams w /\
  canvas_ops w' = canvas_ops w /\ frame_requests w' = frame_requests w /\
  isProcessing this' = isProcessing this /\
  outputStream this' = outputStream this /\
  animationId this' = animationId this.
Proof.
  unfold startProcessing.
  destruct (bool_decide _).
  { intros [= <- <- <-]. repeat split; auto. }
  destruct (metadata env).
  3: { intros [= <- <- <-]. repeat split; auto. }
  all: destruct (play_with_retry env) as [| e |] eqn:Hplay; try discriminate.
  all: try (intros [= <- <- <-]; repeat split; auto;
            right; right; left; apply play_with_retry_failed, Hplay).
  all: destruct (checkFrame polls env 0) as [[vw vh] |]; try discriminate.
  all: destruct (capture_error env) as [msg |] eqn:Hcap.
  all: try (intros [= <- <- <-]; repeat split; eauto 7).
  all: rewrite (surjective_pairing (captureStream _ w)).
  all: match goal with
       | |- context [processFrame ?f ?t ?x] =>
           destruct (processFrame f t x) as [t' x']
       end; discriminate.
Qed.

Lemma startProcessing_rejection_is_clean_witness :
  let blocked := {| metadata := AlreadyLoaded;
                    first_play := PlayRejects "NotAllowedError";
                    second_play := PlayRejects "NotAllowedError";
                    frame_size := fun _ => (1280, 800);
                    capture_error := None |} in
  match startProcessing 10 blocked 0 (sample_options 30) new_processor sample_world with
  | Some (Rejected err, this', w') =>
      err = "NotAllowedError" /\
      tracks w' = tracks sample_world /\ streams w' = streams sample_world /\
      canvas_ops w' = [] /\ isProcessing this' = false
  | _ => False
  end.
Proof.
  cbv zeta.
  destruct (startProcessing 10 _ 0 (sample_options 30) new_processor sample_world)
    as [[[[out | err] this'] w'] |] eqn:Hrun.
  - vm_compute in Hrun. discriminate.
  - destruct (startProcessing_rejection_is_clean _ _ _ _ _ _ _ _ _ Hrun)
      as (_ & Htracks & Hstreams & Hops & _ & Hbusy & _).
    repeat split; try assumption.
    vm_compute in Hrun. congruence.
  - vm_compute in Hrun. discriminate.
Defined.

(** X15: the promise of [startProcessing] stays pending in exactly two
    ways, neither of which the code bounds: a [play()] whose promise
    never settles (the first, or the second after the first was
    rejected), or, once the video plays, the wait for the first frame,
    for as long as the video has no frame of non-zero size.  In both the
    stream has a video track and the metadata has loaded. *)
Theorem startProcessing_pending_iff
    (polls : nat) (env : Platform) (inputStream : nat) (options : Options)
    (this : Processor) (w : World) :
  startProcessing polls env inputStream options this w = None <->
  getVideoTracks w inputStream <> [] /\
  metadata env <> TimesOut /\
  ((first_play env = PlayPending \/
    (exists err, first_play env = PlayRejects err) /\
    second_play env = PlayPending) \/
   (first_play env = PlayResolves \/
    (exists err, first_play env = PlayRejects err) /\
    second_play env = PlayResolves) /\
   (forall k : nat, (k < polls)%nat -> frame_ready env k = false)).
Proof.
  pose proof (checkFrame_waits env polls 0) as Hwait. cbn [Nat.add] in Hwait.
  rewrite <- play_with_retry_stuck, <- play_with_retry_playing.
  unfold startProcessing.
  destruct (getVideoTracks w inputStream) as [| v vs] eqn:Hvideo; cbn [length].
  { rewrite bool_decide_eq_true_2 by reflexivity.
    split; [discriminate | intros (H & _); congruence]. }
  rewrite bool_decide_eq_false_2 by discriminate.
  destruct (metadata env).
  3: { split; [discriminate | intros (_ & H & _); congruence]. }
  all: destruct (play_with_retry env) as [| e |].
  all: try (split; [discriminate |];
            intros (_ & _ & [H | [H _]]); discriminate).
  all: try (split; [intros _ | reflexivity]; repeat split; auto; discriminate).
  all: destruct (checkFrame polls env 0) as [[vw vh] |].
  all: try (split; [intros _ | reflexivity]; repeat split; try discriminate;
            right; split; [reflexivity | apply Hwait; reflexivity]).
  all: destruct (capture_error env) as [msg |].
  all: try (split; [discriminate |];
            intros (_ & _ & [H | [_ H]]); [discriminate |];
            apply Hwait in H; discriminate).
  all: rewrite (surjective_pairing (captureStream _ w)).
  all: match goal with
       | |- context [processFrame ?f ?t ?x] =>
           destruct (processFrame f t x) as [t' x']
       end.
  all: split; [discriminate |];
         intros (_ & _ & [H | [_ H]]); [discriminate |];
         apply Hwait in H; discriminate.
Qed.

(** X16: when [startProcessing] resolves, the processor is processing,
    its output stream is the one resolved with, and its canvas has the
    size the canvas element makes of the requested one (1920x1080 by
    default): the requested number when it lies between 0 and
    [2^31 - 1], and otherwise what the reflection of an [unsigned long]
    leaves.  The first frame has already been drawn: the canvas was
    cleared, filled with black, and the frame drawn with the geometry
    [calculateCropResize] gives for the size the video reported at the
    first poll at which it had one, the size of the canvas and the
    requested fit mode ('cover' by default); one animation frame is
    requested for the next. *)
Theorem startProcessing_draws_first_frame
    (polls : nat) (env : Platform) (inputStream : nat) (options : Options)
    (this this' : Processor) (w w' : World) (out : nat) :
  startProcessing polls env inputStream options this w
    = Some (Resolved out, this', w') ->
  let cw := reflect_unsigned_long 300 (default 1920 (width options)) in
  let ch := reflect_unsigned_long 150 (default 1080 (height options)) in
  let mode := default "cover" (fitMode options) in
  isProcessing this' = true /\ outputStream this' = Some out /\
  canvas_width this' = cw /\ canvas_height this' = ch /\
  (0 <= default 1920 (width options) <= 2147483647 ->
   cw = default 1920 (width options)) /\
  (0 <= default 1080 (height options) <= 2147483647 ->
   ch = default 1080 (height options)) /\
  (exists k : nat,
     (k < polls)%nat /\ frame_ready env k = true /\
     (forall j : nat, (j < k)%nat -> frame_ready env j = false) /\
     let vw := (frame_size env k).1 in
     let vh := (frame_size env k).2 in
     inputVideo this' = Some {| srcObject := Some inputStream; muted := true;
                                playsInline := true;
                                videoWidth := vw; videoHeight := vh |} /\
     let g := calculateCropResize (N:=float) (of_int vw) (of_int vh)
                (of_int cw) (of_int ch) mode in
     canvas_ops w' =
       canvas_ops w ++
       [ClearRect 0 0 cw ch; FillRect "#000000" 0 0 cw ch;
        DrawImage (srcX g) (srcY g) (srcW g) (srcH g)
                  (destX g) (destY g) (destW g) (destH g)]) /\
  (exists id : nat,
     animationId this' = Some id /\
     frame_requests w' = frame_requests w ++ [(id, mode)]).
Proof.
  intros Hrun. cbv zeta.
  destruct (startProcessing_started _ _ _ _ _ _ _ _ _ Hrun)
    as (k & vw & vh & (Hk & Hat & Hbefore) & Hsize & -> & Hops & Hreq & _).
  cbn [isProcessing outputStream canvas_width canvas_height animationId
       inputVideo].
  split; [reflexivity |]. split; [reflexivity |].
  split; [reflexivity |]. split; [reflexivity |].
  split; [apply reflect_in_range |]. split; [apply reflect_in_range |].
  split.
  - exists k. rewrite Hat. cbn [fst snd].
    repeat split; try assumption.
    unfold frame_ready. rewrite Hat. exact Hsize.
  - eexists. split; [reflexivity | exact Hreq].
Qed.

(** ** The frame loop *)

Section FrameLoop.

(** One animation frame of a running loop: the frame is drawn and the
    next one requested. *)
Lemma run_frame_running (fitMode : string) (this : Processor) (w : World) :
  loop_running fitMode this w ->
  loop_running fitMode (run_frame this w).1 (run_frame this w).2 /\
  length (canvas_ops (run_frame this w).2) = (length (canvas_ops w) + 3)%nat /\
  tracks (run_frame this w).2 = tracks w /\
  streams (run_frame this w).2 = streams w /\
  outputStream (run_frame this w).1 = outputStream this.
Proof.
  intros (Hbusy & video & id & Hvideo & Hsize & Hanim & Hpending).
  unfold run_frame. rewrite Hpending.
  rewrite (processFrame_running fitMode this _ video Hbusy Hvideo Hsize).
  cbn [fst snd tracks streams canvas_ops cancelAnimationFrame outputStream
       set_animationId].
  repeat split.
  - exact Hbusy.
  - exists video, (frames_requested w). repeat split; try assumption.
    cbn. rewrite Hpending. cbn. rewrite Nat.eqb_refl. reflexivity.
  - rewrite length_app. reflexivity.
Qed.

Lemma run_frames_S (n : nat) (this : Processor) (w : World) :
  run_frames (S n) this w =
    run_frame (run_frames n this w).1 (run_frames n this w).2.
Proof. reflexivity. Qed.

Lemma run_frames_running (fitMode : string) (this : Processor) (w : World) (n : nat) :
  loop_running fitMode this w ->
  loop_running fitMode (run_frames n this w).1 (run_frames n this w).2 /\
  length (canvas_ops (run_frames n this w).2) = (length (canvas_ops w) + 3 * n)%nat /\
  tracks (run_frames n this w).2 = tracks w /\
  streams (run_frames n this w).2 = streams w /\
  outputStream (run_frames n this w).1 = outputStream this.
Proof.
  intros Hloop. induction n as [| n (IHloop & IHops & IHtr & IHst & IHout)].
  - change (run_frames 0 this w) with (this, w). cbn [fst snd].
    split; [exact Hloop |]. repeat split. lia.
  - rewrite run_frames_S.
    destruct (run_frame_running fitMode _ _ IHloop)
      as (Hloop' & Hops & Htr & Hst & Hout).
    split; [exact Hloop' |].
    repeat split; [lia | congruence | congruence | congruence].
Qed.

(** Stopping tracks touches nothing but the heap of tracks. *)
Lemma stop_all_world (ts : list nat) (w : World) :
  foldl track_stop w ts = with_tracks (tracks (foldl track_stop w ts)) w.
Proof.
  revert w. induction ts as [| t ts IH]; intros w; cbn [foldl].
  - destruct w; reflexivity.
  - rewrite IH at 1. reflexivity.
Qed.

(** Stopping the tracks of a list once more changes nothing. *)
Lemma stop_all_twice (ts us : list nat) (w : World) :
  (forall u, u ∈ us -> u ∈ ts) ->
  foldl track_stop (foldl track_stop w ts) us = foldl track_stop w ts.
Proof.
  intros Hsub. rewrite (stop_all_world us (foldl track_stop w ts)).
  assert (Hsame : tracks (foldl track_stop (foldl track_stop w ts) us)
                  = tracks (foldl track_stop w ts)).
  { apply list_eq. intros u. rewrite stop_all_lookup.
    destruct (bool_decide_reflect (u ∈ us)) as [Hin | Hnin]; [| reflexivity].
    rewrite stop_all_lookup, bool_decide_eq_true_2 by (apply Hsub, Hin).
    destruct (tracks w !! u); reflexivity. }
  rewrite Hsame. destruct (foldl track_stop w ts); reflexivity.
Qed.

End FrameLoop.

(** X17: the frame loop keeps itself going.  From a successful
    [startProcessing] on, each animation frame that the browser runs
    draws one more frame (clear, fill, draw) and requests exactly one
    next frame with the same fit mode, so that exactly one request is
    pending at any time; it touches no track and no stream. *)
Theorem frame_loop_keeps_running
    (polls : nat) (env : Platform) (inputStream : nat) (options : Options)
    (this this' : Processor) (w w' : World) (out : nat) (n : nat) :
  frame_requests w = [] ->
  startProcessing polls env inputStream options this w
    = Some (Resolved out, this', w') ->
  loop_running (default "cover" (fitMode options))
    (run_frames n this' w').1 (run_frames n this' w').2 /\
  length (canvas_ops (run_frames n this' w').2)
    = (length (canvas_ops w) + 3 * (n + 1))%nat /\
  tracks (run_frames n this' w').2 = tracks w' /\
  streams (run_frames n this' w').2 = streams w' /\
  outputStream (run_frames n this' w').1 = Some out.
Proof.
  intros Hnone Hrun.
  destruct (startProcessing_started _ _ _ _ _ _ _ _ _ Hrun)
    as (k & vw & vh & _ & Hsize & Hthis & Hops & Hreq & _).
  assert (Hloop : loop_running (default "cover" (fitMode options)) this' w').
  { subst this'. split; [reflexivity |].
    eexists _, (frames_requested w). repeat split.
    - exact Hsize.
    - rewrite Hreq, Hnone. reflexivity. }
  destruct (run_frames_running _ _ _ n Hloop) as (Hloop' & Hlen & Htr & Hst & Hout).
  split; [exact Hloop' |]. repeat split; try assumption.
  - rewrite Hlen, Hops, length_app. cbn [length]. lia.
  - rewrite Hout, Hthis. reflexivity.
Qed.

(** X18: [stop()] ends a running frame loop: it cancels the one pending
    animation frame, so that none is pending afterwards, and whatever
    frames the browser still runs draw nothing and request nothing. *)
Theorem stop_cancels_frame_loop
    (fitMode : string) (this : Processor) (w : World) :
  loop_running fitMode this w ->
  frame_requests (stop this w).2 = [] /\
  animationId (stop this w).1 = None /\
  canvas_ops (stop this w).2 = canvas_ops w /\
  (forall n : nat, run_frames n (stop this w).1 (stop this w).2 = stop this w).
Proof.
  intros (Hbusy & video & id & Hvideo & Hsize & Hanim & Hpending).
  assert (Hstop : frame_requests (stop this w).2 = [] /\
                  animationId (stop this w).1 = None /\
                  canvas_ops (stop this w).2 = canvas_ops w).
  { unfold stop. destruct this as [cw ch out v anim busy]. cbn in *. subst.
    destruct out as [o |]; cbn.
    - rewrite stop_all_world. cbn. rewrite Hpending. cbn.
      rewrite Nat.eqb_refl. auto.
    - rewrite Hpending. cbn. rewrite Nat.eqb_refl. auto. }
  destruct Hstop as (Hnone & Hanim' & Hops). repeat split; try assumption.
  intros n. induction n as [| n IH].
  - cbn. destruct (stop this w); reflexivity.
  - rewrite run_frames_S, IH. unfold run_frame. rewrite Hnone.
    destruct (stop this w); reflexivity.
Qed.

(** X19: [stop()] called again changes nothing: neither the processor
    nor any track, stream, canvas or pending frame. *)
Theorem stop_twice_is_stop (this : Processor) (w : World) :
  stop (stop this w).1 (stop this w).2 = stop this w.
Proof.
  unfold stop. destruct this as [cw ch out v anim busy]. cbn.
  destruct anim as [[| id] |], v as [video |], out as [o |]; reflexivity.
Qed.

(** ** Stopping streams *)

Section Stopping.

Lemma stop_all_streams (ts : list nat) (w : World) :
  streams (foldl track_stop w ts) = streams w.
Proof. rewrite stop_all_world. reflexivity. Qed.

(** The platform objects [stop] leaves: the pending frame is cancelled
    and the tracks of the output stream are stopped. *)
Lemma stop_world (this : Processor) (w : World) :
  let wc := match animationId this with
            | Some (S id) => cancelAnimationFrame (S id) w
            | _ => w
            end in
  (stop this w).2 =
    match outputStream this with
    | Some out => foldl track_stop wc (getTracks wc out)
    | None => wc
    end.
Proof.
  cbv zeta. unfold stop. destruct this as [cw ch out v anim busy]. cbn.
  destruct anim as [[| id] |], v as [video |], out as [o |]; reflexivity.
Qed.

End Stopping.

(** X20: [stopStream(stream)] ends every track of the stream, also the
    tracks the stream shares with other streams, and no other track; it
    leaves the streams as they are; calling it again changes nothing,
    and without a stream it does nothing. *)
Theorem stopStream_ends_exactly (stream : nat) (w : World) :
  let w' := Camera.stopStream (Some stream) w in
  (forall t : nat,
     tracks w' !! t =
       if bool_decide (t ∈ getTracks w stream) then ended <$> tracks w !! t
       else tracks w !! t) /\
  streams w' = streams w /\
  Camera.stopStream (Some stream) w' = w' /\
  Camera.stopStream None w = w.
Proof.
  cbv zeta. unfold Camera.stopStream. repeat split.
  - intros t. apply stop_all_lookup.
  - apply stop_all_streams.
  - unfold getTracks at 2. rewrite stop_all_streams.
    apply stop_all_twice. auto.
Qed.

(** X21: [stop()] does to the tracks what [stopStream] does to the
    output stream, so the [stopStream(processedStream)] that the UI
    calls after [videoProcessor.stop()] changes nothing. *)
Theorem stop_then_stopStream (this : Processor) (w : World) (out : nat) :
  outputStream this = Some out ->
  tracks (stop this w).2 = tracks (Camera.stopStream (Some out) w) /\
  Camera.stopStream (Some out) (stop this w).2 = (stop this w).2.
Proof.
  intros Hout. split.
  - rewrite stop_tracks, Hout. reflexivity.
  - rewrite stop_world, Hout. cbv zeta. unfold Camera.stopStream.
    unfold getTracks at 2. rewrite stop_all_streams.
    apply stop_all_twice. auto.
Qed.

Lemma stop_then_stopStream_witness :
  match startProcessing 10 sample_platform 0 (sample_options 30)
          new_processor sample_world with
  | Some (Resolved out, this', w') =>
      Camera.stopStream (Some out) (stop this' w').2 = (stop this' w').2
  | _ => False
  end.
Proof.
  destruct (startProcessing 10 sample_platform 0 (sample_options 30)
              new_processor sample_world)
    as [[[[out | err] this'] w'] |] eqn:Hrun.
  - apply (stop_then_stopStream this' w' out).
    vm_compute in Hrun. injection Hrun as <- <- <-. reflexivity.
  - vm_compute in Hrun. discriminate.
  - vm_compute in Hrun. discriminate.
Defined.

(** ** The input stream after the processor has stopped *)

Section SharedTracks.

Lemma shared_with_output_spec (w : World) (inputStream t : nat) (tr : Track) :
  tracks w !! t = Some tr ->
  shared_with_output w inputStream t = true <->
  t ∈ List.filter (forwardable w) (getAudioTracks w inputStream) /\
  clone_method tr = NoCloneMethod.
Proof.
  intros Ht.
  assert (Hin : t ∈ List.filter (forwardable w) (getAudioTracks w inputStream) <->
                t ∈ getAudioTracks w inputStream /\ forwardable w t = true).
  { rewrite !list_elem_of_In. apply filter_In. }
  rewrite Hin. unfold shared_with_output, forwardable, forwards. rewrite Ht.
  rewrite andb_true_iff, bool_decide_eq_true.
  destruct (clone_method tr), (accepted_by_addTrack tr); cbn; intuition congruence.
Qed.

End SharedTracks.

(** X22: what a [startProcessing] followed by [stop()] does to the
    tracks that were there before: it ends exactly the audio tracks of
    the input stream that were added to the output stream as they are,
    for want of a [clone] method, and leaves every other track, the
    video track of the input and the audio tracks it cloned among them,
    as it was. *)
Theorem stop_after_start_ends_shared_tracks
    (polls : nat) (env : Platform) (inputStream : nat) (options : Options)
    (this this' : Processor) (w w' : World) (out : nat) :
  NoDup (getTracks w inputStream) ->
  startProcessing polls env inputStream options this w
    = Some (Resolved out, this', w') ->
  forall (t : nat) (tr : Track),
    tracks w !! t = Some tr ->
    tracks (stop this' w').2 !! t =
      Some (if shared_with_output w inputStream t then ended tr else tr).
Proof.
  intros Hnodup Hrun t tr Ht.
  destruct (startProcessing_output _ _ _ _ _ _ _ _ _ Hrun) as (_ & _ & Hadded).
  destruct (Hadded Hnodup) as (added & Hout & Hall & _).
  destruct (startProcessing_started _ _ _ _ _ _ _ _ _ Hrun)
    as (k & vw & vh & _ & _ & Hthis & _).
  destruct (startProcessing_resolved _ _ _ _ _ _ _ _ _ Hrun) as (_ & Htracks & _).
  cbv zeta in Htracks.
  assert (Hkept : tracks w' !! t = Some tr).
  { rewrite Htracks. apply forward_all_grows.
    destruct (captureStream_world
                (safeFps (default 30%float (fps options))) w) as (_ & -> & _).
    apply lookup_app_l_Some, Ht. }
  rewrite stop_tracks, Hthis. cbn [outputStream].
  rewrite stop_all_lookup, Hkept. unfold getTracks. rewrite Hout. cbn [default].
  pose proof (lookup_lt_Some _ _ _ Ht) as Hold.
  destruct (shared_with_output w inputStream t) eqn:Hshared.
  - apply (shared_with_output_spec w inputStream t tr Ht) in Hshared
      as [Hin Hclone].
    apply list_elem_of_lookup in Hin as [i Hi].
    destruct (Forall2_lookup_l _ _ _ _ _ Hall Hi) as (c & Hc & tr' & Ht' & _ & Hfwd).
    rewrite Ht in Ht'. injection Ht' as <-. rewrite Hclone in Hfwd.
    destruct Hfwd as [-> _].
    rewrite bool_decide_eq_true_2; [reflexivity |].
    apply list_elem_of_further. eapply list_elem_of_lookup_2, Hc.
  - rewrite bool_decide_eq_false_2; [reflexivity |].
    intros [-> | Hin]%elem_of_cons; [lia |].
    apply list_elem_of_lookup in Hin as [i Hi].
    destruct (Forall2_lookup_r _ _ _ _ _ Hall Hi) as (a & Ha & tr' & Ha' & _ & Hfwd).
    destruct (clone_method tr') eqn:Hclone; [| lia | exact Hfwd].
    destruct Hfwd as [-> _]. rewrite Ht in Ha'. injection Ha' as <-.
    assert (Hyes : shared_with_output w inputStream a = true).
    { apply (shared_with_output_spec w inputStream a tr Ht). split; [| exact Hclone].
      eapply list_elem_of_lookup_2, Ha. }
    congruence.
Qed.

Lemma startProcessing_draws_first_frame_witness :
  match startProcessing 10 sample_platform 0 (sample_options 30)
          new_processor sample_world with
  | Some (Resolved out, this', w') =>
      isProcessing this' = true /\ outputStream this' = Some out /\
      canvas_width this' = 1440 /\ canvas_height this' = 1080 /\
      length (canvas_ops w') = 3%nat
  | _ => False
  end.
Proof.
  destruct (startProcessing 10 sample_platform 0 (sample_options 30)
              new_processor sample_world)
    as [[[[out | err] this'] w'] |] eqn:Hrun.
  - destruct (startProcessing_draws_first_frame _ _ _ _ _ _ _ _ _ Hrun)
      as (Hbusy & Hout & Hcw & Hch & _ & _ & (k & _ & _ & _ & _ & Hops) & _).
    repeat split; try assumption.
    rewrite Hops. reflexivity.
  - vm_compute in Hrun. discriminate.
  - vm_compute in Hrun. discriminate.
Defined.

Lemma frame_loop_keeps_running_witness :
  match startProcessing 10 sample_platform 0 (sample_options 30)
          new_processor sample_world with
  | Some (Resolved out, this', w') =>
      loop_running "cover" (run_frames 2 this' w').1 (run_frames 2 this' w').2 /\
      length (canvas_ops (run_frames 2 this' w').2) = 9%nat
  | _ => False
  end.
Proof.
  destruct (startProcessing 10 sample_platform 0 (sample_options 30)
              new_processor sample_world)
    as [[[[out | err] this'] w'] |] eqn:Hrun.
  - destruct (frame_loop_keeps_running 10 sample_platform 0 (sample_options 30)
                new_processor this' sample_world w' out 2 eq_refl Hrun)
      as (Hloop & Hops & _).
    split; [exact Hloop | exact Hops].
  - vm_compute in Hrun. discriminate.
  - vm_compute in Hrun. discriminate.
Defined.

Lemma stop_cancels_frame_loop_witness :
  match startProcessing 10 sample_platform 0 (sample_options 30)
          new_processor sample_world with
  | Some (Resolved out, this', w') =>
      frame_requests w' = [(1%nat, "cover")] /\
      frame_requests (stop this' w').2 = [] /\
      run_frames 3 (stop this' w').1 (stop this' w').2 = stop this' w'
  | _ => False
  end.
Proof.
  destruct (startProcessing 10 sample_platform 0 (sample_options 30)
              new_processor sample_world)
    as [[[[out | err] this'] w'] |] eqn:Hrun.
  - destruct (startProcessing_started _ _ _ _ _ _ _ _ _ Hrun)
      as (k & vw & vh & _ & Hsize & Hthis & _ & Hreq & _).
    assert (Hloop : loop_running "cover" this' w').
    { subst this'. split; [reflexivity |].
      eexists _, 0%nat. repeat split; [exact Hsize | exact Hreq]. }
    destruct (stop_cancels_frame_loop "cover" this' w' Hloop)
      as (Hnone & _ & _ & Hidle).
    repeat split; [exact Hreq | exact Hnone | apply Hidle].
  - vm_compute in Hrun. discriminate.
  - vm_compute in Hrun. discriminate.
Defined.

Lemma stop_after_start_ends_shared_tracks_witness :
  match startProcessing 10 sample_platform 0 (sample_options 30)
          new_processor legacy_world with
  | Some (Resolved out, this', w') =>
      tracks (stop this' w').2 !! 1%nat
        = Some (ended (device_track AudioKind NoCloneMethod)) /\
      tracks (stop this' w').2 !! 0%nat
        = Some (device_track VideoKind CloneSucceeds)
  | _ => False
  end.
Proof.
  destruct (startProcessing 10 sample_platform 0 (sample_options 30)
              new_processor legacy_world)
    as [[[[out | err] this'] w'] |] eqn:Hrun.
  - assert (Hnodup : NoDup (getTracks legacy_world 0)).
    { apply (bool_decide_unpack (NoDup (getTracks legacy_world 0))).
      vm_compute. exact I. }
    pose proof (stop_after_start_ends_shared_tracks _ _ _ _ _ _ _ _ _
                  Hnodup Hrun) as Hstop.
    split.
    + exact (Hstop 1%nat (device_track AudioKind NoCloneMethod) eq_refl).
    + exact (Hstop 0%nat (device_track VideoKind CloneSucceeds) eq_refl).
  - vm_compute in Hrun. discriminate.
  - vm_compute in Hrun. discriminate.
Defined.

(** ** Photos *)

(** X23: [processPhoto] frames a photo as [processFrame] frames the
    video.  Its canvas has the size the canvas element makes of the
    requested one (1920x1080 by default): the requested number when it
    lies between 0 and [2^31 - 1].  On it the function draws, with the
    requested width and height themselves, a black rectangle and the
    frame with the geometry of [calculateCropResize]; for a requested
    size in that range this is what a processing [VideoProcessor] with
    a canvas of the same size draws for the same video and fit mode,
    less the [clearRect].  For a video that has no frame yet (a zero
    width or height) it draws nothing, and encodes the blank canvas. *)
Theorem processPhoto_frames_like_video
    (toBlob : Photo.Canvas -> string -> float -> Promise (option Storage.Blob))
    (video : VideoElement) (options : Photo.PhotoOptions) :
  let photo := (Photo.processPhoto toBlob video options).2 in
  let rw := default 1920 (Photo.width options) in
  let rh := default 1080 (Photo.height options) in
  let mode := default "cover" (Photo.fitMode options) in
  Photo.bitmap_width photo = reflect_unsigned_long 300 rw /\
  Photo.bitmap_height photo = reflect_unsigned_long 150 rh /\
  (0 <= rw <= 2147483647 -> Photo.bitmap_width photo = rw) /\
  (0 <= rh <= 2147483647 -> Photo.bitmap_height photo = rh) /\
  (Photo.processPhoto toBlob video options).1
    = toBlob photo "image/jpeg"
        (default 0x1.e666666666666p-1%float (Photo.quality options)) /\
  (videoWidth video = 0 \/ videoHeight video = 0 -> Photo.drawn photo = []) /\
  (videoWidth video <> 0 -> videoHeight video <> 0 ->
   let g := calculateCropResize (N:=float)
              (of_int (videoWidth video)) (of_int (videoHeight video))
              (of_int rw) (of_int rh) mode in
   Photo.drawn photo =
     [FillRect "#000000" 0 0 rw rh;
      DrawImage (srcX g) (srcY g) (srcW g) (srcH g)
                (destX g) (destY g) (destW g) (destH g)]) /\
  (0 <= rw <= 2147483647 -> 0 <= rh <= 2147483647 ->
   forall (this : Processor) (w : World),
     isProcessing this = true -> inputVideo this = Some video ->
     canvas_width this = Photo.bitmap_width photo ->
     canvas_height this = Photo.bitmap_height photo ->
     canvas_ops (processFrame mode this w).2
       = canvas_ops w ++
         match Photo.drawn photo with
         | [] => []
         | ops => ClearRect 0 0 rw rh :: ops
         end).
Proof.
  cbv zeta. unfold Photo.processPhoto.
  cbn [fst snd Photo.bitmap_width Photo.bitmap_height Photo.drawn].
  split; [reflexivity |]. split; [reflexivity |].
  split; [apply reflect_in_range |]. split; [apply reflect_in_range |].
  split; [reflexivity |]. split; [| split].
  - intros [-> | ->]; cbn; [reflexivity |]. rewrite andb_false_r. reflexivity.
  - intros Hw Hh. unfold nonzero.
    destruct (Z.eqb_spec (videoWidth video) 0) as [| _]; [contradiction |].
    destruct (Z.eqb_spec (videoHeight video) 0) as [| _]; [contradiction |].
    reflexivity.
  - intros Hrw Hrh this w Hbusy Hvideo Hcw Hch. unfold processFrame.
    rewrite !reflect_in_range in Hcw, Hch by assumption.
    rewrite Hbusy, Hvideo, Hcw, Hch. cbn [negb].
    destruct (nonzero (videoWidth video) && nonzero (videoHeight video)).
    + reflexivity.
    + cbn. rewrite app_nil_r. reflexivity.
Qed.

(** ** Choosing the recording format *)

Section Choosing.
Import Recorder.

Lemma find_first {A : Type} (f : A -> bool) (l : list A) (x : A) :
  List.find f l = Some x ->
  exists before after,
    l = before ++ x :: after /\ f x = true /\
    (forall y, In y before -> f y = false).
Proof.
  induction l as [| y l IH]; cbn; [discriminate |].
  destruct (f y) eqn:Hy.
  - intros [= ->]. exists [], l. repeat split; [exact Hy |]. intros z [].
  - intros Hfind. destruct (IH Hfind) as (before & after & -> & Hx & Hbefore).
    exists (y :: before), after. repeat split; [exact Hx |].
    intros z [<- | Hz]; [exact Hy | apply Hbefore, Hz].
Qed.

Lemma find_nothing {A : Type} (f : A -> bool) (l : list A) :
  List.find f l = None <-> (forall y, In y l -> f y = false).
Proof.
  induction l as [| y l IH]; cbn.
  - split; [intros _ z [] | reflexivity].
  - destruct (f y) eqn:Hy.
    + split; [discriminate |]. intros Hall. rewrite Hall in Hy by auto.
      discriminate.
    + rewrite IH. split.
      * intros Hall z [<- | Hz]; auto.
      * intros Hall z Hz. apply Hall. auto.
Qed.

(** No candidate is the empty string. *)
Lemma candidates_nonempty (hasVideo hasAudio : bool) :
  ~ In "" (if hasVideo then videoCandidates hasAudio else audioCandidates).
Proof.
  destruct hasVideo.
  - intros Hin. apply videoCandidates_prefix in Hin. discriminate.
  - intros Hin. apply audioCandidates_prefix in Hin. discriminate.
Qed.

End Choosing.

(** X24: [pickMimeType] returns the first candidate of its list that
    the platform supports: every candidate before the one it returns is
    unsupported; and it returns the empty string exactly when the
    platform supports none of the candidates. *)
Theorem pickMimeType_first_supported
    (isTypeSupported : string -> bool) (stream : Recorder.StreamView) :
  let candidates :=
    if Recorder.has_tracks (Recorder.video_tracks stream)
    then Recorder.videoCandidates (Recorder.has_tracks (Recorder.audio_tracks stream))
    else Recorder.audioCandidates in
  let type := Recorder.pickMimeType isTypeSupported stream in
  (type = "" <-> (forall c, In c candidates -> isTypeSupported c = false)) /\
  (type = "" \/
   exists before after,
     candidates = before ++ type :: after /\ isTypeSupported type = true /\
     (forall c, In c before -> isTypeSupported c = false)).
Proof.
  cbv zeta. unfold Recorder.pickMimeType.
  pose proof (candidates_nonempty
                (Recorder.has_tracks (Recorder.video_tracks stream))
                (Recorder.has_tracks (Recorder.audio_tracks stream))) as Hnonempty.
  destruct (find isTypeSupported _) as [t |] eqn:Hfind.
  - pose proof (find_first _ _ _ Hfind) as (before & after & Hsplit & Ht & Hbefore).
    split; [| right; eauto].
    split.
    + intros ->. exfalso. apply Hnonempty. rewrite Hsplit.
      apply in_or_app. right. left. reflexivity.
    + intros Hnone. rewrite Hnone in Ht; [discriminate |].
      rewrite Hsplit. apply in_or_app. right. left. reflexivity.
  - split; [| left; reflexivity].
    split; [intros _; apply find_nothing, Hfind | reflexivity].
Qed.

(** X25: a stream with video tracks and no audio track is never given a
    type that names an audio codec (Opus or AAC), whatever the platform
    supports. *)
Theorem pickMimeType_audio_codec_needs_audio
    (isTypeSupported : string -> bool) (stream : Recorder.StreamView) :
  Recorder.has_tracks (Recorder.video_tracks stream) = true ->
  Recorder.has_tracks (Recorder.audio_tracks stream) = false ->
  Ui.includes "opus" (Recorder.pickMimeType isTypeSupported stream) = false /\
  Ui.includes "mp4a" (Recorder.pickMimeType isTypeSupported stream) = false.
Proof.
  intros Hvideo Hsilent.
  destruct (pickMimeType_cases isTypeSupported stream) as [-> | [Hin _]];
    [split; reflexivity |].
  rewrite Hvideo, Hsilent in Hin. cbn in Hin.
  repeat (destruct Hin as [<- | Hin]; [split; reflexivity |]). destruct Hin.
Qed.

Lemma pickMimeType_audio_codec_needs_audio_witness :
  let camera_only := {| Recorder.video_tracks := Some [0%nat];
                        Recorder.audio_tracks := Some [] |} in
  Recorder.pickMimeType (fun _ => true) camera_only = "video/webm;codecs=vp8" /\
  Ui.includes "opus" (Recorder.pickMimeType (fun _ => true) camera_only) = false.
Proof.
  cbv zeta. split; [reflexivity |].
  apply (pickMimeType_audio_codec_needs_audio (fun _ => true)); reflexivity.
Defined.

(** X26: the file extension [getFileExtension] gives to a type chosen
    by [pickMimeType]: 'webm' or 'mp4' for a stream with video tracks,
    where it agrees with the rule [includes('webm') ? 'webm' : 'mp4']
    of the video recorder, 'webm' or 'ogg' for a stream without; it is
    'file' only for the empty string, when no type is supported. *)
Theorem getFileExtension_of_picked_type
    (isTypeSupported : string -> bool) (stream : Recorder.StreamView) :
  let type := Recorder.pickMimeType isTypeSupported stream in
  let ext := Ui.getFileExtension type in
  (type = "" /\ ext = "file") \/
  (type <> "" /\
   if Recorder.has_tracks (Recorder.video_tracks stream)
   then (ext = "webm" \/ ext = "mp4") /\
        ext = (if Ui.includes "webm" type then "webm" else "mp4")
   else ext = "webm" \/ ext = "ogg").
Proof.
  cbv zeta.
  destruct (pickMimeType_cases isTypeSupported stream) as [-> | [Hin _]];
    [left; split; reflexivity |].
  right.
  destruct (Recorder.has_tracks (Recorder.video_tracks stream)).
  - destruct (Recorder.has_tracks (Recorder.audio_tracks stream)); cbn in Hin.
    all: repeat (destruct Hin as [<- | Hin];
                 [split; [discriminate | cbn; auto] |]); destruct Hin.
  - cbn in Hin.
    repeat (destruct Hin as [<- | Hin];
            [split; [discriminate | cbn; auto] |]); destruct Hin.
Qed.

(** ** The recording timer *)

Section Timer.
Import Metering.

Lemma clearInterval_last (handle : nat) (running : list nat) :
  handle ∉ running ->
  List.filter (fun h => negb (Nat.eqb h handle)) (running ++ [handle]) = running.
Proof.
  intros Hfresh. rewrite List.filter_app. cbn. rewrite Nat.eqb_refl. cbn.
  rewrite app_nil_r. induction running as [| h running IH]; [reflexivity |].
  apply not_elem_of_cons in Hfresh as [Hne Hfresh]. cbn.
  destruct (Nat.eqb_spec h handle) as [-> | _]; [congruence |].
  cbn. f_equal. apply IH, Hfresh.
Qed.

End Timer.

(** The text of the timer after 65 seconds, and after an hour. *)
Example timeStr_minutes_and_seconds :
  Metering.timeStr 65000 = "01:05" /\ Metering.timeStr 3600000 = "60:00".
Proof. vm_compute. auto. Qed.

(** X27: a [RecordingTimer] that is started measures the time since its
    start; [stop()] clears its interval and puts it back to the state
    of a new timer, whatever state it was started in, so that
    [getElapsed()] called after [stop()] is 0 at any time, and the
    callback is never called again. *)
Theorem timer_stop_resets
    (callback : nat) (now : Z) (handle : nat)
    (this : Metering.RecordingTimer) (running : list nat) :
  handle <> 0%nat -> handle ∉ running ->
  let started := Metering.start callback now handle this running in
  let stopped := Metering.stop started.1 started.2 in
  (forall later : Z, now <> 0 -> Metering.getElapsed later started.1 = later - now) /\
  stopped = (Metering.new_timer, running) /\
  (forall later : Z, Metering.getElapsed later stopped.1 = 0) /\
  (forall later : Z, Metering.tick later stopped.1 = None).
Proof.
  intros Hpositive Hfresh. cbv zeta.
  assert (Hstop : Metering.stop (Metering.start callback now handle this running).1
                    (Metering.start callback now handle this running).2
                  = (Metering.new_timer, running)).
  { unfold Metering.stop, Metering.start. cbn.
    destruct handle as [| h]; [congruence |].
    rewrite (clearInterval_last (S h) running Hfresh). reflexivity. }
  rewrite Hstop. repeat split.
  intros later Hnow. unfold Metering.getElapsed. cbn.
  destruct (Z.eqb_spec now 0); [congruence | reflexivity].
Qed.

Lemma timer_stop_resets_witness :
  Metering.getElapsed 1700000065000
    (Metering.start 0 1700000000000 7 Metering.new_timer []).1 = 65000 /\
  Metering.getElapsed 1700000065000
    (Metering.stop (Metering.start 0 1700000000000 7 Metering.new_timer []).1
       (Metering.start 0 1700000000000 7 Metering.new_timer []).2).1 = 0.
Proof.
  destruct (timer_stop_resets 0 1700000000000 7 Metering.new_timer [])
    as (Hrunning & _ & Hstopped & _).
  - discriminate.
  - apply not_elem_of_nil.
  - split; [apply Hrunning; discriminate | apply Hstopped].
Defined.

(** ** The outcome of [startProcessing] *)

Section Outcome.

Lemma checkFrame_found (env : Platform) (polls : nat) :
  forall (n : nat) (size : Z * Z),
    checkFrame polls env n = Some size ->
    exists k : nat, (k < polls)%nat /\ frame_ready env (n + k) = true.
Proof.
  induction polls as [| polls IH]; intros n size; cbn [checkFrame];
    [discriminate |].
  destruct (frame_size env n) as [vw vh] eqn:Hsize.
  destruct (nonzero vw && nonzero vh) eqn:Hnow.
  - intros _. exists 0%nat. split; [lia |].
    unfold frame_ready. rewrite Nat.add_0_r, Hsize. exact Hnow.
  - intros Hlater. destruct (IH _ _ Hlater) as (k & Hk & Hready).
    exists (S k). split; [lia |].
    replace (n + S k)%nat with (S n + k)%nat by lia. exact Hready.
Qed.

End Outcome.

(** X28: [startProcessing] resolves exactly when the input stream has a
    video track, the metadata of the video loads in time, one of the
    two calls of [play()] succeeds (the first, or the second after the
    first was rejected), the video shows a frame of non-zero size and
    [captureStream] does not throw; nothing about the audio tracks can
    make it fail. *)
Theorem startProcessing_resolves_iff
    (polls : nat) (env : Platform) (inputStream : nat) (options : Options)
    (this : Processor) (w : World) :
  (exists out this' w',
     startProcessing polls env inputStream options this w
       = Some (Resolved out, this', w')) <->
  getVideoTracks w inputStream <> [] /\
  metadata env <> TimesOut /\
  (first_play env = PlayResolves \/
   (exists err, first_play env = PlayRejects err) /\
   second_play env = PlayResolves) /\
  (exists k : nat, (k < polls)%nat /\ frame_ready env k = true) /\
  capture_error env = None.
Proof.
  rewrite <- play_with_retry_playing.
  split.
  - intros (out & this' & w' & Hrun). revert Hrun. unfold startProcessing.
    destruct (getVideoTracks w inputStream) as [| v vs]; cbn [length].
    { rewrite bool_decide_eq_true_2 by reflexivity. discriminate. }
    rewrite bool_decide_eq_false_2 by discriminate.
    destruct (metadata env); try discriminate.
    all: destruct (play_with_retry env); try discriminate.
    all: destruct (checkFrame polls env 0) as [size |] eqn:Hframe;
           try discriminate.
    all: apply checkFrame_found in Hframe; cbn [Nat.add] in Hframe.
    all: destruct size as [vw vh].
    all: destruct (capture_error env); try discriminate.
    all: intros _; repeat split; auto; discriminate.
  - intros (Hvideo & Hmeta & Hplay & (k & Hk & Hready) & Hcapture).
    eapply startProcessing_succeeds; eassumption.
Qed.

(** ** Statistics after a save *)

(** X29: after a successful save, the statistics of a healthy database
    count one item more, and the count of the category of the type of
    the new record has grown by one, the counts of the other categories
    being as they were; and as long as no size is negative and the sum
    of the sizes is below [2^53], [totalSize] was that sum before and
    has grown by the size of the new record.  Type and size are those
    of [metadata] when it names them, and otherwise the type passed and
    the size of the blob. *)
Theorem save_then_stats_grow
    (env : Storage.Idb) (now_id now : Z) (random : string)
    (b : Storage.Blob) (ty : string) (meta : Storage.Metadata)
    (db db' : gmap string Storage.GalleryItem) (key : string) :
  Storage.saveGalleryItem env now_id now random b ty meta db = (Resolved key, db') ->
  let added := default (Storage.blob_size b) (Storage.meta_size meta) in
  let total := foldr Z.add 0 (Storage.size <$> (map_to_list db).*2) in
  exists before after,
    StorageStats.getStorageStats Storage.healthy db = (Resolved before, db) /\
    StorageStats.getStorageStats Storage.healthy db' = (Resolved after, db') /\
    StorageStats.totalItems after = StorageStats.totalItems before + 1 /\
    ((forall k item, db !! k = Some item -> 0 <= Storage.size item) ->
     0 <= added -> total + added < 2 ^ 53 ->
     StorageStats.totalSize before = float_of_Z total /\
     StorageStats.totalSize after = float_of_Z (total + added)) /\
    (forall c : string,
       StorageStats.counts after !! c =
         if String.eqb
              (StorageStats.category (default ty (Storage.meta_type meta))) c
         then Some (default 0 (StorageStats.counts before !! c) + 1)
         else StorageStats.counts before !! c).
Proof.
  intros Hsave. cbv zeta.
  destruct (saveGalleryItem_resolved _ _ _ _ _ _ _ _ _ _ Hsave) as (_ & Hfree & ->).
  set (item := Storage.new_item now_id now random b ty meta).
  rewrite !getStorageStats_cases.
  destruct (loadGalleryItems_healthy db) as (items & -> & Hperm).
  destruct (loadGalleryItems_healthy (<[key := item]> db)) as (items' & -> & Hperm').
  assert (Hgrown : Permutation items' (item :: items)).
  { rewrite Hperm', Hperm, map_to_list_insert by exact Hfree. reflexivity. }
  eexists _, _. split; [reflexivity |]. split; [reflexivity |].
  cbn [StorageStats.totalItems StorageStats.totalSize StorageStats.counts].
  split; [| split].
  - rewrite (Permutation_length Hgrown). cbn [length]. lia.
  - intros Hsizes Hadded Hsum.
    rewrite <- (sum_sizes_Permutation _ _ Hperm) in Hsum |- *.
    assert (Hitems : forall it, it ∈ items -> 0 <= Storage.size it).
    { intros it Hin. rewrite Hperm in Hin.
      apply list_elem_of_fmap in Hin as ([k it'] & -> & Hin).
      apply elem_of_map_to_list in Hin. eapply Hsizes, Hin. }
    assert (Htotal : 0 <= foldr Z.add 0 (Storage.size <$> items)).
    { clear -Hitems. induction items as [| y items IH]; cbn; [lia |].
      assert (0 <= Storage.size y) by (apply Hitems, list_elem_of_here).
      assert (0 <= foldr Z.add 0 (Storage.size <$> items)); [| lia].
      apply IH. intros it Hin. apply Hitems, list_elem_of_further, Hin. }
    change 0%float with (float_of_Z 0).
    rewrite !total_size_sum; try lia; try assumption.
    + rewrite (sum_sizes_Permutation _ _ Hgrown). cbn [fmap list_fmap foldr].
      cbn [Storage.size item Storage.new_item].
      split; f_equal; lia.
    + intros it Hin. rewrite Hgrown in Hin.
      apply elem_of_cons in Hin as [-> | Hin]; [exact Hadded | apply Hitems, Hin].
    + rewrite (sum_sizes_Permutation _ _ Hgrown). cbn [fmap list_fmap foldr].
      cbn [Storage.size item Storage.new_item]. lia.
  - intros c. rewrite !counts_lookup, lookup_empty.
    rewrite (in_category_Permutation c _ _ Hgrown), in_category_cons.
    cbn [Storage.type item Storage.new_item StorageStats.or_zero].
    pose proof (in_category_nonneg c items) as Hnn.
    destruct (String.eqb (StorageStats.category
                            (default ty (Storage.meta_type meta))) c).
    + destruct (Z.eqb_spec (1 + in_category c items) 0) as [| _]; [lia |].
      destruct (Z.eqb_spec (in_category c items) 0) as [-> | _]; cbn; f_equal; lia.
    + rewrite Z.add_0_l. destruct (in_category c items =? 0); reflexivity.
Qed.

Lemma save_then_stats_grow_witness :
  exists before after,
    StorageStats.getStorageStats Storage.healthy sized_gallery
      = (Resolved before, sized_gallery) /\
    StorageStats.getStorageStats Storage.healthy
      (<["1700000009000-k3x" := saved_item]> sized_gallery)
      = (Resolved after, <["1700000009000-k3x" := saved_item]> sized_gallery) /\
    StorageStats.totalItems after = StorageStats.totalItems before + 1 /\
    ((forall k item, sized_gallery !! k = Some item -> 0 <= Storage.size item) ->
     0 <= 3 ->
     foldr Z.add 0 (Storage.size <$> (map_to_list sized_gallery).*2) + 3 < 2 ^ 53 ->
     StorageStats.totalSize before
       = float_of_Z (foldr Z.add 0 (Storage.size <$> (map_to_list sized_gallery).*2)) /\
     StorageStats.totalSize after
       = float_of_Z (foldr Z.add 0 (Storage.size <$> (map_to_list sized_gallery).*2) + 3)) /\
    (forall c : string,
       StorageStats.counts after !! c =
         if String.eqb "image" c
         then Some (default 0 (StorageStats.counts before !! c) + 1)
         else StorageStats.counts before !! c).
Proof.
  apply (save_then_stats_grow Storage.healthy 1700000009000 1700000009001
           "k3x" sample_blob "image/jpeg" (Storage.plain []) sized_gallery
           (<["1700000009000-k3x" := saved_item]> sized_gallery)
           "1700000009000-k3x").
  reflexivity.
Defined.

(** X30: what [buildConstraints] never gets wrong.  The camera is
    chosen either by [facingMode: 'user'] or by an exact device id,
    never by both and never by neither; the ideal width, height and
    frame rate are never 0 or NaN (1920, 1080 and 30 stand in); there
    are audio constraints exactly when [withAudio] is set; and an
    aspect ratio is asked for only when [aspect] is neither 'native'
    nor empty and its first two numbers are neither 0 nor NaN, and is
    then their quotient. *)
Theorem buildConstraints_well_formed
    (Number : string -> float) (o : Camera.CameraOptions) :
  let c := Camera.buildConstraints Number o in
  let v := Camera.video c in
  match Camera.video_deviceId_exact v, Camera.facingMode v with
  | Some device, None =>
      Camera.videoDeviceId o = Some device /\ device <> ""
  | None, Some mode =>
      mode = "user" /\
      (Camera.videoDeviceId o = None \/
       Camera.videoDeviceId o = Some "")
  | _, _ => False
  end /\
  truthy (Camera.width_ideal v) = true /\
  truthy (Camera.height_ideal v) = true /\
  truthy (Camera.frameRate_ideal v) = true /\
  (Camera.audio c = None <-> Camera.withAudio o = false) /\
  (forall ratio : float,
     Camera.aspectRatio_ideal v = Some ratio ->
     exists (a : string) (w h : float) (rest : list float),
       Camera.aspect o = Some a /\ a <> "native" /\ a <> "" /\
       List.map Number (Camera.split_at Camera.colon a) = w :: h :: rest /\
       truthy w = true /\ truthy h = true /\ ratio = PrimFloat.div w h).
Proof.
  cbv zeta. unfold Camera.buildConstraints.
  cbn [Camera.video Camera.audio
       Camera.video_deviceId_exact Camera.facingMode
       Camera.width_ideal Camera.height_ideal
       Camera.frameRate_ideal Camera.aspectRatio_ideal].
  assert (Hor : forall x fallback,
    truthy fallback = true ->
    truthy (Camera.number_or x fallback) = true).
  { intros [v |] fallback Hfallback; cbn; [| exact Hfallback].
    destruct (truthy v) eqn:Hv; assumption. }
  split; [| split; [| split; [| split; [| split]]]].
  - destruct (Camera.videoDeviceId o) as [[| a s] |]; cbn.
    + split; [reflexivity | right; reflexivity].
    + split; [reflexivity | discriminate].
    + split; [reflexivity | left; reflexivity].
  - apply Hor. reflexivity.
  - apply Hor. reflexivity.
  - apply Hor. reflexivity.
  - destruct (Camera.withAudio o); split; congruence.
  - intros ratio.
    destruct (Camera.aspect o) as [a |]; cbn [default from_option id];
      [| vm_compute; discriminate].
    destruct a as [| ch a']; cbn [Camera.nonempty andb];
      [discriminate |].
    destruct (String.eqb_spec (String ch a') "native") as [| Hnative];
      cbn [negb]; [discriminate |].
    destruct (List.map Number _) as [| w [| h rest]] eqn:Hparts;
      try discriminate.
    destruct (truthy w) eqn:Hw, (truthy h) eqn:Hh; try discriminate.
    intros [= <-]. exists (String ch a'), w, h, rest.
    repeat split; auto.
Qed.
